(** * Conversation store of the Native AI chat front end

    A shallow embedding of the two TypeScript modules that keep the chat
    history of the front end:

    - the API module ([sendMessage], [getConversationHistory],
      [createNewConversation], [getAllConversations], [deleteConversation]),
      embedded in [Module Api];
    - the demo page [demo.tsx] ([apiSendMessage], [getConversationHistory],
      [getTitleFromMessages], [createNewConversation], [onSubmit],
      [onPromptsItemClick], [onAddConversation], [onConversationClick],
      [bubbleItems]), embedded in [Module Demo].

    Conventions of the embedding.

    - A JavaScript string is the list of its UTF-16 code units, so that
      [length], [substring] and [===] mean what they mean in the source.
    - A JavaScript object used as a dictionary is a [gmap] of its own
      properties.  Reading a key the object does not hold gives, as in
      JavaScript, the member of [Object.prototype] of that name when there
      is one ([inheritedKey], [read]); the functions of the API module and
      the sends are embedded at such keys too ([sendAtInherited],
      [sendAnyKey]).
    - [Date.now()], [Math.random()] and [uuidv4()] are queries to the
      environment.  The program's n-th query is answered by the oracle of
      [Env] at index n, and the number of queries made so far is threaded
      through the code as [tick].
    - An [async] function is cut at its [await fetch(...)]: the code before it
      is a function returning the request and the captured locals, the code
      after it is a function of the captured locals and of the outcome of the
      fetch.  Running the two back to back is the send that nothing
      interleaves with. *)

From Stdlib Require Import ZArith Ascii String DecimalString DecimalZ.
From stdpp Require Import gmap list sorting.

Open Scope Z_scope.

(** ** JavaScript strings *)

Abbreviation jsstring := (list N).

Fixpoint js (s : string) : jsstring :=
  match s with
  | EmptyString => []
  | String a s' => N_of_ascii a :: js s'
  end.

(** Template-literal rendering of an integral number. *)
Definition decimal (z : Z) : jsstring := js (NilZero.string_of_int (Z.to_int z)).

(** [s.substring(0, n)] and [s.substring(s.length - n)]. *)
Definition substring_to (n : nat) (s : jsstring) : jsstring := take n s.
Definition substring_from_end (n : nat) (s : jsstring) : jsstring :=
  drop (length s - n)%nat s.

(** A string is falsy exactly when it is empty. *)
Definition truthy (s : jsstring) : bool := negb (bool_decide (s = [])).

(** The code units removed by [String.prototype.trim]. *)
Definition isWhiteSpace (c : N) : bool :=
  bool_decide (c ∈ [9; 10; 11; 12; 13; 32; 160; 5760; 8232; 8233; 8239; 8287;
                    12288; 65279]%N)
  || ((8192 <=? c)%N && (c <=? 8202)%N).

Fixpoint trimStart (s : jsstring) : jsstring :=
  match s with
  | c :: s' => if isWhiteSpace c then trimStart s' else s
  | [] => []
  end.

Definition trim (s : jsstring) : jsstring :=
  reverse (trimStart (reverse (trimStart s))).

(** ** Data model ([types.ts]) *)

Record Message := mkMessage {
  id : jsstring;
  content : jsstring;
  isUser : bool;
  timestamp : Z;
  loading : option bool
}.

Inductive Status := success | error.

(** [metadata?: Record<string, any>]: a key that is absent reads [None]. *)
Record Metadata := mkMetadata {
  conversation_id : jsstring;
  session_id : option jsstring;
  message_id : option jsstring;
  error_code : option jsstring;
  error_message : option jsstring
}.

Record ChatResponse := mkChatResponse {
  reply : jsstring;
  status : Status;
  metadata : Metadata
}.

(** The summary of a conversation ([interface Conversation]). *)
Module Conversation.
Record t := mk {
  id : jsstring;
  title : jsstring;
  lastMessage : jsstring;
  timestamp : Z
}.
End Conversation.

#[global] Instance Message_eq_dec : EqDecision Message.
Proof. solve_decision. Defined.

(** ** The module-level store

    [mockConversations] and [sessionIdMap], the two dictionaries each module
    declares at top level. *)
Record Store := mkStore {
  mockConversations : gmap jsstring (list Message);
  sessionIdMap : gmap jsstring jsstring
}.

(** The store together with the number of environment queries made so far. *)
Record State := mkState {
  store : Store;
  tick : nat
}.

(** ** The environment *)

Record Env := mkEnv {
  Date_now : nat → Z;          (* [Date.now()] *)
  Math_random : nat → Z;       (* [Math.floor(Math.random() * 1000000)] *)
  uuidv4 : nat → jsstring;     (* [uuidv4()] *)
  undefined_push : jsstring    (* message of the TypeError of [undefined.push] *)
}.

(** What [await fetch(...)] followed by [await response.json()] can yield.
    A body that parses has here the shape the code reads it with: a string
    [reply] and an optional string [session_id].  The code checks neither;
    the answers whose [reply] is no string are embedded apart ([Wire],
    [Stored]). *)
Inductive Body :=
  | BodyMalformed (why : jsstring)
  | BodyJson (reply : jsstring) (session_id : option jsstring).

Inductive FetchOutcome :=
  | FetchRejected (why : jsstring)
  | FetchResponse (status : Z) (body : Body).

(** [response.ok]. *)
Definition response_ok (status : Z) : bool := (200 <=? status) && (status <=? 299).

(** The request handed to [fetch]; [body] lists the fields of the JSON object
    in the order they are written. *)
Record Request := mkRequest {
  url : jsstring;
  headers : list (jsstring * jsstring);
  body : list (jsstring * jsstring)
}.

(** The value of the field [k] of such an object. *)
Fixpoint field (k : jsstring) (o : list (jsstring * jsstring)) : option jsstring :=
  match o with
  | [] => None
  | (k', v) :: o' => if bool_decide (k' = k) then Some v else field k o'
  end.

(** The locals of a send that are live across the [await]. *)
Record Call := mkCall {
  call_message : jsstring;
  call_conversationId : jsstring;
  call_sessionId : jsstring
}.

#[global] Instance Call_eq_dec : EqDecision Call.
Proof. solve_decision. Defined.

(** How the promise of a send settles. *)
Inductive Completion :=
  | Resolved (r : ChatResponse)
  | Raised (why : jsstring).

(** ** Reading a dictionary

    [mockConversations] and [sessionIdMap] are plain objects: a key they do
    not hold is looked up in [Object.prototype]. *)

(** The names of the members of [Object.prototype]. *)
Definition Object_prototype : list jsstring :=
  js <$> ["constructor"; "hasOwnProperty"; "isPrototypeOf"; "propertyIsEnumerable";
          "toLocaleString"; "toString"; "valueOf"; "__proto__"; "__defineGetter__";
          "__defineSetter__"; "__lookupGetter__"; "__lookupSetter__"]%string.

Definition inheritedKey (k : jsstring) : bool := bool_decide (k ∈ Object_prototype).

(** What [mockConversations[conversationId]] gives when it is not
    [undefined]: a stored history, or the member of [Object.prototype] the
    key names, a function or an object, which is truthy and has no [push]. *)
Inductive Value :=
  | Array (l : list Message)
  | Member (name : jsstring).

Definition read (conversationId : jsstring) (convs : gmap jsstring (list Message))
    : option Value :=
  match convs !! conversationId with
  | Some l => Some (Array l)
  | None => if inheritedKey conversationId then Some (Member conversationId) else None
  end.

(** The key reads a member of [Object.prototype]. *)
Definition readsInherited (conversationId : jsstring) (st : Store) : bool :=
  match read conversationId (mockConversations st) with
  | Some (Member _) => true
  | _ => false
  end.

(** ** Code shared by the two copies of the send function *)

(** ['抱歉，我暂时无法连接到服务器。请稍后再试或检查您的网络连接。'] *)
Definition fallbackReply : jsstring :=
  [25265; 27465; 65292; 25105; 26242; 26102; 26080; 27861; 36830; 25509;
   21040; 26381; 21153; 22120; 12290; 35831; 31245; 21518; 20877; 35797;
   25110; 26816; 26597; 24744; 30340; 32593; 32476; 36830; 25509; 12290]%N.

(** ['API错误: '] *)
Definition apiErrorPrefix : jsstring := [65; 80; 73; 38169; 35823; 58; 32]%N.

(** [if (!mockConversations[conversationId]) mockConversations[conversationId] = []],
    at a key that does not read a member of [Object.prototype]. *)
Definition ensureConversation (conversationId : jsstring)
    (convs : gmap jsstring (list Message)) : gmap jsstring (list Message) :=
  match convs !! conversationId with
  | Some _ => convs
  | None => <[conversationId := []]> convs
  end.

(** [mockConversations[conversationId].push(m)]; [None] is the TypeError
    raised when the conversation is not in the store: the key reads
    [undefined], or a member of [Object.prototype], which has no [push].
    After the [await] the key is one a send got to its [fetch] with, and then
    reads [undefined]. *)
Definition push (conversationId : jsstring) (m : Message)
    (convs : gmap jsstring (list Message)) : option (gmap jsstring (list Message)) :=
  match convs !! conversationId with
  | Some l => Some (<[conversationId := l ++ [m]]> convs)
  | None => None
  end.

(** [let sessionId = sessionIdMap[conversationId]; if (!sessionId) {...}], which
    a send gets to at a key that does not read a member of
    [Object.prototype]. *)
Definition resolveSession (E : Env) (conversationId : jsstring)
    (sessions : gmap jsstring jsstring) (k : nat)
    : jsstring * gmap jsstring jsstring * nat :=
  let fresh :=
    js "session-" ++ decimal (Date_now E k) ++ js "-" ++ decimal (Math_random E (S k)) in
  match sessions !! conversationId with
  | Some s =>
      if truthy s then (s, sessions, k)
      else (fresh, <[conversationId := fresh]> sessions, S (S k))
  | None => (fresh, <[conversationId := fresh]> sessions, S (S k))
  end.

(** [if (data.session_id && data.session_id !== sessionId)
      sessionIdMap[conversationId] = data.session_id] *)
Definition updateSession (c : Call) (data_session_id : option jsstring)
    (sessions : gmap jsstring jsstring) : gmap jsstring jsstring :=
  match data_session_id with
  | Some sid =>
      if truthy sid && negb (bool_decide (sid = call_sessionId c))
      then <[call_conversationId c := sid]> sessions
      else sessions
  | None => sessions
  end.

(** The [catch] block. *)
Definition onError (E : Env) (c : Call) (why : jsstring) (s : State)
    : Completion * State :=
  let k := tick s in
  let errorMessage :=
    mkMessage (js "system-error-" ++ decimal (Date_now E k)) fallbackReply false
              (Date_now E (S k)) None in
  match push (call_conversationId c) errorMessage (mockConversations (store s)) with
  | Some convs =>
      (Resolved
         (mkChatResponse fallbackReply error
            (mkMetadata (call_conversationId c) None None
               (Some (js "API_CONNECTION_ERROR")) (Some why))),
       mkState (mkStore convs (sessionIdMap (store s))) (S (S k)))
  | None => (Raised (undefined_push E), mkState (store s) (S (S k)))
  end.

(** The rest of the [try] block, from [if (!response.ok)] on, followed by the
    [catch] block where the [try] block throws. *)
Definition afterFetch (E : Env) (c : Call) (o : FetchOutcome) (s : State)
    : Completion * State :=
  match o with
  | FetchRejected why => onError E c why s
  | FetchResponse status bd =>
      if negb (response_ok status) then onError E c (apiErrorPrefix ++ decimal status) s
      else
        match bd with
        | BodyMalformed why => onError E c why s
        | BodyJson data_reply data_session_id =>
            let k := tick s in
            let sessions := updateSession c data_session_id (sessionIdMap (store s)) in
            let systemMessage :=
              mkMessage (js "system-" ++ decimal (Date_now E k)) data_reply false
                        (Date_now E (S k)) None in
            match push (call_conversationId c) systemMessage
                       (mockConversations (store s)) with
            | Some convs =>
                (Resolved
                   (mkChatResponse data_reply success
                      (mkMetadata (call_conversationId c) data_session_id
                         (Some (id systemMessage)) None None)),
                 mkState (mkStore convs sessions) (S (S k)))
            | None =>
                onError E c (undefined_push E)
                  (mkState (mkStore (mockConversations (store s)) sessions) (S (S k)))
            end
        end
  end.

(** V8's message of the TypeError of a call of [push] on a value that has
    none. *)
Definition push_not_a_function : jsstring :=
  js "mockConversations[conversationId].push is not a function".

(** Either send function at a key that reads a member of [Object.prototype].
    The member is truthy, so no conversation is created; the user message is
    built; [push] (on the page [some], called first) is not a function of
    the member, which takes the send to its [catch] block; the fallback
    message is built, and its [push] raises out of the [catch] block.  The
    clock was read four times, nothing was stored or bound, [fetch] was not
    called. *)
Definition sendAtInherited (E : Env) (s : State) : Completion * State :=
  (Raised push_not_a_function, mkState (store s) (S (S (S (S (tick s)))))).

(** [Array.prototype.sort(compareFn)]: the sort is stable, and [x] stays in
    front of [y] when [compareFn(x, y) <= 0]. *)
Fixpoint sort_insert {A} (compareFn : A → A → Z) (x : A) (l : list A) : list A :=
  match l with
  | [] => [x]
  | y :: l' => if compareFn x y <=? 0 then x :: l else y :: sort_insert compareFn x l'
  end.

Definition Array_sort {A} (compareFn : A → A → Z) (l : list A) : list A :=
  foldr (sort_insert compareFn) [] l.

(** The title derived from the first user message, else [placeholder]. *)
Definition titleOf (messages : list Message) (placeholder : jsstring) : jsstring :=
  match filter (λ msg, isUser msg) messages with
  | first :: _ =>
      if (20 <? length (content first))%nat
      then substring_to 20 (content first) ++ js "..."
      else content first
  | [] => placeholder
  end.

(** ** The API module *)
Module Api.

Definition API_URL : jsstring := js "http://localhost:8000/nativeai/agents/ship/chat".
Definition API_TOKEN : jsstring := js "app-3MjlCFdfgK9Cw5eIlEjAdFyv".

(** ['你好！我是Native AI, 请问有什么我可以帮助您的？'] *)
Definition greeting : jsstring :=
  [20320; 22909; 65281; 25105; 26159; 78; 97; 116; 105; 118; 101; 32; 65; 73;
   44; 32; 35831; 38382; 26377; 20160; 20040; 25105; 21487; 20197; 24110;
   21161; 24744; 30340; 65311]%N.

(** ['您好！我是Native AI, 请问有什么我可以帮助您的？'] *)
Definition newGreeting : jsstring := 24744%N :: drop 1 greeting.

(** ['火车票用户咨询 '] *)
Definition titlePrefix : jsstring :=
  [28779; 36710; 31080; 29992; 25143; 21672; 35810; 32]%N.

(** The store as the module leaves it once loaded. *)
Definition initial (E : Env) : State :=
  mkState
    (mkStore
       {[ js "1" := [mkMessage (js "system-init-1") greeting false
                               (Date_now E 0 - 3600000) None] ]}
       ∅)
    1.

(** [sendMessage], up to the call of [fetch], at a key that does not read a
    member of [Object.prototype] (at one that does, the send is
    [sendAtInherited]).  The conversation was just ensured, so the push of
    the user message finds it. *)
Definition sendMessage_request (E : Env) (message conversationId : jsstring)
    (s : State) : Request * Call * State :=
  let k := tick s in
  let convs := ensureConversation conversationId (mockConversations (store s)) in
  let userMessage :=
    mkMessage (js "user-" ++ decimal (Date_now E k)) message true
              (Date_now E (S k)) None in
  let convs := default convs (push conversationId userMessage convs) in
  let '(sessionId, sessions, k) :=
    resolveSession E conversationId (sessionIdMap (store s)) (S (S k)) in
  (mkRequest API_URL
     [(js "Content-Type", js "application/json");
      (js "Authorization", js "Bearer " ++ API_TOKEN);
      (js "Trace-ID", js "trace-" ++ decimal (Date_now E k))]
     [(js "content", message); (js "session_id", sessionId);
      (js "user_id", js "huyida-test")],
   mkCall message conversationId sessionId,
   mkState (mkStore convs sessions) (S k)).

(** A send that runs from the call to the settling of its promise with
    nothing in between: [o] is what [fetch] yields. *)
Definition sendMessage (E : Env) (message conversationId : jsstring)
    (o : FetchOutcome) (s : State) : Completion * State :=
  let '(_, c, s1) := sendMessage_request E message conversationId s in
  afterFetch E c o s1.

(** [mockConversations[conversationId] || []]: what the key reads, which is
    a member of [Object.prototype] for a name such as [constructor]. *)
Definition getConversationHistory (conversationId : jsstring) (st : Store) : Value :=
  default (Array []) (read conversationId (mockConversations st)).

Definition createNewConversation (E : Env) (s : State) : jsstring * State :=
  let k := tick s in
  let newId := decimal (Date_now E k) in
  (newId,
   mkState
     (mkStore
        (<[newId := [mkMessage (js "system-init-" ++ newId) newGreeting false
                               (Date_now E (S k)) None]]>
           (mockConversations (store s)))
        (sessionIdMap (store s)))
     (S (S k))).

(** The callback of [.map] in [getAllConversations]; [None] is the
    TypeError of reading [content] of an undefined last message. *)
Definition summary (entry : jsstring * list Message) : option Conversation.t :=
  let '(id, messages) := entry in
  let title := titleOf messages (titlePrefix ++ substring_from_end 4 id) in
  match last messages with
  | Some lastMessage =>
      Some (Conversation.mk id title
              (substring_to 30 (content lastMessage)
               ++ (if (30 <? length (content lastMessage))%nat then js "..." else []))
              (timestamp lastMessage))
  | None => None
  end.

(** [getAllConversations], given [entries = Object.entries(mockConversations)]. *)
Definition getAllConversations (entries : list (jsstring * list Message))
    : option (list Conversation.t) :=
  Array_sort (λ a b, Conversation.timestamp b - Conversation.timestamp a)
    <$> mapM summary entries.

(** [delete] removes an own property and does nothing for a key the object
    does not hold, whatever the key reads. *)
Definition deleteConversation (conversationId : jsstring) (st : Store)
    : bool * Store :=
  match read conversationId (mockConversations st) with
  | Some _ =>
      (true, mkStore (delete conversationId (mockConversations st)) (sessionIdMap st))
  | None => (false, st)
  end.

End Api.

(** ** The demo page *)
Module Demo.

Definition API_URL : jsstring := js "http://localhost:8000/nativeai/llm/question".

(** ['你好！我是Native，有什么我可以帮到您的？'] *)
Definition greeting : jsstring :=
  [20320; 22909; 65281; 25105; 26159; 78; 97; 116; 105; 118; 101; 65292;
   26377; 20160; 20040; 25105; 21487; 20197; 24110; 21040; 24744; 30340;
   65311]%N.

(** ['您好！我是Native AI，可以帮您推荐美食、查询订单、优惠券管理等，有什么我可以帮助您的？'] *)
Definition newGreeting : jsstring :=
  [24744; 22909; 65281; 25105; 26159; 78; 97; 116; 105; 118; 101; 32; 65; 73;
   65292; 21487; 20197; 24110; 24744; 25512; 33616; 32654; 39135; 12289;
   26597; 35810; 35746; 21333; 12289; 20248; 24800; 21048; 31649; 29702;
   31561; 65292; 26377; 20160; 20040; 25105; 21487; 20197; 24110; 21161;
   24744; 30340; 65311]%N.

Definition DEFAULT_CONVERSATION_ID (E : Env) : jsstring := uuidv4 E 0.

Definition initial (E : Env) : State :=
  mkState
    (mkStore
       {[ DEFAULT_CONVERSATION_ID E :=
            [mkMessage (js "system-init-" ++ DEFAULT_CONVERSATION_ID E) greeting
                       false (Date_now E 1 - 3600000) None] ]}
       ∅)
    2.

(** [mockConversations[conversationId].some(msg => ...)]: the clock is read
    for each message the first two conjuncts let through. *)
Fixpoint hasDuplicateMessage (E : Env) (message : jsstring) (l : list Message)
    (k : nat) : bool * nat :=
  match l with
  | [] => (false, k)
  | msg :: l' =>
      if isUser msg && bool_decide (content msg = message) then
        if Date_now E k - timestamp msg <? 5000 then (true, S k)
        else hasDuplicateMessage E message l' (S k)
      else hasDuplicateMessage E message l' k
  end.

(** [apiSendMessage], up to the call of [fetch]: the same, at such a key
    too, with the push of the user message behind the guard. *)
Definition apiSendMessage_request (E : Env) (message conversationId : jsstring)
    (s : State) : Request * Call * State :=
  let k := tick s in
  let convs := ensureConversation conversationId (mockConversations (store s)) in
  let userMessage :=
    mkMessage (js "user-" ++ decimal (Date_now E k)) message true
              (Date_now E (S k)) None in
  let '(duplicate, k) :=
    hasDuplicateMessage E message (default [] (convs !! conversationId)) (S (S k)) in
  let convs :=
    if duplicate then convs
    else default convs (push conversationId userMessage convs) in
  let '(sessionId, sessions, k) :=
    resolveSession E conversationId (sessionIdMap (store s)) k in
  (mkRequest API_URL
     [(js "Content-Type", js "application/json");
      (js "Trace-ID", js "trace-" ++ decimal (Date_now E k))]
     [(js "question", message); (js "session_id", sessionId);
      (js "user_id", js "huyida-test")],
   mkCall message conversationId sessionId,
   mkState (mkStore convs sessions) (S k)).

(** A send that nothing interleaves with. *)
Definition apiSendMessage (E : Env) (message conversationId : jsstring)
    (o : FetchOutcome) (s : State) : Completion * State :=
  let '(_, c, s1) := apiSendMessage_request E message conversationId s in
  afterFetch E c o s1.

(** [mockConversations[conversationId] || []], which the page calls with
    [activeKey], the key of one of its conversations: an identifier from
    [uuidv4()], not the name of a member of [Object.prototype]. *)
Definition getConversationHistory (conversationId : jsstring) (st : Store)
    : list Message :=
  default [] (mockConversations st !! conversationId).

Definition getTitleFromMessages (messages : list Message) (id : jsstring)
    : jsstring :=
  titleOf messages (js "Native AI " ++ id).

Definition createNewConversation (E : Env) (s : State) : jsstring * State :=
  let k := tick s in
  let newId := uuidv4 E k in
  (newId,
   mkState
     (mkStore
        (<[newId := [mkMessage (js "system-init-" ++ newId) newGreeting false
                               (Date_now E (S k)) None]]>
           (mockConversations (store s)))
        (sessionIdMap (store s)))
     (S (S k))).


(** *** Rendering: [bubbleItems] *)

(** [self.findIndex(p)], [-1] when nothing matches. *)
Fixpoint findIndexFrom {A} (p : A → bool) (self : list A) (index : nat) : Z :=
  match self with
  | [] => -1
  | m :: rest => if p m then Z.of_nat index else findIndexFrom p rest (S index)
  end.

Definition findIndex {A} (p : A → bool) (self : list A) : Z := findIndexFrom p self 0.

(** [l.filter((msg, index) => p(msg, index))], for the part of the array
    that starts at [index]. *)
Fixpoint filterFrom {A} (p : A → nat → bool) (index : nat) (l : list A) : list A :=
  match l with
  | [] => []
  | msg :: rest =>
      if p msg index then msg :: filterFrom p (S index) rest
      else filterFrom p (S index) rest
  end.

(** [.filter((msg, index, self) => self.findIndex(m => m.id === msg.id) === index)] *)
Definition uniqueById (self : list Message) : list Message :=
  filterFrom
    (λ msg index,
       bool_decide (findIndex (λ m, bool_decide (id m = id msg)) self = Z.of_nat index))
    0 self.

(** [.sort((a, b) => a.timestamp - b.timestamp)] *)
Definition sortByTimestamp (l : list Message) : list Message :=
  Array_sort (λ a b, timestamp a - timestamp b) l.

(** The history as the page shows it: [messages.filter(...).sort(...)]. *)
Definition shownMessages (messages : list Message) : list Message :=
  sortByTimestamp (uniqueById messages).

Inductive BubbleItem :=
  | Welcome
  | Bubble (key content : jsstring) (placement_end : bool) (loading : option bool).

Definition bubbleItems (isNewConversation : bool) (messages : list Message)
    : list BubbleItem :=
  if isNewConversation then [Welcome]
  else (λ msg, Bubble (id msg) (content msg) (isUser msg) (loading msg))
         <$> shownMessages messages.

(** The same chain on array objects.  [getConversationHistory] hands out the
    stored array itself, so the arrays live in a heap and are named by
    reference: [filter] allocates its result, [sort] overwrites its
    receiver and returns it. *)
Definition Array_filter_new (f : list Message → list Message)
    (h : gmap nat (list Message)) (r : nat) : nat * gmap nat (list Message) :=
  let r' := fresh (dom h) in
  (r', <[r' := f (default [] (h !! r))]> h).

Definition Array_sort_in_place (f : list Message → list Message)
    (h : gmap nat (list Message)) (r : nat) : nat * gmap nat (list Message) :=
  (r, <[r := f (default [] (h !! r))]> h).

Definition showMessages (h : gmap nat (list Message)) (messages : nat)
    : nat * gmap nat (list Message) :=
  let '(filtered, h) := Array_filter_new uniqueById h messages in
  Array_sort_in_place sortByTimestamp h filtered.

(** *** The component: [onSubmit] and the handlers around it

    Of the state of [Independent] the embedding keeps what the handlers
    read to decide what to do to the store and the network.  The input
    box, the attachments and the prompt module are left out: whatever the
    module, [onSubmit] calls [apiSendMessage(nextContent, activeKey)].  A
    handler reads the state the handlers before it have set: the page is
    taken to render between two events.

    [messages] is the list the updaters given to [setMessages] make when
    each is run, as it is queued, on a list of its own.  React runs them at
    the next render, and after [setMessages(history)] the list is the
    stored array itself, onto which [apiSendMessage] pushes; so the
    messages before the last one can differ from those of the page.  The
    statements on the page use of [messages] what does not depend on this:
    its last message once a reply is shown, and its placeholders. *)

(** The locals of a running [onSubmit] that are live across its [await]. *)
Record Submit := mkSubmit {
  nextContent : jsstring;
  submit_activeKey : jsstring;
  userMessageId : jsstring;
  loadingMessageId : jsstring;
  submit_conversationsItems : list (jsstring * jsstring);
  submit_request : Request;
  submit_call : Call
}.

Record App := mkApp {
  state : State;
  isLoading : bool;
  activeKey : jsstring;
  messages : list Message;
  isNewConversation : bool;
  conversationsItems : list (jsstring * jsstring);
  inFlight : list Submit     (* the sends whose [fetch] has not settled *)
}.

(** The effect on [activeKey] (and on mount). *)
Definition showHistory (key : jsstring) (a : App) : App :=
  let history := getConversationHistory key (store (state a)) in
  mkApp (state a) (isLoading a) key history (bool_decide (length history ≤ 1)%nat)
        (conversationsItems a) (inFlight a).

Definition initialApp (E : Env) : App :=
  showHistory (DEFAULT_CONVERSATION_ID E)
    (mkApp (initial E) false (DEFAULT_CONVERSATION_ID E) [] true
           [(DEFAULT_CONVERSATION_ID E, js "Native AI")] []).

(** [onSubmit], up to the [await]. *)
Definition onSubmit (E : Env) (nextContent : jsstring) (a : App) : App :=
  if negb (truthy (trim nextContent)) then a
  else if isLoading a then a
  else
    let k := tick (state a) in
    let userMessageId := js "user-" ++ decimal (Date_now E k) in
    let userMessage := mkMessage userMessageId nextContent true (Date_now E (S k)) None in
    let loadingMessageId :=
      js "system-" ++ decimal (Date_now E (S (S k))) ++ js "-loading" in
    let loadingMessage :=
      mkMessage loadingMessageId [] false (Date_now E (S (S (S k)))) (Some true) in
    let '(request, c, s1) :=
      apiSendMessage_request E nextContent (activeKey a)
        (mkState (store (state a)) (S (S (S (S k))))) in
    mkApp s1 true (activeKey a) (messages a ++ [userMessage; loadingMessage]) false
          (conversationsItems a)
          (inFlight a ++ [mkSubmit nextContent (activeKey a) userMessageId
                                   loadingMessageId (conversationsItems a) request c]).

(** The filter of the [setMessages] that follows the reply. *)
Fixpoint withoutPlaceholders (E : Env) (p : Submit) (prev : list Message) (k : nat)
    : list Message * nat :=
  match prev with
  | [] => ([], k)
  | msg :: rest =>
      if bool_decide (id msg = loadingMessageId p) then withoutPlaceholders E p rest k
      else if isUser msg && bool_decide (content msg = nextContent p) then
        let drop_it :=
          (Date_now E k - timestamp msg <? 3000)
          && negb (bool_decide (id msg = userMessageId p)) in
        let '(kept, k') := withoutPlaceholders E p rest (S k) in
        (if drop_it then kept else msg :: kept, k')
      else
        let '(kept, k') := withoutPlaceholders E p rest k in
        (msg :: kept, k')
  end.

(** [onSubmit], from the [await] on: [o] is what [fetch] yields. *)
Definition onSubmit_settle (E : Env) (p : Submit) (o : FetchOutcome) (a : App) : App :=
  let '(completion, s1) := afterFetch E (submit_call p) o (state a) in
  match completion with
  | Resolved response =>
      let '(kept, k) := withoutPlaceholders E p (messages a) (tick s1) in
      let '(newId, k) :=
        match message_id (metadata response) with
        | Some i => if truthy i then (i, k) else (js "system-" ++ decimal (Date_now E k), S k)
        | None => (js "system-" ++ decimal (Date_now E k), S k)
        end in
      let shown := kept ++ [mkMessage newId (reply response) false (Date_now E k) None] in
      let items :=
        match mockConversations (store s1) !! submit_activeKey p with
        | Some history =>
            (λ item : jsstring * jsstring,
               if bool_decide (item.1 = submit_activeKey p)
               then (item.1, getTitleFromMessages history (submit_activeKey p))
               else item) <$> submit_conversationsItems p
        | None => conversationsItems a
        end in
      mkApp (mkState (store s1) (S k)) false (activeKey a) shown (isNewConversation a)
            items (inFlight a)
  | Raised _ =>
      mkApp s1 false (activeKey a)
            (filter (λ msg, id msg ≠ loadingMessageId p) (messages a))
            (isNewConversation a) (conversationsItems a) (inFlight a)
  end.

(** ['新会话 '] *)
Definition newLabel : jsstring := [26032; 20250; 35805; 32]%N.

Definition onAddConversation (E : Env) (a : App) : App :=
  let '(newId, s1) := createNewConversation E (state a) in
  let a1 :=
    mkApp s1 (isLoading a) newId (getConversationHistory newId (store s1)) true
          (conversationsItems a ++ [(newId, newLabel ++ newId)]) (inFlight a) in
  if bool_decide (newId = activeKey a) then a1 else showHistory newId a1.

Definition onConversationClick (key : jsstring) (a : App) : App :=
  if bool_decide (key = activeKey a)
  then a
  else showHistory key a.

(** What can happen to the page: a handler runs, or the [fetch] of a
    running [onSubmit] settles. *)
Inductive Action :=
  | DoSubmit (text : jsstring)
  | DoSettle (i : nat) (o : FetchOutcome)
  | DoAddConversation
  | DoConversationClick (key : jsstring).

Definition act (E : Env) (a : App) (ac : Action) : App :=
  match ac with
  | DoSubmit text => onSubmit E text a
  | DoSettle i o =>
      match inFlight a !! i with
      | Some p =>
          onSubmit_settle E p o
            (mkApp (state a) (isLoading a) (activeKey a) (messages a)
                   (isNewConversation a) (conversationsItems a) (delete i (inFlight a)))
      | None => a
      end
  | DoAddConversation => onAddConversation E a
  | DoConversationClick key => onConversationClick key a
  end.

Definition run (E : Env) (acs : list Action) : App := foldl (act E) (initialApp E) acs.

(** *** [onPromptsItemClick]

    The click on a prompt, of which [info.data.key] and
    [info.data.description] are read.  The module the click selects
    ([activeModule]) is not part of [App]: [onSubmit] makes the same call
    whatever it is. *)

(** [defaultPromptsItems], the modules offered in a new conversation, by key
    and label: ['订单分析'], ['外卖助手'], ['美食推荐'], ['评价助手'],
    ['优惠券管理']. *)
Definition defaultPromptsItems : list (jsstring * jsstring) :=
  [(js "1", [35746; 21333; 20998; 26512]%N);
   (js "2", [22806; 21334; 21161; 25163]%N);
   (js "3", [32654; 39135; 25512; 33616]%N);
   (js "4", [35780; 20215; 21161; 25163]%N);
   (js "5", [20248; 24800; 21048; 31649; 29702]%N)].

(** [self.find(p)] *)
Fixpoint Array_find {A} (p : A → bool) (self : list A) : option A :=
  match self with
  | [] => None
  | item :: rest => if p item then Some item else Array_find p rest
  end.

(** ['请输入您要分析的订单号或相关要求'] *)
Definition orderAnalysisPrompt : jsstring :=
  [35831; 36755; 20837; 24744; 35201; 20998; 26512; 30340; 35746; 21333;
   21495; 25110; 30456; 20851; 35201; 27714]%N.

(** ['您好，我是优惠券管理助手。请问有什么可以帮助您的？'] *)
Definition couponPrompt : jsstring :=
  [24744; 22909; 65292; 25105; 26159; 20248; 24800; 21048; 31649; 29702;
   21161; 25163; 12290; 35831; 38382; 26377; 20160; 20040; 21487; 20197;
   24110; 21161; 24744; 30340; 65311]%N.

Definition onPromptsItemClick (E : Env) (info_key : jsstring)
    (info_description : option jsstring) (a : App) : App :=
  if isLoading a then a
  else
    match (if isNewConversation a
           then Array_find (λ item : jsstring * jsstring, bool_decide (item.1 = info_key))
                  defaultPromptsItems
           else None) with
    | Some module =>
        let k := tick (state a) in
        let setMessages (text : jsstring) :=
          mkApp (mkState (store (state a)) (S (S k))) (isLoading a) (activeKey a)
                [mkMessage (js "system-init-" ++ decimal (Date_now E k)) text false
                           (Date_now E (S k)) None]
                false (conversationsItems a) (inFlight a) in
        if bool_decide (module.2 = [35746; 21333; 20998; 26512]%N)
        then setMessages orderAnalysisPrompt
        else if bool_decide (module.2 = [20248; 24800; 21048; 31649; 29702]%N)
        then setMessages couponPrompt
        else a
    | None =>
        match info_description with
        | Some description => if truthy description then onSubmit E description a else a
        | None => a
        end
    end.

(** The page with all its handlers. *)
Inductive Event :=
  | Handler (ac : Action)
  | DoPromptsItemClick (info_key : jsstring) (info_description : option jsstring).

Definition handle (E : Env) (a : App) (ev : Event) : App :=
  match ev with
  | Handler ac => act E a ac
  | DoPromptsItemClick info_key info_description =>
      onPromptsItemClick E info_key info_description a
  end.

Definition runEvents (E : Env) (evs : list Event) : App :=
  foldl (handle E) (initialApp E) evs.

End Demo.

(** ** The store under arbitrary callers

    Either module, driven by any sequence of calls of its exported (for the
    demo page: top-level) functions, with the fetches settling in any order.
    [minted] is bookkeeping of the model, not program state: for each
    message the send functions built, the conversation it was built for,
    the prefix of its identifier and the clock reading that follows the
    prefix. *)

Inductive Variant := ApiModule | DemoPage.

Record System := mkSystem {
  sys_state : State;
  pending : list Call;
  minted : list (jsstring * jsstring * Z)
}.

Inductive Op :=
  | Send (message conversationId : jsstring)
  | Settle (i : nat) (o : FetchOutcome)
  | Create
  | Delete (conversationId : jsstring).

(** The prefix of the identifier of the message that answers a fetch. *)
Definition replyPrefix (o : FetchOutcome) : jsstring :=
  match o with
  | FetchResponse status (BodyJson _ _) =>
      if response_ok status then js "system-" else js "system-error-"
  | _ => js "system-error-"
  end.

Definition boot (v : Variant) (E : Env) : System :=
  mkSystem (match v with ApiModule => Api.initial E | DemoPage => Demo.initial E end) [] [].

Definition request (v : Variant) (E : Env) (message conversationId : jsstring) (s : State)
    : Request * Call * State :=
  match v with
  | ApiModule => Api.sendMessage_request E message conversationId s
  | DemoPage => Demo.apiSendMessage_request E message conversationId s
  end.

Definition step (v : Variant) (E : Env) (sys : System) (op : Op) : System :=
  let s := sys_state sys in
  match op with
  | Send message conversationId =>
      if readsInherited conversationId (store s)
      then mkSystem (sendAtInherited E s).2 (pending sys) (minted sys)
      else
        let '(_, c, s1) := request v E message conversationId s in
        mkSystem s1 (pending sys ++ [c])
                 ((conversationId, js "user-", Date_now E (tick s)) :: minted sys)
  | Settle i o =>
      match pending sys !! i with
      | Some c =>
          mkSystem (afterFetch E c o s).2 (delete i (pending sys))
                   ((call_conversationId c, replyPrefix o, Date_now E (tick s))
                    :: minted sys)
      | None => sys
      end
  | Create =>
      mkSystem
        (match v with
         | ApiModule => (Api.createNewConversation E s).2
         | DemoPage => (Demo.createNewConversation E s).2
         end)
        (pending sys) (minted sys)
  | Delete conversationId =>
      match v with
      | ApiModule =>
          mkSystem (mkState (Api.deleteConversation conversationId (store s)).2 (tick s))
                   (pending sys) (minted sys)
      | DemoPage => sys
      end
  end.

Definition exec (v : Variant) (E : Env) (ops : list Op) : System :=
  foldl (step v E) (boot v E) ops.

(** The stored history of a conversation, empty when the store has none for
    the key. *)
Definition history (conversationId : jsstring) (s : State) : list Message :=
  default [] (mockConversations (store s) !! conversationId).

(** ** Answers whose reply is no string

    The send functions store the reply of a 2xx answer as it was parsed
    ([content: data.reply], part_000 81-88), whatever it is.  When it is no
    string (it is absent, [null], a number, ...) the send runs as it does
    for a string: the reply is only returned and stored, and no function of
    the API module reads the content of a stored system message, but
    [getAllConversations].  So the run is that of the same calls with some
    string, here the empty one, for such a reply, together with the marks on
    the stored messages whose content is no string: each mark is the key of
    a conversation and a position in its history. *)

(** A stored message: one that is as [types.ts] declares it, or a system
    message whose content is no string. *)
Inductive Stored :=
  | Typed (m : Message)
  | Untyped (id : jsstring) (timestamp : Z).

(** A call of the API module, or a fetch that settles with a parsed body
    whose [reply] is no string. *)
Inductive Wire :=
  | Plain (op : Op)
  | SettleNoString (i : nat) (status : Z) (data_session_id : option jsstring).

Definition typedOp (w : Wire) : Op :=
  match w with
  | Plain op => op
  | SettleNoString i status data_session_id =>
      Settle i (FetchResponse status (BodyJson [] data_session_id))
  end.

(** The marks after [w]: a reply that is no string is marked where it is
    pushed, at the end of the history of its conversation, when the status
    is a 2xx one and the conversation is in the store; the marks of a key go
    when the key is deleted or set to a new array. *)
Definition mark (E : Env) (sys : System) (marks : list (jsstring * nat)) (w : Wire)
    : list (jsstring * nat) :=
  match w with
  | Plain (Delete conversationId) => filter (λ mk, mk.1 ≠ conversationId) marks
  | Plain Create =>
      filter (λ mk, mk.1 ≠ (Api.createNewConversation E (sys_state sys)).1) marks
  | Plain _ => marks
  | SettleNoString i status _ =>
      match pending sys !! i with
      | Some c =>
          match mockConversations (store (sys_state sys)) !! call_conversationId c with
          | Some l =>
              if response_ok status then (call_conversationId c, length l) :: marks
              else marks
          | None => marks
          end
      | None => marks
      end
  end.

Definition execWire (E : Env) (ws : list Wire) : System * list (jsstring * nat) :=
  foldl (λ run w, (step ApiModule E run.1 (typedOp w), mark E run.1 run.2 w))
        (boot ApiModule E, []) ws.

(** The history [l] of the conversation [conversationId] as it is stored,
    given the marks. *)
Definition storedAs (marks : list (jsstring * nat)) (conversationId : jsstring)
    (l : list Message) : list Stored :=
  imap (λ i m, if bool_decide ((conversationId, i) ∈ marks)
               then Untyped (id m) (timestamp m) else Typed m) l.

Definition entriesAs (marks : list (jsstring * nat))
    (entries : list (jsstring * list Message)) : list (jsstring * list Stored) :=
  (λ e, (e.1, storedAs marks e.1 e.2)) <$> entries.

(** [messages.filter(msg => msg.isUser)] keeps messages that are as
    declared: a message whose content is no string is a system message. *)
Definition typedMessages (l : list Stored) : list Message :=
  omap (λ x, match x with Typed m => Some m | Untyped _ _ => None end) l.

(** The callback of [.map] in [getAllConversations] on the messages as they
    are stored; [None] is a TypeError: that of reading [content] of an
    undefined last message, or that of calling [substring] of a content that
    is no string. *)
Definition summaryOfStored (entry : jsstring * list Stored) : option Conversation.t :=
  let '(id, messages) := entry in
  let title :=
    titleOf (typedMessages messages) (Api.titlePrefix ++ substring_from_end 4 id) in
  match last messages with
  | Some (Typed lastMessage) =>
      Some (Conversation.mk id title
              (substring_to 30 (content lastMessage)
               ++ (if (30 <? length (content lastMessage))%nat then js "..." else []))
              (timestamp lastMessage))
  | Some (Untyped _ _) => None
  | None => None
  end.

Definition getAllConversationsOfStored (entries : list (jsstring * list Stored))
    : option (list Conversation.t) :=
  Array_sort (λ a b, Conversation.timestamp b - Conversation.timestamp a)
    <$> mapM summaryOfStored entries.

(** ** Vocabulary of the statements *)

(** The messages the send functions build, from the clock readings [k] and
    [S k]. *)
Definition userMessageOf (E : Env) (message : jsstring) (k : nat) : Message :=
  mkMessage (js "user-" ++ decimal (Date_now E k)) message true (Date_now E (S k)) None.

Definition systemMessageOf (E : Env) (data_reply : jsstring) (k : nat) : Message :=
  mkMessage (js "system-" ++ decimal (Date_now E k)) data_reply false (Date_now E (S k)) None.

Definition errorMessageOf (E : Env) (k : nat) : Message :=
  mkMessage (js "system-error-" ++ decimal (Date_now E k)) fallbackReply false
            (Date_now E (S k)) None.

(** The result object of a send that fell back. *)
Definition fallbackResponse (cid why : jsstring) : ChatResponse :=
  mkChatResponse fallbackReply error
    (mkMetadata cid None None (Some (js "API_CONNECTION_ERROR")) (Some why)).

(** The transport or the protocol fails, and [why] is the message of the
    error this raises inside the [try] block: the fetch is rejected, the
    status is not a 2xx one, or the body does not parse. *)
Inductive Failure : FetchOutcome → jsstring → Prop :=
  | fetch_rejected why : Failure (FetchRejected why) why
  | status_not_2xx status bd :
      ¬ (200 ≤ status ≤ 299) →
      Failure (FetchResponse status bd) (apiErrorPrefix ++ decimal status)
  | body_unparsable status why :
      200 ≤ status ≤ 299 → Failure (FetchResponse status (BodyMalformed why)) why.

(** A send of either module, from the call to the settling of its promise. *)
Definition send (v : Variant) (E : Env) (message conversationId : jsstring)
    (o : FetchOutcome) (s : State) : Completion * State :=
  match v with
  | ApiModule => Api.sendMessage E message conversationId o s
  | DemoPage => Demo.apiSendMessage E message conversationId o s
  end.

(** A send of either module at any key, from the call to the settling of
    its promise. *)
Definition sendAnyKey (v : Variant) (E : Env) (message conversationId : jsstring)
    (o : FetchOutcome) (s : State) : Completion * State :=
  if readsInherited conversationId (store s) then sendAtInherited E s
  else send v E message conversationId o s.

(** The user messages of a history. *)
Definition userMessages (l : list Message) : list Message :=
  filter (λ m, isUser m = true) l.


(** For [Array.prototype.sort]: [x] may stand in front of [y]. *)
Definition inOrder {A} (compareFn : A → A → Z) (x y : A) : Prop := compareFn x y ≤ 0.

(** The title as the specification words it: the first user message, cut to
    20 characters with an ellipsis when it is longer, else the placeholder. *)
Fixpoint firstUserMessage (messages : list Message) : option Message :=
  match messages with
  | [] => None
  | msg :: rest => if isUser msg then Some msg else firstUserMessage rest
  end.

Definition derivedTitle (messages : list Message) (placeholder : jsstring) : jsstring :=
  match firstUserMessage messages with
  | Some first =>
      if decide (length (content first) ≤ 20)%nat then content first
      else take 20 (content first) ++ js "..."
  | None => placeholder
  end.

(** The text shown for the last message of a conversation: its first 30
    characters, with an ellipsis when it is longer. *)
Definition snippet (text : jsstring) : jsstring :=
  take 30 text ++ (if decide (30 < length text)%nat then js "..." else []).

(** Collapsing the messages of equal identifier onto the first of them, as
    the specification words it; [seen] are the identifiers met so far. *)
Fixpoint keepFirst (seen : list jsstring) (l : list Message) : list Message :=
  match l with
  | [] => []
  | m :: rest =>
      if decide (id m ∈ seen) then keepFirst seen rest
      else m :: keepFirst (seen ++ [id m]) rest
  end.

(** The identifiers the store gives: that of an initial greeting, or one of
    the three prefixes of the send functions followed by a reading of the
    clock. *)
Definition initId (i : jsstring) : Prop := ∃ x : jsstring, i = js "system-init-" ++ x.

Definition stampPrefix (p : jsstring) : Prop :=
  p = js "user-" ∨ p = js "system-" ∨ p = js "system-error-".

(** What one call does to the histories: nothing, one message pushed onto a
    conversation, a conversation set to its greeting, or a conversation
    deleted. *)
Inductive Effect (E : Env) (sys sys' : System) : Prop :=
  | effect_none :
      mockConversations (store (sys_state sys'))
      = mockConversations (store (sys_state sys)) →
      (minted sys' = minted sys ∨ ∃ stamp, minted sys' = stamp :: minted sys) →
      Effect E sys sys'
  | effect_push (conversationId p : jsstring) (m : Message) :
      mockConversations (store (sys_state sys'))
      = <[conversationId := history conversationId (sys_state sys) ++ [m]]>
          (mockConversations (store (sys_state sys))) →
      stampPrefix p →
      id m = p ++ decimal (Date_now E (tick (sys_state sys))) →
      minted sys'
      = (conversationId, p, Date_now E (tick (sys_state sys))) :: minted sys →
      Effect E sys sys'
  | effect_create (newId : jsstring) (m : Message) :
      mockConversations (store (sys_state sys'))
      = <[newId := [m]]> (mockConversations (store (sys_state sys))) →
      initId (id m) →
      minted sys' = minted sys →
      Effect E sys sys'
  | effect_delete (conversationId : jsstring) :
      mockConversations (store (sys_state sys'))
      = delete conversationId (mockConversations (store (sys_state sys))) →
      minted sys' = minted sys →
      Effect E sys sys'.

(** No history in the store is empty. *)
Definition noEmptyHistory (st : Store) : Prop :=
  ∀ (cid : jsstring) (l : list Message), mockConversations st !! cid = Some l → l ≠ [].

(** The identifier of [m], a message of the conversation [cid], is an
    initial one or was recorded. *)
Definition recorded (sys : System) (cid : jsstring) (m : Message) : Prop :=
  initId (id m)
  ∨ ∃ (p : jsstring) (t : Z),
      (cid, p, t) ∈ minted sys ∧ stampPrefix p ∧ id m = p ++ decimal t.

(** The identifiers of each history are pairwise distinct, and each is
    recorded. *)
Definition distinctIds (sys : System) : Prop :=
  ∀ (cid : jsstring) (l : list Message),
    mockConversations (store (sys_state sys)) !! cid = Some l →
    NoDup (id <$> l) ∧ Forall (recorded sys cid) l.

(** On the page, a send is in flight exactly while [isLoading] is set, and
    then there is one. *)
Definition loadingTracksFlight (a : Demo.App) : Prop :=
  length (Demo.inFlight a) = if Demo.isLoading a then 1%nat else 0%nat.

(** ** Two environments to run the code in *)

(** A clock that stands still, as it does within one millisecond. *)
Definition stoppedClock : Env :=
  mkEnv (λ _, 1700000000000) (λ _, 123456) (λ _, js "0b7e2c5a") (js "TypeError").

(** A clock that has moved on at every reading. *)
Definition advancingClock : Env :=
  mkEnv (λ k, 1700000000000 + Z.of_nat k) (λ _, 123456) (λ _, js "0b7e2c5a")
        (js "TypeError").

(** ** Further vocabulary *)

(** The user messages of [l] whose content is [message]. *)
Definition sameText (message : jsstring) (l : list Message) : list Message :=
  filter (λ m, isUser m = true ∧ content m = message) l.

(** The duplicate of the specification, with the clock as the send reads
    it: the history [l] holds a user message of content [message] that was
    recorded less than 5000 ms before the clock is read for it.  The clock is
    read once for each user message of that content, in the order of the
    history, the first reading being the [k]-th of the run. *)
Definition recentDuplicate (E : Env) (message : jsstring) (l : list Message) (k : nat)
    : Prop :=
  ∃ (i : nat) (msg : Message),
    l !! i = Some msg ∧ isUser msg = true ∧ content msg = message
    ∧ Date_now E (k + length (sameText message (take i l))) - timestamp msg < 5000.

(** The session identifier an answer makes the send adopt: that of a parsed
    2xx answer, when it carries one that is not empty. *)
Definition returnedSession (o : FetchOutcome) : option jsstring :=
  match o with
  | FetchResponse status (BodyJson _ (Some sid)) =>
      if response_ok status && truthy sid then Some sid else None
  | _ => None
  end.

(** Every message of every stored history satisfies [P]. *)
Definition storeAll (P : Message → Prop) (st : Store) : Prop :=
  ∀ (cid : jsstring) (l : list Message), mockConversations st !! cid = Some l → Forall P l.

(** A stored message as the two modules build them: without the [loading]
    flag, and a user message exactly when its identifier is [user-] followed
    by a number. *)
Definition wellFormed (m : Message) : Prop :=
  loading m = None ∧ (isUser m = true ↔ ∃ t : Z, id m = js "user-" ++ decimal t).

(** A history in the order of its timestamps. *)
Definition chronological (l : list Message) : Prop :=
  Sorted (λ a b, timestamp a ≤ timestamp b) l.

(** The clock never goes back; the clock has moved on at every reading. *)
Definition monotoneClock (E : Env) : Prop :=
  ∀ i j : nat, (i ≤ j)%nat → Date_now E i ≤ Date_now E j.

Definition strictClock (E : Env) : Prop :=
  ∀ i j : nat, (i < j)%nat → Date_now E i < Date_now E j.

(** Every history is chronological, and no stored timestamp is ahead of the
    clock. *)
Definition chronologicalStore (E : Env) (s : State) : Prop :=
  ∀ (cid : jsstring) (l : list Message),
    mockConversations (store s) !! cid = Some l →
    chronological l
    ∧ Forall (λ m, ∃ j : nat, (j < tick s)%nat ∧ timestamp m ≤ Date_now E j) l.

(** The calls that only add messages: a send, a fetch that settles. *)
Definition isMessaging (op : Op) : bool :=
  match op with
  | Send _ _ | Settle _ _ => true
  | Create | Delete _ => false
  end.

(** A text [trim] leaves nothing of. *)
Definition blank (text : jsstring) : Prop := Forall (λ c, isWhiteSpace c = true) text.

(** The messages shown as a reply being awaited. *)
Definition placeholders (l : list Message) : list Message :=
  filter (λ m, loading m = Some true) l.

(** The messages the two modules store, built from the clock readings [k]
    and [S k]: a user message, a reply, a fallback, a greeting. *)
Inductive builtAt (E : Env) (k : nat) : Message → Prop :=
  | built_user (text : jsstring) : builtAt E k (userMessageOf E text k)
  | built_system (text : jsstring) : builtAt E k (systemMessageOf E text k)
  | built_error : builtAt E k (errorMessageOf E k)
  | built_greeting (x text : jsstring) :
      builtAt E k (mkMessage (js "system-init-" ++ x) text false (Date_now E (S k)) None).

(** What a call does to the histories and to the count of the clock
    readings: nothing, a message built now pushed onto a conversation, a
    conversation set to a message built now, or a conversation deleted. *)
Inductive Change (E : Env) (s s' : State) : Prop :=
  | change_none :
      mockConversations (store s') = mockConversations (store s) →
      (tick s ≤ tick s')%nat →
      Change E s s'
  | change_push (conversationId : jsstring) (m : Message) :
      mockConversations (store s')
      = <[conversationId := history conversationId s ++ [m]]> (mockConversations (store s)) →
      builtAt E (tick s) m →
      (S (tick s) < tick s')%nat →
      Change E s s'
  | change_create (newId : jsstring) (m : Message) :
      mockConversations (store s') = <[newId := [m]]> (mockConversations (store s)) →
      builtAt E (tick s) m →
      (S (tick s) < tick s')%nat →
      Change E s s'
  | change_delete (conversationId : jsstring) :
      mockConversations (store s') = delete conversationId (mockConversations (store s)) →
      (tick s ≤ tick s')%nat →
      Change E s s'.

(** Every placeholder the page shows is that of the one submission in
    flight. *)
Definition placeholderOfFlight (a : Demo.App) : Prop :=
  ∀ m : Message, m ∈ Demo.messages a → loading m = Some true →
    ∃ p : Demo.Submit, Demo.inFlight a = [p] ∧ id m = Demo.loadingMessageId p.

(** The conversation of every submission in flight is the one its send was
    made for, and is in the store. *)
Definition flightsStored (a : Demo.App) : Prop :=
  ∀ p : Demo.Submit, p ∈ Demo.inFlight a →
    call_conversationId (Demo.submit_call p) = Demo.submit_activeKey p
    ∧ is_Some (mockConversations (store (Demo.state a)) !! Demo.submit_activeKey p).

(** What holds of the page whatever its handlers have done. *)
Record pageInvariant (a : Demo.App) : Prop := mkPageInvariant {
  page_flight : loadingTracksFlight a;
  page_store : storeAll (λ m, loading m = None) (store (Demo.state a));
  page_placeholders : placeholderOfFlight a;
  page_one_placeholder : (length (placeholders (Demo.messages a)) ≤ 1)%nat;
  page_flights_stored : flightsStored a
}.

(** * Properties *)

Implicit Types (E : Env) (v : Variant) (s : State) (st : Store) (sys : System).
Implicit Types (cid message text sid : jsstring) (k : nat) (z : Z).
Implicit Types (m msg : Message) (l : list Message) (o : FetchOutcome) (c : Call).
Implicit Types (convs : gmap jsstring (list Message)) (sessions : gmap jsstring jsstring).

(** ** Strings *)

Lemma js_inj (s t : string) : js s = js t → s = t.
Proof.
  revert t. induction s as [|a s IH]; intros [|b t]; simpl; try done.
  intros [= Hab Hst]. f_equal; [| by apply IH].
  rewrite <- (ascii_N_embedding a), <- (ascii_N_embedding b). by rewrite Hab.
Qed.

Lemma to_int_nonnil z : Z.to_int z ≠ Decimal.Pos Decimal.Nil ∧ Z.to_int z ≠ Decimal.Neg Decimal.Nil.
Proof.
  destruct z as [|p|p]; simpl; split; try done;
    intros [= H]; by apply DecimalPos.Unsigned.to_uint_nonnil in H.
Qed.

Lemma decimal_inj a b : decimal a = decimal b → a = b.
Proof.
  unfold decimal. intros H%js_inj. apply DecimalZ.to_int_inj.
  destruct (to_int_nonnil a) as [Ha1 Ha2], (to_int_nonnil b) as [Hb1 Hb2].
  assert (Hs : Some (Z.to_int a) = Some (Z.to_int b))
    by (rewrite <- (NilZero.isi _ Ha1 Ha2), <- (NilZero.isi _ Hb1 Hb2); by rewrite H).
  congruence.
Qed.

(** A rendered number starts with a digit or with the minus sign. *)
Lemma decimal_head z :
  ∃ (u : N) (rest : jsstring), decimal z = u :: rest ∧ (u = 45 ∨ 48 ≤ u ≤ 57)%N.
Proof.
  unfold decimal. destruct (Z.to_int z) as [u|u]; simpl.
  - destruct u; simpl; eexists _, _; (split; [reflexivity|]); right; lia.
  - eexists _, _; split; [reflexivity|]. by left.
Qed.

Arguments js : simpl never.
Arguments decimal : simpl never.

(** ** The store operations *)

Lemma read_own (cid : jsstring) convs l :
  convs !! cid = Some l → read cid convs = Some (Array l).
Proof. intros Hl. unfold read. by rewrite Hl. Qed.

Lemma readsInherited_stored (cid : jsstring) st :
  is_Some (mockConversations st !! cid) → readsInherited cid st = false.
Proof. intros [l Hl]. unfold readsInherited. by rewrite (read_own _ _ _ Hl). Qed.

Lemma readsInherited_history (cid : jsstring) s (m : Message) l1 l2 :
  history cid s = l1 ++ m :: l2 → readsInherited cid (store s) = false.
Proof.
  intros Hh. apply readsInherited_stored. revert Hh. unfold history.
  destruct (mockConversations (store s) !! cid) as [l|]; [by eexists|].
  simpl. intros Hnil. by destruct l1.
Qed.

Lemma push_ensure (cid : jsstring) (m : Message) (convs : gmap jsstring (list Message)) :
  push cid m (ensureConversation cid convs)
  = Some (<[cid := default [] (convs !! cid) ++ [m]]> convs).
Proof.
  unfold push, ensureConversation. destruct (convs !! cid) as [l|] eqn:Hl.
  - by rewrite Hl.
  - rewrite lookup_insert_eq. simpl. by rewrite insert_insert_eq.
Qed.

Lemma ensure_lookup (cid : jsstring) (convs : gmap jsstring (list Message)) :
  ensureConversation cid convs !! cid = Some (default [] (convs !! cid)).
Proof.
  unfold ensureConversation. destruct (convs !! cid) as [l|] eqn:Hl.
  - by rewrite Hl.
  - by rewrite lookup_insert_eq.
Qed.

(** Whatever the binding was, [resolveSession] leaves the conversation bound
    to the identifier it returns, and that identifier is not empty. *)
Lemma resolveSession_spec E (cid : jsstring) (sessions : gmap jsstring jsstring) k :
  ∃ sid k', resolveSession E cid sessions k = (sid, <[cid := sid]> sessions, k')
            ∧ truthy sid = true ∧ (k ≤ k')%nat.
Proof.
  unfold resolveSession. destruct (sessions !! cid) as [s|] eqn:Hs.
  - destruct (truthy s) eqn:Ht.
    + exists s, k. by rewrite insert_id.
    + eexists _, _. split; [reflexivity|]. split; [done | lia].
  - eexists _, _. split; [reflexivity|]. split; [done | lia].
Qed.

Lemma resolveSession_bound E (cid : jsstring) (sessions : gmap jsstring jsstring) k sid :
  sessions !! cid = Some sid → truthy sid = true →
  resolveSession E cid sessions k = (sid, sessions, k).
Proof. intros Hs Ht. unfold resolveSession. by rewrite Hs, Ht. Qed.


(** The shape of the state the API module's send leaves at its [await]. *)
Lemma Api_request_spec E (message cid : jsstring) (s : State) :
  ∃ req sid k',
    Api.sendMessage_request E message cid s
    = (req, mkCall message cid sid,
       mkState
         (mkStore
            (<[cid := history cid s ++ [userMessageOf E message (tick s)]]>
               (mockConversations (store s)))
            (<[cid := sid]> (sessionIdMap (store s))))
         k')
    ∧ field (js "session_id") (body req) = Some sid
    ∧ (resolveSession E cid (sessionIdMap (store s)) (S (S (tick s)))).1.1 = sid
    ∧ truthy sid = true ∧ (tick s < k')%nat.
Proof.
  unfold Api.sendMessage_request.
  destruct (resolveSession_spec E cid (sessionIdMap (store s)) (S (S (tick s))))
    as (sid & k' & -> & Ht & Hk).
  rewrite push_ensure. simpl.
  eexists _, sid, _. split; [reflexivity|]. repeat split; try done. lia.
Qed.

Lemma hasDuplicateMessage_tick E (message : jsstring) (l : list Message) (k : nat) :
  (k ≤ (Demo.hasDuplicateMessage E message l k).2)%nat.
Proof.
  revert k. induction l as [|msg l IH]; intros k; simpl; [lia|].
  destruct (isUser msg && bool_decide (content msg = message)).
  - destruct (Date_now E k - timestamp msg <? 5000); simpl; [lia|].
    specialize (IH (S k)). lia.
  - apply IH.
Qed.

(** The same for the demo page, where the user message is pushed unless the
    guard finds a duplicate. *)
Lemma Demo_request_spec E (message cid : jsstring) (s : State) :
  ∃ req sid k',
    Demo.apiSendMessage_request E message cid s
    = (req, mkCall message cid sid,
       mkState
         (mkStore
            (<[cid := history cid s
                      ++ (if (Demo.hasDuplicateMessage E message (history cid s)
                                (S (S (tick s)))).1
                          then [] else [userMessageOf E message (tick s)])]>
               (mockConversations (store s)))
            (<[cid := sid]> (sessionIdMap (store s))))
         k')
    ∧ field (js "session_id") (body req) = Some sid
    ∧ truthy sid = true
    ∧ ((Demo.hasDuplicateMessage E message (history cid s) (S (S (tick s)))).2 < k')%nat.
Proof.
  unfold Demo.apiSendMessage_request.
  rewrite ensure_lookup.
  change (default [] (Some (default [] (mockConversations (store s) !! cid))))
    with (history cid s).
  pose proof (hasDuplicateMessage_tick E message (history cid s) (S (S (tick s)))) as Hm.
  destruct (Demo.hasDuplicateMessage E message (history cid s) (S (S (tick s))))
    as [dup k1] eqn:Hdup.
  lazy beta iota zeta.
  destruct (resolveSession_spec E cid (sessionIdMap (store s)) k1)
    as (sid & k' & -> & Ht & Hk).
  assert (Hconvs :
    (if dup then ensureConversation cid (mockConversations (store s))
     else default (ensureConversation cid (mockConversations (store s)))
            (push cid (mkMessage (js "user-" ++ decimal (Date_now E (tick s))) message
                         true (Date_now E (S (tick s))) None)
               (ensureConversation cid (mockConversations (store s)))))
    = <[cid := history cid s
               ++ (if dup then [] else [userMessageOf E message (tick s)])]>
        (mockConversations (store s))).
  { destruct dup.
    - rewrite app_nil_r. unfold ensureConversation, history.
      destruct (mockConversations (store s) !! cid) eqn:Hl; simpl; [|done].
      by rewrite insert_id.
    - by rewrite push_ensure. }
  rewrite Hconvs. simpl.
  eexists _, sid, _. split; [reflexivity|]. split; [reflexivity|]. split; [done|]. lia.
Qed.

(** ** The send settles *)

Lemma response_ok_spec status : response_ok status = true ↔ 200 ≤ status ≤ 299.
Proof. unfold response_ok. rewrite andb_true_iff, !Z.leb_le. tauto. Qed.

Lemma onError_present E c (why : jsstring) s l :
  mockConversations (store s) !! call_conversationId c = Some l →
  onError E c why s
  = (Resolved
       (mkChatResponse fallbackReply error
          (mkMetadata (call_conversationId c) None None
             (Some (js "API_CONNECTION_ERROR")) (Some why))),
     mkState
       (mkStore
          (<[call_conversationId c := l ++ [errorMessageOf E (tick s)]]>
             (mockConversations (store s)))
          (sessionIdMap (store s)))
       (S (S (tick s)))).
Proof. intros Hl. unfold onError, push. by rewrite Hl. Qed.

Lemma onError_absent E c (why : jsstring) s :
  mockConversations (store s) !! call_conversationId c = None →
  onError E c why s = (Raised (undefined_push E), mkState (store s) (S (S (tick s)))).
Proof. intros Hl. unfold onError, push. by rewrite Hl. Qed.

Lemma afterFetch_failure E c o s (why : jsstring) :
  Failure o why → afterFetch E c o s = onError E c why s.
Proof.
  intros [why'|status bd Hst|status why' Hst]; simpl; [done| |].
  - destruct (response_ok status) eqn:Hok; [|done].
    by apply response_ok_spec in Hok.
  - apply response_ok_spec in Hst. by rewrite Hst.
Qed.

Lemma afterFetch_success E c s l status (data_reply : jsstring)
    (data_session_id : option jsstring) :
  200 ≤ status ≤ 299 →
  mockConversations (store s) !! call_conversationId c = Some l →
  afterFetch E c (FetchResponse status (BodyJson data_reply data_session_id)) s
  = (Resolved
       (mkChatResponse data_reply success
          (mkMetadata (call_conversationId c) data_session_id
             (Some (js "system-" ++ decimal (Date_now E (tick s)))) None None)),
     mkState
       (mkStore
          (<[call_conversationId c := l ++ [systemMessageOf E data_reply (tick s)]]>
             (mockConversations (store s)))
          (updateSession c data_session_id (sessionIdMap (store s))))
       (S (S (tick s)))).
Proof.
  intros Hst%response_ok_spec Hl. unfold afterFetch, push. by rewrite Hst, Hl.
Qed.

(** Every outcome of the fetch is a failure or a parsed 2xx response. *)
Lemma outcome_cases o :
  (∃ why : jsstring, Failure o why)
  ∨ (∃ status (data_reply : jsstring) (data_session_id : option jsstring),
       200 ≤ status ≤ 299
       ∧ o = FetchResponse status (BodyJson data_reply data_session_id)).
Proof.
  destruct o as [why|status bd].
  - left. eexists. constructor.
  - destruct (decide (200 ≤ status ≤ 299)) as [Hst|Hst].
    + destruct bd as [why|r sid'].
      * left. eexists. by constructor.
      * right. by eexists _, _, _.
    + left. eexists. by constructor.
Qed.

(** With the conversation in the store, the promise resolves and the
    history grows by one message, which is not a user message. *)
Lemma afterFetch_present E c o s l :
  mockConversations (store s) !! call_conversationId c = Some l →
  ∃ r (reply_message : Message) (sessions' : gmap jsstring jsstring),
    afterFetch E c o s
    = (Resolved r,
       mkState
         (mkStore (<[call_conversationId c := l ++ [reply_message]]>
                     (mockConversations (store s)))
                  sessions')
         (S (S (tick s))))
    ∧ isUser reply_message = false
    ∧ content reply_message = reply r
    ∧ (reply_message = systemMessageOf E (reply r) (tick s) ∧ status r = success
       ∨ reply_message = errorMessageOf E (tick s) ∧ status r = error).
Proof.
  intros Hl. destruct (outcome_cases o) as [[why Hf]|(status & r & sid' & Hst & ->)].
  - rewrite (afterFetch_failure _ _ _ _ _ Hf), (onError_present _ _ _ _ _ Hl).
    eexists _, _, _. split; [reflexivity|]. repeat split. by right.
  - rewrite (afterFetch_success _ _ _ _ _ _ _ Hst Hl).
    eexists _, _, _. split; [reflexivity|]. repeat split. by left.
Qed.

(** ** One send, start to finish *)

Lemma Api_sendMessage_spec E message cid o s :
  ∃ r (reply_message : Message) s',
    Api.sendMessage E message cid o s = (Resolved r, s')
    ∧ history cid s' = history cid s ++ [userMessageOf E message (tick s); reply_message]
    ∧ (∀ cid' : jsstring, cid' ≠ cid →
         mockConversations (store s') !! cid' = mockConversations (store s) !! cid')
    ∧ isUser reply_message = false
    ∧ content reply_message = reply r
    ∧ ((∃ k, reply_message = systemMessageOf E (reply r) k) ∧ status r = success
       ∨ (∃ k, reply_message = errorMessageOf E k) ∧ status r = error).
Proof.
  unfold Api.sendMessage.
  destruct (Api_request_spec E message cid s) as (req & sid & k' & -> & _ & _ & _ & _).
  edestruct (afterFetch_present E (mkCall message cid sid) o) as
    (r & rm & sessions' & -> & Hu & Hc & Hk).
  { simpl. apply lookup_insert_eq. }
  simpl. eexists r, rm, _. split; [reflexivity|]. split; [|split; [|split; [|split]]].
  - unfold history at 1. simpl. rewrite lookup_insert_eq. simpl.
    by rewrite <- app_assoc.
  - intros cid' Hne. simpl. by rewrite !lookup_insert_ne.
  - done.
  - done.
  - destruct Hk as [[-> ?]|[-> ?]]; [left|right]; eauto.
Qed.

Lemma Demo_apiSendMessage_spec E message cid o s :
  ∃ r (reply_message : Message) s',
    Demo.apiSendMessage E message cid o s = (Resolved r, s')
    ∧ history cid s'
      = history cid s
        ++ (if (Demo.hasDuplicateMessage E message (history cid s) (S (S (tick s)))).1
            then [] else [userMessageOf E message (tick s)])
        ++ [reply_message]
    ∧ (∀ cid' : jsstring, cid' ≠ cid →
         mockConversations (store s') !! cid' = mockConversations (store s) !! cid')
    ∧ isUser reply_message = false
    ∧ content reply_message = reply r
    ∧ ((∃ k, reply_message = systemMessageOf E (reply r) k) ∧ status r = success
       ∨ (∃ k, reply_message = errorMessageOf E k) ∧ status r = error).
Proof.
  unfold Demo.apiSendMessage.
  destruct (Demo_request_spec E message cid s) as (req & sid & k' & -> & _ & _ & _).
  edestruct (afterFetch_present E (mkCall message cid sid) o) as
    (r & rm & sessions' & -> & Hu & Hc & Hk).
  { simpl. apply lookup_insert_eq. }
  simpl. eexists r, rm, _. split; [reflexivity|]. split; [|split; [|split; [|split]]].
  - unfold history at 1. simpl. rewrite lookup_insert_eq. simpl.
    by rewrite <- app_assoc.
  - intros cid' Hne. simpl. by rewrite !lookup_insert_ne.
  - done.
  - done.
  - destruct Hk as [[-> ?]|[-> ?]]; [left|right]; eauto.
Qed.

(** What the guard of the demo page finds. *)
Lemma hasDuplicateMessage_true E message l k :
  (Demo.hasDuplicateMessage E message l k).1 = true →
  ∃ msg k', msg ∈ l ∧ isUser msg = true ∧ content msg = message
            ∧ (k ≤ k')%nat ∧ Date_now E k' - timestamp msg < 5000.
Proof.
  revert k. induction l as [|msg l IH]; intros k; simpl; [done|].
  destruct (isUser msg && bool_decide (content msg = message)) eqn:Hm.
  - apply andb_true_iff in Hm as [Hu Hc%bool_decide_eq_true].
    destruct (Date_now E k - timestamp msg <? 5000) eqn:Hlt.
    + intros _. exists msg, k. apply Z.ltb_lt in Hlt.
      repeat split; [by left|done..].
    + intros (m' & k' & Hin & ? & ? & ? & ?)%IH.
      exists m', k'. repeat split; [by right|done|done|lia|done].
  - intros (m' & k' & Hin & ? & ? & ? & ?)%IH.
    exists m', k'. repeat split; [by right|done..].
Qed.


(** ** Claims about a single send *)

(** The guard of the page fires exactly on a recent duplicate. *)
Lemma sameText_cons message (m0 : Message) l :
  sameText message (m0 :: l)
  = if isUser m0 && bool_decide (content m0 = message)
    then m0 :: sameText message l else sameText message l.
Proof.
  unfold sameText. rewrite filter_cons.
  destruct (decide (isUser m0 = true ∧ content m0 = message)) as [[Hu Hc]|Hno].
  - by rewrite Hu, bool_decide_eq_true_2.
  - destruct (isUser m0); [|done]. simpl.
    rewrite bool_decide_eq_false_2; [done|]. intros Hc. by destruct Hno.
Qed.

Lemma hasDuplicateMessage_spec E message l k :
  (Demo.hasDuplicateMessage E message l k).1 = true ↔ recentDuplicate E message l k.
Proof.
  revert k. induction l as [|m0 l IH]; intros k.
  { split; [done|]. by intros (i & msg & Hi & _). }
  assert (Hnext : ∀ k0 : nat,
            recentDuplicate E message l k0
            ↔ ∃ (i : nat) (msg : Message),
                (m0 :: l) !! S i = Some msg ∧ isUser msg = true ∧ content msg = message
                ∧ Date_now E (k0 + length (sameText message (take i l))) - timestamp msg
                  < 5000) by done.
  assert (Hhead : recentDuplicate E message (m0 :: l) k
            ↔ (isUser m0 = true ∧ content m0 = message
               ∧ Date_now E k - timestamp m0 < 5000)
              ∨ ∃ (i : nat) (msg : Message),
                  l !! i = Some msg ∧ isUser msg = true ∧ content msg = message
                  ∧ Date_now E (k + length (sameText message (m0 :: take i l)))
                    - timestamp msg < 5000).
  { split.
    - intros ([|i] & msg & Hi & Hum & Hcm & Hnow).
      + left. simpl in Hi, Hnow. injection Hi as <-. by rewrite Nat.add_0_r in Hnow.
      + right. by exists i, msg.
    - intros [(Hu & Hc & Hnow)|(i & msg & Hi & Hum & Hcm & Hnow)].
      + exists 0%nat, m0. simpl. by rewrite Nat.add_0_r.
      + by exists (S i), msg. }
  rewrite Hhead. simpl.
  destruct (isUser m0 && bool_decide (content m0 = message)) eqn:Hm0.
  - pose proof Hm0 as Hm0'.
    apply andb_true_iff in Hm0' as [Hu Hc%bool_decide_eq_true].
    destruct (Date_now E k - timestamp m0 <? 5000) eqn:Hlt.
    + apply Z.ltb_lt in Hlt. split; [intros _|done]. by left.
    + apply Z.ltb_ge in Hlt. rewrite IH. split.
      * intros (i & msg & Hi & Hum & Hcm & Hnow). right. exists i, msg.
        split; [done|]. split; [done|]. split; [done|].
        rewrite sameText_cons, Hm0. simpl. by rewrite Nat.add_succ_r.
      * intros [(_ & _ & Hnow)|(i & msg & Hi & Hum & Hcm & Hnow)]; [lia|].
        exists i, msg. split; [done|]. split; [done|]. split; [done|].
        rewrite sameText_cons, Hm0 in Hnow. simpl in Hnow.
        by rewrite Nat.add_succ_r in Hnow.
  - assert (Hno : ¬ (isUser m0 = true ∧ content m0 = message)).
    { intros [Hu Hc]. rewrite Hu in Hm0. simpl in Hm0.
      by apply bool_decide_eq_false in Hm0. }
    rewrite IH. split.
    + intros (i & msg & Hi & Hum & Hcm & Hnow). right. exists i, msg.
      split; [done|]. split; [done|]. split; [done|].
      by rewrite sameText_cons, Hm0.
    + intros [(Hu & Hc & _)|(i & msg & Hi & Hum & Hcm & Hnow)]; [by destruct Hno|].
      exists i, msg. split; [done|]. split; [done|]. split; [done|].
      by rewrite sameText_cons, Hm0 in Hnow.
Qed.



(** The code after the [await], the conversation not being in the store:
    the push of the [try] block or of the [catch] block raises, that of the
    [catch] block out of the function. *)
Lemma afterFetch_absent E c o s :
  mockConversations (store s) !! call_conversationId c = None →
  ∃ (sessions' : gmap jsstring jsstring) (k' : nat),
    afterFetch E c o s
    = (Raised (undefined_push E),
       mkState (mkStore (mockConversations (store s)) sessions') k').
Proof.
  intros Hl. destruct (outcome_cases o) as [[why Hf]|(status & r & sid' & Hst & ->)].
  - rewrite (afterFetch_failure _ _ _ _ _ Hf), (onError_absent _ _ _ _ Hl).
    exists (sessionIdMap (store s)), (S (S (tick s))). by destruct s as [[convs sessions] k].
  - apply response_ok_spec in Hst. unfold afterFetch, push. rewrite Hst, Hl.
    cbn [negb option_map]. rewrite onError_absent by done. by eexists _, _.
Qed.

Lemma sendAnyKey_stored v E message cid o s :
  readsInherited cid (store s) = false →
  sendAnyKey v E message cid o s = send v E message cid o s.
Proof. intros Hr. unfold sendAnyKey. by rewrite Hr. Qed.





(** ** The duplicate guard *)

Lemma userMessages_app l1 l2 : userMessages (l1 ++ l2) = userMessages l1 ++ userMessages l2.
Proof. apply filter_app. Qed.

Lemma userMessages_reply m : isUser m = false → userMessages [m] = [].
Proof.
  intros Hm. unfold userMessages. rewrite filter_cons, filter_nil.
  case_decide; [congruence | done].
Qed.

(** C3 (as stated, on the API module): ["hi"] sent twice to the conversation
    ["1"] through [sendMessage], within one millisecond, is stored twice. *)
Lemma sendMessage_twice_stores_two_user_messages :
  let E := stoppedClock in
  let s := Api.initial E in
  let s1 := (Api.sendMessage E (js "hi") (js "1") (FetchRejected []) s).2 in
  let s2 := (Api.sendMessage E (js "hi") (js "1") (FetchRejected []) s1).2 in
  userMessages (history (js "1") s) = []
  ∧ userMessages (history (js "1") s2)
    = [mkMessage (js "user-1700000000000") (js "hi") true 1700000000000 None;
       mkMessage (js "user-1700000000000") (js "hi") true 1700000000000 None].
Proof. by vm_compute. Qed.

(** C3 (amended).  A send through [apiSendMessage], at a key that does not
    read a member of [Object.prototype], stores no user message when the
    history holds a recent duplicate (a user message of the same content
    whose timestamp is less than 5000 ms before the reading of the clock the
    guard takes for it), and stores its user message otherwise; however long
    the reply takes.  So of two consecutive sends of the same text, the one
    reading of the clock by which the guard of the second judges the user
    message of the first being less than 5000 ms past its timestamp: the two
    leave at most one user message more; and when the first stored its user
    message, the second stores none, and the history is longer by that one
    user message and the two replies.  Through [sendMessage] of the API
    module, which has no such guard, each of the two sends stores its user
    message. *)
Theorem apiSendMessage_twice_stores_one_user_message E text cid o1 o2 s :
  let s1 := (sendAnyKey DemoPage E text cid o1 s).2 in
  let s2 := (sendAnyKey DemoPage E text cid o2 s1).2 in
  readsInherited cid (store s) = false →
  Date_now E (S (S (tick s1)) + length (sameText text (history cid s)))
  - Date_now E (S (tick s)) < 5000 →
  (∀ o s', readsInherited cid (store s') = false →
     (recentDuplicate E text (history cid s') (S (S (tick s'))) →
      userMessages (history cid (sendAnyKey DemoPage E text cid o s').2)
      = userMessages (history cid s'))
     ∧ (¬ recentDuplicate E text (history cid s') (S (S (tick s'))) →
        userMessages (history cid (sendAnyKey DemoPage E text cid o s').2)
        = userMessages (history cid s') ++ [userMessageOf E text (tick s')]))
  ∧ (length (userMessages (history cid s2)) ≤ S (length (userMessages (history cid s))))%nat
  ∧ (¬ recentDuplicate E text (history cid s) (S (S (tick s))) →
     recentDuplicate E text (history cid s1) (S (S (tick s1)))
     ∧ ∃ reply1 reply2 : Message,
         history cid s2 = history cid s ++ [userMessageOf E text (tick s); reply1; reply2]
         ∧ isUser reply1 = false ∧ isUser reply2 = false
         ∧ userMessages (history cid s2)
           = userMessages (history cid s) ++ [userMessageOf E text (tick s)])
  ∧ (∃ reply1 reply2 : Message,
       history cid
         (sendAnyKey ApiModule E text cid o2 (sendAnyKey ApiModule E text cid o1 s).2).2
       = history cid s
         ++ [userMessageOf E text (tick s); reply1;
             userMessageOf E text (tick (sendAnyKey ApiModule E text cid o1 s).2); reply2]
       ∧ isUser reply1 = false ∧ isUser reply2 = false).
Proof.
  intros s1 s2 Hkey Hnow.
  assert (Hgen : ∀ o s', readsInherited cid (store s') = false →
     ∃ rm : Message,
       isUser rm = false
       ∧ (recentDuplicate E text (history cid s') (S (S (tick s'))) →
          history cid (sendAnyKey DemoPage E text cid o s').2 = history cid s' ++ [rm])
       ∧ (¬ recentDuplicate E text (history cid s') (S (S (tick s'))) →
          history cid (sendAnyKey DemoPage E text cid o s').2
          = history cid s' ++ [userMessageOf E text (tick s'); rm])).
  { intros o s' Hkey'. rewrite (sendAnyKey_stored _ _ _ _ _ _ Hkey'). simpl.
    destruct (Demo_apiSendMessage_spec E text cid o s')
      as (r & rm & s'' & -> & Hh & _ & Hu & _).
    exists rm. split; [done|]. simpl. rewrite Hh.
    destruct (Demo.hasDuplicateMessage E text (history cid s') (S (S (tick s')))).1 eqn:Hd.
    - apply hasDuplicateMessage_spec in Hd. split; [done|]. intros Hn. by destruct Hn.
    - split; [|done]. intros Hr%hasDuplicateMessage_spec. congruence. }
  assert (Hkey1 : readsInherited cid (store s1) = false).
  { unfold s1. rewrite (sendAnyKey_stored _ _ _ _ _ _ Hkey). simpl.
    destruct (Demo_apiSendMessage_spec E text cid o1 s)
      as (r & rm & s'' & Heq & Hh & _). rewrite Heq. simpl.
    rewrite app_assoc in Hh. by apply readsInherited_history in Hh. }
  destruct (Hgen o1 s Hkey) as (m1 & Hu1 & Hdup1 & Hnew1).
  destruct (Hgen o2 s1 Hkey1) as (m2 & Hu2 & Hdup2 & Hnew2).
  fold s1 in Hdup1, Hnew1. fold s2 in Hdup2, Hnew2.
  assert (Hlater : ¬ recentDuplicate E text (history cid s) (S (S (tick s))) →
                   recentDuplicate E text (history cid s1) (S (S (tick s1)))).
  { intros Hno. exists (length (history cid s)), (userMessageOf E text (tick s)).
    rewrite (Hnew1 Hno). split; [by rewrite list_lookup_middle|].
    split; [done|]. split; [done|]. by rewrite take_app_length. }
  split; [|split; [|split]].
  - intros o s' Hkey'. destruct (Hgen o s' Hkey') as (rm & Hu & Hd & Hn). split.
    + intros Hr. by rewrite (Hd Hr), userMessages_app, (userMessages_reply _ Hu), app_nil_r.
    + intros Hr. rewrite (Hn Hr), userMessages_app. f_equal.
      change [userMessageOf E text (tick s'); rm] with ([userMessageOf E text (tick s')] ++ [rm]).
      by rewrite userMessages_app, (userMessages_reply _ Hu), app_nil_r.
  - assert (Hstep : ∀ o s', readsInherited cid (store s') = false →
              (length (userMessages (history cid (sendAnyKey DemoPage E text cid o s').2))
               ≤ S (length (userMessages (history cid s'))))%nat).
    { intros o s' Hkey'. destruct (Hgen o s' Hkey') as (rm & Hu & Hd & Hn).
      destruct (Demo.hasDuplicateMessage E text (history cid s') (S (S (tick s')))).1 eqn:Hg.
      - apply hasDuplicateMessage_spec in Hg.
        rewrite (Hd Hg), userMessages_app, (userMessages_reply _ Hu), app_nil_r. lia.
      - assert (Hr : ¬ recentDuplicate E text (history cid s') (S (S (tick s'))))
          by (intros Hr%hasDuplicateMessage_spec; congruence).
        rewrite (Hn Hr), userMessages_app, length_app.
        change [userMessageOf E text (tick s'); rm]
          with ([userMessageOf E text (tick s')] ++ [rm]).
        rewrite userMessages_app, (userMessages_reply _ Hu), app_nil_r. simpl. lia. }
    destruct (Demo.hasDuplicateMessage E text (history cid s) (S (S (tick s)))).1 eqn:Hg.
    + apply hasDuplicateMessage_spec in Hg.
      specialize (Hstep o2 s1 Hkey1). fold s2 in Hstep.
      rewrite (Hdup1 Hg), userMessages_app, (userMessages_reply _ Hu1), app_nil_r in Hstep.
      done.
    + assert (Hr : ¬ recentDuplicate E text (history cid s) (S (S (tick s))))
        by (intros Hr%hasDuplicateMessage_spec; congruence).
      rewrite (Hdup2 (Hlater Hr)), (Hnew1 Hr), !userMessages_app,
        (userMessages_reply _ Hu2), app_nil_r, length_app.
      change [userMessageOf E text (tick s); m1] with ([userMessageOf E text (tick s)] ++ [m1]).
      rewrite userMessages_app, (userMessages_reply _ Hu1), app_nil_r. simpl. lia.
  - intros Hr. split; [by apply Hlater|]. exists m1, m2.
    rewrite (Hdup2 (Hlater Hr)), (Hnew1 Hr), <- app_assoc. split; [done|].
    split; [done|]. split; [done|].
    change (history cid s ++ [userMessageOf E text (tick s); m1] ++ [m2])
      with (history cid s ++ [userMessageOf E text (tick s)] ++ [m1] ++ [m2]).
    by rewrite !userMessages_app, (userMessages_reply _ Hu1), (userMessages_reply _ Hu2),
      !app_nil_r.
  - rewrite (sendAnyKey_stored _ _ _ _ _ _ Hkey). simpl.
    destruct (Api_sendMessage_spec E text cid o1 s)
      as (r1 & a1 & t1 & Heq1 & Hh1 & _ & Ha1 & _).
    rewrite Heq1. cbn [snd].
    assert (Hkeyt : readsInherited cid (store t1) = false).
    { by apply readsInherited_history in Hh1. }
    rewrite (sendAnyKey_stored _ _ _ _ _ _ Hkeyt). simpl.
    destruct (Api_sendMessage_spec E text cid o2 t1)
      as (r2 & a2 & t2 & Heq2 & Hh2 & _ & Ha2 & _).
    rewrite Heq2. cbn [snd].
    exists a1, a2. by rewrite Hh2, Hh1, <- app_assoc.
Qed.

(** C3 at ["hi"] sent twice to the default conversation of the demo page
    while the clock stands still. *)
Lemma apiSendMessage_twice_at_hi :
  let E := stoppedClock in
  let text := js "hi" in
  let cid := Demo.DEFAULT_CONVERSATION_ID E in
  let s := Demo.initial E in
  let o1 := FetchRejected [] in
  let o2 := FetchRejected [] in
  let s1 := (sendAnyKey DemoPage E text cid o1 s).2 in
  let s2 := (sendAnyKey DemoPage E text cid o2 s1).2 in
  (∀ o s', readsInherited cid (store s') = false →
     (recentDuplicate E text (history cid s') (S (S (tick s'))) →
      userMessages (history cid (sendAnyKey DemoPage E text cid o s').2)
      = userMessages (history cid s'))
     ∧ (¬ recentDuplicate E text (history cid s') (S (S (tick s'))) →
        userMessages (history cid (sendAnyKey DemoPage E text cid o s').2)
        = userMessages (history cid s') ++ [userMessageOf E text (tick s')]))
  ∧ (length (userMessages (history cid s2)) ≤ S (length (userMessages (history cid s))))%nat
  ∧ (¬ recentDuplicate E text (history cid s) (S (S (tick s))) →
     recentDuplicate E text (history cid s1) (S (S (tick s1)))
     ∧ ∃ reply1 reply2 : Message,
         history cid s2 = history cid s ++ [userMessageOf E text (tick s); reply1; reply2]
         ∧ isUser reply1 = false ∧ isUser reply2 = false
         ∧ userMessages (history cid s2)
           = userMessages (history cid s) ++ [userMessageOf E text (tick s)])
  ∧ (∃ reply1 reply2 : Message,
       history cid
         (sendAnyKey ApiModule E text cid o2 (sendAnyKey ApiModule E text cid o1 s).2).2
       = history cid s
         ++ [userMessageOf E text (tick s); reply1;
             userMessageOf E text (tick (sendAnyKey ApiModule E text cid o1 s).2); reply2]
       ∧ isUser reply1 = false ∧ isUser reply2 = false).
Proof.
  intros E text cid s o1 o2 s1 s2.
  apply (apiSendMessage_twice_stores_one_user_message E text cid o1 o2 s).
  - reflexivity.
  - unfold E, stoppedClock. cbn [Date_now]. lia.
Defined.


(** ** The session binding *)

(** Either send function resolves the session of its conversation, binds
    the conversation to it, and sends it in the request. *)
Lemma request_spec v E message cid s :
  ∃ req k1 k' (added : list Message),
    request v E message cid s
    = (req, mkCall message cid (resolveSession E cid (sessionIdMap (store s)) k1).1.1,
       mkState
         (mkStore
            (<[cid := history cid s ++ added]> (mockConversations (store s)))
            (resolveSession E cid (sessionIdMap (store s)) k1).1.2)
         k')
    ∧ field (js "session_id") (body req)
      = Some (resolveSession E cid (sessionIdMap (store s)) k1).1.1
    ∧ (added = [] ∧ history cid s ≠ [] ∨ added = [userMessageOf E message (tick s)])
    ∧ (tick s < k')%nat.
Proof.
  destruct v; simpl.
  - unfold Api.sendMessage_request. rewrite push_ensure.
    destruct (resolveSession E cid (sessionIdMap (store s)) (S (S (tick s))))
      as [[sid sessions'] k'] eqn:Hr.
    pose proof (resolveSession_spec E cid (sessionIdMap (store s)) (S (S (tick s)))) as Hs.
    rewrite Hr in Hs. destruct Hs as (? & ? & [= <- _ <-] & _ & Hk).
    eexists _, (S (S (tick s))), _, _. rewrite Hr. simpl.
    split; [reflexivity|]. split; [reflexivity|]. split; [by right | lia].
  - destruct (Demo_request_spec E message cid s) as (req & sid & k' & Heq & Hf & _ & Hk).
    pose proof (hasDuplicateMessage_tick E message (history cid s) (S (S (tick s)))) as Hm.
    revert Heq Hf. unfold Demo.apiSendMessage_request.
    destruct (Demo.hasDuplicateMessage E message
                (default [] (ensureConversation cid (mockConversations (store s)) !! cid))
                (S (S (tick s)))) as [dup k1] eqn:Hd.
    destruct (resolveSession E cid (sessionIdMap (store s)) k1)
      as [[sid' sessions'] k2] eqn:Hr.
    intros [= <- <- Hconvs Hsess <-] Hf.
    eexists _, k1, _, (if dup then [] else [userMessageOf E message (tick s)]).
    rewrite Hr. simpl. rewrite Hconvs.
    rewrite ensure_lookup in Hd. simpl in Hd. fold (history cid s) in Hd.
    rewrite Hd. simpl.
    split; [reflexivity|]. split; [reflexivity|]. split; [|lia].
    destruct dup; [left|by right]. split; [done|].
    pose proof (hasDuplicateMessage_true E message (history cid s) (S (S (tick s)))) as Ht.
    rewrite Hd in Ht. destruct (Ht eq_refl) as (msg & _ & Hin & _).
    intros Hnil. rewrite Hnil in Hin. by apply elem_of_nil in Hin.
Qed.


Lemma send_unfold v E message cid o s :
  send v E message cid o s
  = afterFetch E (request v E message cid s).1.2 o (request v E message cid s).2.
Proof.
  destruct v; simpl; [unfold Api.sendMessage | unfold Demo.apiSendMessage].
  - by destruct (Api.sendMessage_request E message cid s) as [[req c] s1].
  - by destruct (Demo.apiSendMessage_request E message cid s) as [[req c] s1].
Qed.

Lemma truthy_spec (u : jsstring) : truthy u = true ↔ u ≠ [].
Proof.
  unfold truthy. rewrite negb_true_iff, bool_decide_eq_false. done.
Qed.






(** ** Deleting a conversation *)

(** C7 (as stated): once ["hi"] has been sent to the conversation ["1"], the
    conversation has a session binding; [deleteConversation] removes the
    history, returns [true], and the binding is still there.  And for the
    key ["toString"], under which nothing is stored, [deleteConversation]
    returns [true] and removes nothing. *)
Lemma deleteConversation_keeps_session_binding :
  let E := stoppedClock in
  let st := store (Api.sendMessage E (js "hi") (js "1") (FetchRejected []) (Api.initial E)).2 in
  sessionIdMap st !! js "1" = Some (js "session-1700000000000-123456")
  ∧ (Api.deleteConversation (js "1") st).1 = true
  ∧ mockConversations (Api.deleteConversation (js "1") st).2 !! js "1" = None
  ∧ sessionIdMap (Api.deleteConversation (js "1") st).2 !! js "1"
    = Some (js "session-1700000000000-123456")
  ∧ mockConversations st !! js "toString" = None
  ∧ (Api.deleteConversation (js "toString") st).1 = true
  ∧ mockConversations (Api.deleteConversation (js "toString") st).2 = mockConversations st.
Proof. vm_compute. done. Qed.

(** C7 (amended).  [deleteConversation] removes the history of the
    conversation and nothing else: the histories of all other conversations
    are as they were, and [sessionIdMap] is as it was, the binding of the
    deleted conversation included.  It returns [true] exactly when the key
    reads something: a stored history, which is then removed, or a member of
    [Object.prototype], where nothing is removed.  It returns [false]
    exactly when the store has no history for the key and the key names no
    such member.  Where the store has no history for the key, the store is
    unchanged.  The function has no failing path. *)
Theorem deleteConversation_removes_history_only cid st :
  mockConversations (Api.deleteConversation cid st).2 = delete cid (mockConversations st)
  ∧ mockConversations (Api.deleteConversation cid st).2 !! cid = None
  ∧ sessionIdMap (Api.deleteConversation cid st).2 = sessionIdMap st
  ∧ ((Api.deleteConversation cid st).1 = true
     ↔ is_Some (mockConversations st !! cid) ∨ cid ∈ Object_prototype)
  ∧ ((Api.deleteConversation cid st).1 = false
     ↔ mockConversations st !! cid = None ∧ cid ∉ Object_prototype)
  ∧ (mockConversations st !! cid = None → (Api.deleteConversation cid st).2 = st)
  ∧ (∀ other : jsstring, other ≠ cid →
       mockConversations (Api.deleteConversation cid st).2 !! other
       = mockConversations st !! other).
Proof.
  unfold Api.deleteConversation, read, inheritedKey.
  destruct (mockConversations st !! cid) as [l|] eqn:Hl; simpl.
  - split; [done|]. split; [apply lookup_delete_eq|]. split; [done|].
    split; [split; [left; by eexists | done]|]. split; [by split; [|intros [? _]]|].
    split; [done|]. intros other Hne. by apply lookup_delete_ne.
  - case_bool_decide as Hin; simpl.
    + split; [done|]. split; [by rewrite lookup_delete_eq|]. split; [done|].
      split; [split; [by right | done]|]. split; [by split; [|intros [_ ?]]|].
      split; [intros _; destruct st; simpl in *; f_equal; by apply delete_id|].
      intros other Hne. by apply lookup_delete_ne.
    + split; [symmetry; by apply delete_id|]. split; [done|]. split; [done|].
      split; [split; [done | by intros [[? ?]|?]]|]. done.
Qed.


(** ** Sorting *)

Section sorting.
Context {A : Type} (compareFn : A → A → Z).

Abbreviation inOrder := (inOrder compareFn).

(** The comparator never says "greater" both ways round. *)
Hypothesis compareFn_total : ∀ x y, 0 < compareFn x y → compareFn y x ≤ 0.

Lemma sort_insert_Permutation (x : A) (l : list A) :
  sort_insert compareFn x l ≡ₚ x :: l.
Proof.
  induction l as [|y l IH]; simpl; [done|].
  destruct (compareFn x y <=? 0); [done|].
  by rewrite IH, Permutation_swap.
Qed.

Lemma Array_sort_Permutation (l : list A) : Array_sort compareFn l ≡ₚ l.
Proof.
  induction l as [|x l IH]; simpl; [done|].
  by rewrite sort_insert_Permutation, IH.
Qed.

Lemma sort_insert_HdRel (x y : A) (l : list A) :
  inOrder y x → HdRel inOrder y l → HdRel inOrder y (sort_insert compareFn x l).
Proof.
  intros Hyx Hl. destruct l as [|z l]; simpl; [by constructor|].
  destruct (compareFn x z <=? 0); constructor; [done|].
  by inversion Hl.
Qed.

Lemma sort_insert_Sorted (x : A) (l : list A) :
  Sorted inOrder l → Sorted inOrder (sort_insert compareFn x l).
Proof.
  induction 1 as [|y l Hs IH Hhd]; simpl; [by repeat constructor|].
  destruct (compareFn x y <=? 0) eqn:Hxy.
  - apply Z.leb_le in Hxy. by repeat constructor.
  - apply Z.leb_gt in Hxy. constructor; [done|].
    apply sort_insert_HdRel; [|done]. by apply compareFn_total.
Qed.

Lemma Array_sort_Sorted (l : list A) : Sorted inOrder (Array_sort compareFn l).
Proof.
  induction l as [|x l IH]; simpl; [constructor|]. by apply sort_insert_Sorted.
Qed.
End sorting.


(** ** Listing the conversations *)

Lemma filter_firstUserMessage l :
  head (filter (λ msg, isUser msg) l) = firstUserMessage l.
Proof.
  induction l as [|m l IH]; [done|].
  rewrite filter_cons. cbn [firstUserMessage].
  destruct (isUser m);
    [rewrite decide_True by done; done | rewrite decide_False by (intros []); done].
Qed.

Lemma titleOf_derivedTitle l (placeholder : jsstring) :
  titleOf l placeholder = derivedTitle l placeholder.
Proof.
  unfold titleOf, derivedTitle. rewrite <- filter_firstUserMessage.
  destruct (filter (λ msg, isUser msg) l) as [|first rest]; [done|].
  cbn [head]. unfold substring_to.
  destruct (Nat.ltb_spec 20 (length (content first))); case_decide; (done || lia).
Qed.

Lemma summary_nonempty (cid : jsstring) l :
  l ≠ [] →
  ∃ lastm,
    last l = Some lastm
    ∧ Api.summary (cid, l)
      = Some (Conversation.mk cid
                (derivedTitle l (Api.titlePrefix ++ substring_from_end 4 cid))
                (snippet (content lastm)) (timestamp lastm)).
Proof.
  intros Hne. destruct (last l) as [lastm|] eqn:Hlast.
  - exists lastm. split; [done|]. unfold Api.summary. rewrite Hlast, titleOf_derivedTitle.
    unfold snippet, substring_to. do 3 f_equal.
    destruct (30 <? length (content lastm))%nat eqn:Hlen.
    + apply Nat.ltb_lt in Hlen. by rewrite decide_True.
    + apply Nat.ltb_ge in Hlen. rewrite decide_False by lia. done.
  - by apply last_None in Hlast.
Qed.

Lemma Forall2_elem_of_right {A B} (R : A → B → Prop) (xs : list A) (ys : list B) (y : B) :
  Forall2 R xs ys → y ∈ ys → ∃ x, x ∈ xs ∧ R x y.
Proof.
  induction 1 as [|x y' xs ys HR _ IH]; intros Hin.
  - by apply elem_of_nil in Hin.
  - apply elem_of_cons in Hin as [->|Hin].
    + exists x. split; [by left | done].
    + destruct (IH Hin) as (x' & ? & ?). exists x'. split; [by right | done].
Qed.

Lemma Sorted_weaken {A} (R1 R2 : relation A) (l : list A) :
  (∀ x y, R1 x y → R2 x y) → Sorted R1 l → Sorted R2 l.
Proof.
  intros HR. induction 1 as [|x l Hs IH Hhd]; constructor; [done|].
  destruct Hhd; constructor; auto.
Qed.


(** With no history empty, [getAllConversations] returns, whatever the order
    in which [Object.entries] lists the store. *)
Lemma getAllConversations_returns convs (es : list (jsstring * list Message)) :
  es ≡ₚ map_to_list convs →
  (∀ cid l, convs !! cid = Some l → l ≠ []) →
  ∃ cs0,
    Api.getAllConversations es
    = Some (Array_sort (λ a b, Conversation.timestamp b - Conversation.timestamp a) cs0)
    ∧ Forall2 (λ e (item : Conversation.t), Api.summary e = Some item) es cs0.
Proof.
  intros Hes Hne.
  assert (Hall : Forall (is_Some ∘ Api.summary) es).
  { apply Forall_forall. intros [cid l] Hin. rewrite Hes in Hin.
    apply elem_of_map_to_list in Hin.
    destruct (summary_nonempty cid l (Hne _ _ Hin)) as (lastm & _ & Hs).
    change (is_Some (Api.summary (cid, l))). by rewrite Hs. }
  apply mapM_is_Some in Hall as [cs0 Hcs0].
  exists cs0. unfold Api.getAllConversations. rewrite Hcs0. split; [done|].
  by apply mapM_Some.
Qed.







(** ** What the calls do to the store *)

Lemma replyPrefix_failure o (why : jsstring) :
  Failure o why → replyPrefix o = js "system-error-".
Proof.
  intros [why'|status bd Hst|status why' Hst]; simpl; [done| |done].
  destruct bd; [done|]. destruct (response_ok status) eqn:Hok; [|done].
  by apply response_ok_spec in Hok.
Qed.

Lemma afterFetch_convs E c o s :
  ∃ m : Message,
    id m = replyPrefix o ++ decimal (Date_now E (tick s))
    ∧ mockConversations (store (afterFetch E c o s).2)
      = match mockConversations (store s) !! call_conversationId c with
        | Some l => <[call_conversationId c := l ++ [m]]> (mockConversations (store s))
        | None => mockConversations (store s)
        end.
Proof.
  destruct (outcome_cases o) as [[why Hf]|(status & r & sid' & Hst & ->)].
  - exists (errorMessageOf E (tick s)). rewrite (replyPrefix_failure _ _ Hf).
    split; [done|]. rewrite (afterFetch_failure _ _ _ _ _ Hf).
    destruct (mockConversations (store s) !! call_conversationId c) as [l|] eqn:Hl.
    + by rewrite (onError_present _ _ _ _ _ Hl).
    + by rewrite (onError_absent _ _ _ _ Hl).
  - exists (systemMessageOf E r (tick s)). cbn [replyPrefix].
    rewrite (proj2 (response_ok_spec status) Hst). split; [done|].
    destruct (mockConversations (store s) !! call_conversationId c) as [l|] eqn:Hl.
    + by rewrite (afterFetch_success _ _ _ _ _ _ _ Hst Hl).
    + apply response_ok_spec in Hst. unfold afterFetch, push. rewrite Hst, Hl.
      cbn [negb]. by rewrite onError_absent.
Qed.

Lemma step_effect v E sys op : Effect E sys (step v E sys op).
Proof.
  destruct op as [message cid|i o| |cid]; simpl.
  - destruct (readsInherited cid (store (sys_state sys))); [apply effect_none; auto|].
    destruct (request_spec v E message cid (sys_state sys))
      as (req & k1 & k' & added & -> & _ & [[-> Hne] | ->] & _).
    + apply effect_none; simpl; [|right; by eexists].
      rewrite app_nil_r. unfold history in *.
      destruct (mockConversations (store (sys_state sys)) !! cid) eqn:Hl; [|done].
      by apply insert_id.
    + eapply (effect_push _ _ _ cid (js "user-")); simpl; [done|by left|done..].
  - destruct (pending sys !! i) as [c|]; [|apply effect_none; auto].
    destruct (afterFetch_convs E c o (sys_state sys)) as (m & Hm & Hconvs).
    destruct (mockConversations (store (sys_state sys)) !! call_conversationId c)
      as [l|] eqn:Hl.
    + eapply (effect_push _ _ _ (call_conversationId c) (replyPrefix o) m); simpl;
        [|unfold stampPrefix, replyPrefix;
          destruct o as [|status [|]]; try destruct (response_ok status); auto
         |done..].
      rewrite Hconvs. unfold history. by rewrite Hl.
    + apply effect_none; simpl; [done|]. right. by eexists.
  - destruct v; simpl; eapply effect_create; simpl; try done; by eexists.
  - destruct v; simpl; [|apply effect_none; auto].
    unfold Api.deleteConversation.
    destruct (read cid (mockConversations (store (sys_state sys)))); simpl.
    + by eapply effect_delete.
    + apply effect_none; auto.
Qed.


(** ** Identifiers *)

Ltac js_literals :=
  repeat match goal with
    | H : context [js ?lit] |- _ =>
        let u := eval vm_compute in (js lit) in change (js lit) with u in H
    | |- context [js ?lit] =>
        let u := eval vm_compute in (js lit) in change (js lit) with u
    end.

(** A rendered number does not start with a letter. *)
Ltac no_letter_head H :=
  match type of H with
  | decimal ?t = _ =>
      let u := fresh "u" in let rest := fresh "rest" in
      let Hd := fresh "Hd" in let Hu := fresh "Hu" in
      destruct (decimal_head t) as (u & rest & Hd & Hu);
      rewrite Hd in H; injection H as -> _; lia
  | _ = decimal ?t => symmetry in H; no_letter_head H
  end.

Lemma stamped_inj (p p' : jsstring) (t t' : Z) :
  stampPrefix p → stampPrefix p' → p ++ decimal t = p' ++ decimal t' → p = p' ∧ t = t'.
Proof.
  intros [-> | [-> | ->]] [-> | [-> | ->]] H; js_literals; cbn [app] in H;
    try discriminate; simplify_eq;
    try (split; [done | by apply decimal_inj]);
    match goal with H : _ = _ |- _ => no_letter_head H end.
Qed.

Lemma initId_not_stamped (p i : jsstring) (t : Z) :
  initId i → stampPrefix p → i = p ++ decimal t → False.
Proof.
  intros [x ->] [-> | [-> | ->]] H; js_literals; cbn [app] in H;
    try discriminate; simplify_eq;
    match goal with H : _ = _ |- _ => no_letter_head H end.
Qed.

(** ** Invariants of the store *)

Lemma exec_snoc v E (ops : list Op) (op : Op) :
  exec v E (ops ++ [op]) = step v E (exec v E ops) op.
Proof. unfold exec. by rewrite foldl_snoc. Qed.

Lemma boot_noEmptyHistory v E : noEmptyHistory (store (sys_state (boot v E))).
Proof.
  intros cid l. destruct v; simpl; intros [_ <-]%lookup_singleton_Some; discriminate.
Qed.

Lemma Effect_noEmptyHistory E sys sys' :
  Effect E sys sys' →
  noEmptyHistory (store (sys_state sys)) → noEmptyHistory (store (sys_state sys')).
Proof.
  intros [Hsame _|cid p m Hpush _ _ _|newId m Hnew _ _|cid Hdel _] Hinv cid' l;
    unfold noEmptyHistory in *.
  - rewrite Hsame. apply Hinv.
  - rewrite Hpush. destruct (decide (cid' = cid)) as [->|Hne].
    + rewrite lookup_insert_eq. intros [= <-]. by destruct (history cid (sys_state sys)).
    + rewrite lookup_insert_ne by done. apply Hinv.
  - rewrite Hnew. destruct (decide (cid' = newId)) as [->|Hne].
    + rewrite lookup_insert_eq. by intros [= <-].
    + rewrite lookup_insert_ne by done. apply Hinv.
  - rewrite Hdel. destruct (decide (cid' = cid)) as [->|Hne].
    + by rewrite lookup_delete_eq.
    + rewrite lookup_delete_ne by done. apply Hinv.
Qed.

Lemma exec_noEmptyHistory v E (ops : list Op) :
  noEmptyHistory (store (sys_state (exec v E ops))).
Proof.
  induction ops as [|op ops IH] using rev_ind; [apply boot_noEmptyHistory|].
  rewrite exec_snoc. eapply Effect_noEmptyHistory; [apply step_effect | done].
Qed.

(** On the demo page nothing takes a conversation out of the store, so the
    conversation of a send in flight is there when its fetch settles. *)
Lemma DemoPage_step_keeps E sys op (key : jsstring) :
  is_Some (mockConversations (store (sys_state sys)) !! key) →
  is_Some (mockConversations (store (sys_state (step DemoPage E sys op))) !! key).
Proof.
  intros Hkey. destruct op as [message cid|i o| |cid]; simpl; [| | |done].
  - destruct (readsInherited cid (store (sys_state sys))); [done|].
    destruct (request_spec DemoPage E message cid (sys_state sys))
      as (req & k1 & k' & added & Heq & _). simpl in Heq. rewrite Heq. simpl.
    destruct (decide (key = cid)) as [->|Hne];
      [rewrite lookup_insert_eq; by eexists | by rewrite lookup_insert_ne].
  - destruct (pending sys !! i) as [c|]; [|done]. simpl.
    destruct (afterFetch_convs E c o (sys_state sys)) as (m & _ & ->).
    destruct (mockConversations (store (sys_state sys)) !! call_conversationId c);
      [|done].
    destruct (decide (key = call_conversationId c)) as [->|Hne];
      [rewrite lookup_insert_eq; by eexists | by rewrite lookup_insert_ne].
  - destruct (decide (key = uuidv4 E (tick (sys_state sys)))) as [->|Hne];
      [rewrite lookup_insert_eq; by eexists | by rewrite lookup_insert_ne].
Qed.

Lemma DemoPage_pending_stored E (ops : list Op) c :
  c ∈ pending (exec DemoPage E ops) →
  is_Some (mockConversations (store (sys_state (exec DemoPage E ops)))
             !! call_conversationId c).
Proof.
  induction ops as [|op ops IH] using rev_ind; [by intros ?%elem_of_nil|].
  rewrite exec_snoc. intros Hin.
  destruct (decide (c ∈ pending (exec DemoPage E ops))) as [Hold|Hnew].
  { by apply DemoPage_step_keeps, IH. }
  destruct op as [message cid|i o| |cid]; simpl in Hin |- *; try done.
  - destruct (readsInherited cid (store (sys_state (exec DemoPage E ops)))); [done|].
    destruct (request_spec DemoPage E message cid (sys_state (exec DemoPage E ops)))
      as (req & k1 & k' & added & Heq & _). simpl in Heq. rewrite Heq in Hin |- *.
    simpl in Hin |- *.
    apply elem_of_app in Hin as [?|Hc]; [done|].
    apply list_elem_of_singleton in Hc as ->. simpl.
    rewrite lookup_insert_eq. by eexists.
  - destruct (pending (exec DemoPage E ops) !! i) as [c'|] eqn:Hi; [|done].
    simpl in Hin. destruct Hnew. eapply elem_of_sublist; [done|].
    apply sublist_delete.
Qed.






(** X2.  Hence on the demo page a failed fetch never makes a send raise:
    in every state the store can be brought to, by any sequence of sends,
    settled fetches and creations, the send in flight settles with the
    fallback result. *)
Lemma DemoPage_failure_never_raises E (ops : list Op) (i : nat) c o (why : jsstring) :
  pending (exec DemoPage E ops) !! i = Some c →
  Failure o why →
  (afterFetch E c o (sys_state (exec DemoPage E ops))).1
  = Resolved (fallbackResponse (call_conversationId c) why).
Proof.
  intros Hc Hf.
  destruct (DemoPage_pending_stored E ops c) as [l Hl].
  { apply list_elem_of_lookup. by exists i. }
  by rewrite (afterFetch_failure _ _ _ _ _ Hf), (onError_present _ _ _ _ _ Hl).
Qed.

(** X2 at a send of ["a"] in flight on the default conversation. *)
Lemma DemoPage_failure_never_raises_at_a :
  let E := stoppedClock in
  let key := Demo.DEFAULT_CONVERSATION_ID E in
  let c := mkCall (js "a") key (js "session-1700000000000-123456") in
  (afterFetch E c (FetchRejected []) (sys_state (exec DemoPage E [Send (js "a") key]))).1
  = Resolved (fallbackResponse key []).
Proof.
  intros E key c.
  apply (DemoPage_failure_never_raises E [Send (js "a") key] 0 c (FetchRejected []) []).
  - by vm_compute.
  - constructor.
Defined.

(** X1.  In the API module a conversation deleted while a send to it is in
    flight, the fetch settling before anything else is called, makes the
    code after the [await] raise, whatever the outcome of the fetch: the
    send stays in flight over the deletion, the push of the [try] block or
    of the [catch] block finds no history, and no history is changed. *)
Lemma Api_delete_in_flight_raises E (ops : list Op) (i : nat) c o :
  pending (exec ApiModule E ops) !! i = Some c →
  let sys := step ApiModule E (exec ApiModule E ops) (Delete (call_conversationId c)) in
  pending sys !! i = Some c
  ∧ mockConversations (store (sys_state sys)) !! call_conversationId c = None
  ∧ (∃ raised : jsstring, (afterFetch E c o (sys_state sys)).1 = Raised raised)
  ∧ mockConversations (store (afterFetch E c o (sys_state sys)).2)
    = mockConversations (store (sys_state sys))
  ∧ pending (step ApiModule E sys (Settle i o)) = delete i (pending sys)
  ∧ mockConversations (store (sys_state (step ApiModule E sys (Settle i o))))
    = mockConversations (store (sys_state sys)).
Proof.
  intros Hc sys.
  assert (Hp : pending sys !! i = Some c) by done.
  assert (Hl : mockConversations (store (sys_state sys)) !! call_conversationId c = None).
  { unfold sys. simpl. unfold Api.deleteConversation.
    destruct (read _ _) eqn:Hr; simpl; [apply lookup_delete_eq|].
    destruct (mockConversations _ !! call_conversationId c) eqn:Hl; [|done].
    by rewrite (read_own _ _ _ Hl) in Hr. }
  destruct (afterFetch_absent E c o (sys_state sys) Hl) as (sessions' & k' & Heq).
  split; [done|]. split; [done|]. rewrite Heq. split; [by eexists|]. split; [done|].
  cbn [step]. rewrite Hp, Heq. by split.
Qed.

(** X1 at the send of ["a"] to the conversation ["1"], the fetch being
    rejected. *)
Lemma Api_delete_in_flight_raises_at_a :
  let E := stoppedClock in
  let c := mkCall (js "a") (js "1") (js "session-1700000000000-123456") in
  let o := FetchRejected [] in
  let sys := step ApiModule E (exec ApiModule E [Send (js "a") (js "1")])
               (Delete (call_conversationId c)) in
  pending sys !! 0%nat = Some c
  ∧ mockConversations (store (sys_state sys)) !! call_conversationId c = None
  ∧ (∃ raised : jsstring, (afterFetch E c o (sys_state sys)).1 = Raised raised)
  ∧ mockConversations (store (afterFetch E c o (sys_state sys)).2)
    = mockConversations (store (sys_state sys))
  ∧ pending (step ApiModule E sys (Settle 0 o)) = delete 0%nat (pending sys)
  ∧ mockConversations (store (sys_state (step ApiModule E sys (Settle 0 o))))
    = mockConversations (store (sys_state sys)).
Proof.
  intros E c o.
  apply (Api_delete_in_flight_raises E [Send (js "a") (js "1")] 0 c o).
  by vm_compute.
Defined.

Lemma boot_distinctIds v E : distinctIds (boot v E).
Proof.
  intros cid l. destruct v; simpl; intros [_ <-]%lookup_singleton_Some;
    (split; [apply NoDup_singleton | apply Forall_singleton; left]).
  - by exists (js "1").
  - by exists (Demo.DEFAULT_CONVERSATION_ID E).
Qed.

Lemma Effect_minted E sys sys' :
  Effect E sys sys' →
  minted sys' = minted sys ∨ ∃ stamp, minted sys' = stamp :: minted sys.
Proof. intros [_ ?|? ? ? _ _ _ ?|? ? _ _ ?|? _ ?]; eauto. Qed.

Lemma Effect_distinctIds E sys sys' :
  Effect E sys sys' → NoDup (minted sys') → distinctIds sys → distinctIds sys'.
Proof.
  intros Heff Hnd Hinv.
  assert (Hmono : ∀ cid l, Forall (recorded sys cid) l → Forall (recorded sys' cid) l).
  { intros cid l Hl. eapply Forall_impl; [exact Hl|].
    intros m [?|(p & t & Ht & ?)]; [by left|right].
    exists p, t. split; [|done].
    destruct (Effect_minted _ _ _ Heff) as [->|[stamp ->]]; [done | by right]. }
  destruct Heff as [Hsame _|cid p m Hpush Hp Hid Hm|newId m Hnew Hid _|cid Hdel _];
    intros cid' l; unfold distinctIds in Hinv.
  - rewrite Hsame. intros [? ?]%Hinv. auto.
  - rewrite Hpush. destruct (decide (cid' = cid)) as [->|Hne].
    + rewrite lookup_insert_eq. intros [= <-].
      assert (Hold : NoDup (id <$> history cid (sys_state sys))
                     ∧ Forall (recorded sys cid) (history cid (sys_state sys))).
      { unfold history.
        destruct (mockConversations (store (sys_state sys)) !! cid) as [l|] eqn:Hl.
        - by apply (Hinv cid).
        - split; [apply NoDup_nil_2 | constructor]. }
      destruct Hold as [Hnd0 Hall0]. split.
      * rewrite fmap_app. apply NoDup_app. split; [done|].
        split; [|apply NoDup_singleton].
        intros i Hi Hi'. apply list_elem_of_singleton in Hi'. subst i.
        apply list_elem_of_fmap in Hi as (m' & Heq & Hin').
        rewrite Forall_forall in Hall0.
        destruct (Hall0 m' Hin') as [Hinit|(p' & t' & Ht' & Hp' & Hst')].
        -- rewrite <- Heq in Hinit. by eapply initId_not_stamped.
        -- rewrite <- Heq, Hid in Hst'.
           destruct (stamped_inj _ _ _ _ Hp Hp' Hst') as [<- <-].
           rewrite Hm in Hnd. by apply NoDup_cons in Hnd as [? _].
      * apply Forall_app. split; [by apply Hmono|].
        apply Forall_singleton. right. eexists _, _. split; [|done].
        rewrite Hm. by left.
    + rewrite lookup_insert_ne by done. intros [? ?]%Hinv. auto.
  - rewrite Hnew. destruct (decide (cid' = newId)) as [->|Hne].
    + rewrite lookup_insert_eq. intros [= <-].
      split; [apply NoDup_singleton | apply Forall_singleton; by left].
    + rewrite lookup_insert_ne by done. intros [? ?]%Hinv. auto.
  - rewrite Hdel. destruct (decide (cid' = cid)) as [->|Hne].
    + by rewrite lookup_delete_eq.
    + rewrite lookup_delete_ne by done. intros [? ?]%Hinv. auto.
Qed.

Lemma exec_distinctIds v E (ops : list Op) :
  NoDup (minted (exec v E ops)) → distinctIds (exec v E ops).
Proof.
  induction ops as [|op ops IH] using rev_ind; [intros _; apply boot_distinctIds|].
  rewrite exec_snoc. intros Hnd.
  pose proof (step_effect v E (exec v E ops) op) as Heff.
  eapply Effect_distinctIds; [done..|]. apply IH.
  destruct (Effect_minted _ _ _ Heff) as [Heq|[t Heq]]; rewrite Heq in Hnd; [done|].
  by apply NoDup_cons in Hnd as [_ ?].
Qed.


(** C9 (as stated): two texts sent to the conversation ["1"] of the API
    module within one millisecond are stored under the same identifier; and
    on the demo page, a text submitted, answered and followed by another
    within one millisecond leaves two user messages with one identifier in
    the default conversation. *)
Lemma sends_within_a_millisecond_share_an_identifier :
  let sys := exec ApiModule stoppedClock [Send (js "a") (js "1"); Send (js "b") (js "1")] in
  let page :=
    Demo.run stoppedClock
      [Demo.DoSubmit (js "a"); Demo.DoSettle 0 (FetchRejected []); Demo.DoSubmit (js "b")] in
  id <$> history (js "1") (sys_state sys)
  = [js "system-init-1"; js "user-1700000000000"; js "user-1700000000000"]
  ∧ content <$> history (js "1") (sys_state sys) = [Api.greeting; js "a"; js "b"]
  ∧ ¬ NoDup (id <$> history (js "1") (sys_state sys))
  ∧ id <$> history (Demo.DEFAULT_CONVERSATION_ID stoppedClock) (Demo.state page)
    = [js "system-init-0b7e2c5a"; js "user-1700000000000";
       js "system-error-1700000000000"; js "user-1700000000000"]
  ∧ ¬ NoDup (id <$> history (Demo.DEFAULT_CONVERSATION_ID stoppedClock) (Demo.state page)).
Proof.
  intros sys page.
  assert (H1 : id <$> history (js "1") (sys_state sys)
               = [js "system-init-1"; js "user-1700000000000"; js "user-1700000000000"])
    by (vm_compute; reflexivity).
  assert (H2 : id <$> history (Demo.DEFAULT_CONVERSATION_ID stoppedClock) (Demo.state page)
               = [js "system-init-0b7e2c5a"; js "user-1700000000000";
                  js "system-error-1700000000000"; js "user-1700000000000"])
    by (vm_compute; reflexivity).
  split; [exact H1|]. split; [by vm_compute|]. split; [|split; [exact H2|]].
  - rewrite H1. intros [_ [Hnot _]%NoDup_cons]%NoDup_cons. apply Hnot. by left.
  - rewrite H2. intros [_ [Hnot _]%NoDup_cons]%NoDup_cons. apply Hnot.
    right. by left.
Qed.

(** C9 (amended).  In every state either store can be brought to, by any
    sequence of sends, settled fetches, creations and deletions, the messages
    of a conversation have pairwise distinct identifiers, provided no two
    messages of one kind (a user message, a reply, a fallback) were built
    for one conversation from the same clock reading. *)
Theorem message_ids_distinct_when_readings_distinct v E (ops : list Op) :
  NoDup (minted (exec v E ops)) →
  ∀ cid, NoDup (id <$> history cid (sys_state (exec v E ops))).
Proof.
  intros Hnd cid. unfold history.
  destruct (mockConversations (store (sys_state (exec v E ops))) !! cid) as [l|] eqn:Hl.
  - by apply (exec_distinctIds v E ops Hnd cid l).
  - apply NoDup_nil_2.
Qed.

(** C9 (amended) at two sends to ["1"], the first one answered in between,
    under a clock that moves on. *)
Lemma message_ids_distinct_under_advancing_clock :
  NoDup (id <$> history (js "1")
           (sys_state
              (exec ApiModule advancingClock
                 [Send (js "a") (js "1"); Settle 0 (FetchRejected []);
                  Send (js "b") (js "1")]))).
Proof.
  apply (message_ids_distinct_when_readings_distinct ApiModule advancingClock
           [Send (js "a") (js "1"); Settle 0 (FetchRejected []); Send (js "b") (js "1")]).
  apply (bool_decide_unpack _). by vm_compute.
Defined.

(** ** No history is empty *)

Lemma execWire_snoc E (ws : list Wire) (w : Wire) :
  execWire E (ws ++ [w])
  = (step ApiModule E (execWire E ws).1 (typedOp w),
     mark E (execWire E ws).1 (execWire E ws).2 w).
Proof. unfold execWire. by rewrite foldl_snoc. Qed.

(** The calls of a run with replies that are no strings are those of a run
    of the store. *)
Lemma execWire_exec E (ws : list Wire) :
  (execWire E ws).1 = exec ApiModule E (typedOp <$> ws).
Proof.
  induction ws as [|w ws IH] using rev_ind; [done|].
  rewrite execWire_snoc, fmap_app. change (typedOp <$> [w]) with [typedOp w].
  by rewrite exec_snoc, <- IH.
Qed.

Lemma typedMessages_storedAs (cid : jsstring) l :
  typedMessages (storedAs [] cid l) = l.
Proof.
  unfold storedAs. generalize 0%nat. induction l as [|m l IH]; intros n; [done|].
  change (typedMessages (Typed m :: imap (λ i m0,
            if bool_decide ((cid, S n + i)%nat ∈ @nil (jsstring * nat))
            then Untyped (id m0) (timestamp m0) else Typed m0) l) = m :: l).
  unfold typedMessages. cbn [omap]. fold typedMessages. f_equal.
  rewrite <- (IH (S n)) at 2. unfold storedAs. f_equal.
Qed.

Lemma last_storedAs marks (cid : jsstring) l :
  last (storedAs marks cid l)
  = (λ m, if bool_decide ((cid, pred (length l)) ∈ marks)
          then Untyped (id m) (timestamp m) else Typed m) <$> last l.
Proof.
  unfold storedAs. by rewrite !last_lookup, length_imap, list_lookup_imap.
Qed.

Lemma summaryOfStored_returns marks (cid : jsstring) l :
  is_Some (summaryOfStored (cid, storedAs marks cid l))
  ↔ l ≠ [] ∧ (cid, pred (length l)) ∉ marks.
Proof.
  unfold summaryOfStored. rewrite last_storedAs.
  destruct (last l) as [lastm|] eqn:Hlast; simpl.
  - assert (Hne : l ≠ []) by (intros ->; done).
    case_bool_decide as Hin.
    + split; [by intros [? ?] | by intros [_ ?]].
    + split; [done | by eexists].
  - apply last_None in Hlast as ->. split; [by intros [? ?] | by intros [? _]].
Qed.

(** With no mark, the functions on the messages as stored are those on the
    messages. *)
Lemma getAllConversationsOfStored_typed (es : list (jsstring * list Message)) :
  getAllConversationsOfStored (entriesAs [] es) = Api.getAllConversations es.
Proof.
  unfold getAllConversationsOfStored, Api.getAllConversations, entriesAs. f_equal.
  induction es as [|[cid l] es IH]; [done|].
  rewrite fmap_cons. cbn [mapM]. rewrite IH. f_equal.
  unfold summaryOfStored, Api.summary. cbn [fst snd].
  rewrite typedMessages_storedAs, last_storedAs.
  by destruct (last l).
Qed.

(** C10 (as stated).  In the API module, after a send of ["hi"] to the
    conversation ["1"] was answered with status 200 and a body that holds no
    [reply], no history is empty, the last message of ["1"] is a system
    message whose content is no string, and [getAllConversations] raises. *)
Lemma getAllConversations_raises_after_reply_that_is_no_string :
  let E := stoppedClock in
  let run := execWire E [Plain (Send (js "hi") (js "1")); SettleNoString 0 200 None] in
  let entries := entriesAs run.2 (map_to_list (mockConversations (store (sys_state run.1)))) in
  noEmptyHistory (store (sys_state run.1))
  ∧ entries
    = [(js "1",
        [Typed (mkMessage (js "system-init-1") Api.greeting false 1699996400000 None);
         Typed (mkMessage (js "user-1700000000000") (js "hi") true 1700000000000 None);
         Untyped (js "system-1700000000000") 1700000000000])]
  ∧ getAllConversationsOfStored entries = None.
Proof.
  intros E run entries. split.
  - unfold run. rewrite execWire_exec. apply exec_noEmptyHistory.
  - by vm_compute.
Qed.

(** C10 (amended).  In every state either store can be brought to, by any
    sequence of sends, settled fetches, creations and deletions, every
    conversation in the store has a message, hence a last one; so it is when
    replies that are no strings were stored.  [getAllConversations] returns,
    whatever the order in which the entries of the store are listed, exactly
    when the last message of no conversation is a reply that is no string:
    always, when every 2xx answer that was parsed held a string for
    [reply]. *)
Theorem stored_histories_never_empty v E (ops : list Op) (ws : list Wire) :
  noEmptyHistory (store (sys_state (exec v E ops)))
  ∧ (∀ (cid : jsstring) l,
       mockConversations (store (sys_state (exec v E ops))) !! cid = Some l →
       is_Some (last l))
  ∧ noEmptyHistory (store (sys_state (execWire E ws).1))
  ∧ (∀ es : list (jsstring * list Message),
       es ≡ₚ map_to_list (mockConversations (store (sys_state (execWire E ws).1))) →
       is_Some (getAllConversationsOfStored (entriesAs (execWire E ws).2 es))
       ↔ ∀ (cid : jsstring) l,
           mockConversations (store (sys_state (execWire E ws).1)) !! cid = Some l →
           (cid, pred (length l)) ∉ (execWire E ws).2)
  ∧ (∀ es : list (jsstring * list Message),
       es ≡ₚ map_to_list (mockConversations (store (sys_state (exec ApiModule E ops)))) →
       getAllConversationsOfStored (entriesAs (execWire E (Plain <$> ops)).2 es)
       = Api.getAllConversations es
       ∧ is_Some (Api.getAllConversations es)).
Proof.
  assert (Hwire : noEmptyHistory (store (sys_state (execWire E ws).1))).
  { rewrite execWire_exec. apply exec_noEmptyHistory. }
  split; [apply exec_noEmptyHistory|]. split; [|split; [done|split]].
  - intros cid l Hl. pose proof (exec_noEmptyHistory v E ops cid l Hl) as Hne.
    destruct (last l) eqn:Hlast; [by eexists|]. by apply last_None in Hlast.
  - intros es Hes. unfold getAllConversationsOfStored. rewrite fmap_is_Some.
    rewrite mapM_is_Some, Forall_forall. unfold entriesAs. split.
    + intros Hall cid l Hl.
      assert (Hin : (cid, storedAs (execWire E ws).2 cid l)
                    ∈ (λ e, (e.1, storedAs (execWire E ws).2 e.1 e.2)) <$> es).
      { apply list_elem_of_fmap. exists (cid, l). split; [done|].
        rewrite Hes. by apply elem_of_map_to_list. }
      by apply Hall, summaryOfStored_returns in Hin as [_ ?].
    + intros Hno e ([cid l] & -> & Hin)%list_elem_of_fmap. cbn [fst snd].
      rewrite Hes in Hin. apply elem_of_map_to_list in Hin.
      apply summaryOfStored_returns. split; [by apply (Hwire cid) | by apply Hno].
  - intros es Hes.
    assert (Hmarks : ∀ ops0 : list Op, (execWire E (Plain <$> ops0)).2 = []).
    { induction ops0 as [|op ops0 IH] using rev_ind; [done|].
      rewrite fmap_app. change (Plain <$> [op]) with [Plain op].
      rewrite execWire_snoc. cbn [snd].
      rewrite IH. by destruct op. }
    rewrite Hmarks, getAllConversationsOfStored_typed. split; [done|].
    destruct (getAllConversations_returns _ _ Hes (exec_noEmptyHistory ApiModule E ops))
      as (cs0 & -> & _). by eexists.
Qed.


(** ** The page while a reply is awaited *)



Lemma showHistory_flight (key : jsstring) (a : Demo.App) :
  Demo.isLoading (Demo.showHistory key a) = Demo.isLoading a
  ∧ Demo.inFlight (Demo.showHistory key a) = Demo.inFlight a.
Proof. done. Qed.






(** ** The history as the page shows it *)

(** Where [findIndex] lands in [pre ++ x :: rest] when [x] matches. *)
Lemma findIndexFrom_first {A} (p : A → bool) (pre rest : list A) (x : A) (k : nat) :
  p x = true →
  Demo.findIndexFrom p (pre ++ x :: rest) k = Z.of_nat (k + length pre)
  ↔ ∀ y, y ∈ pre → p y = false.
Proof.
  intros Hx. revert k. induction pre as [|y pre IH]; intros k; simpl.
  - rewrite Hx, Nat.add_0_r. split; [|done]. intros _ y Hy. by apply elem_of_nil in Hy.
  - destruct (p y) eqn:Hy.
    + split; [lia|]. intros Hno. specialize (Hno y (list_elem_of_here _ _)). congruence.
    + rewrite <- Nat.add_succ_comm, IH. split.
      * intros Hno z [->|Hz]%elem_of_cons; auto.
      * intros Hno z Hz. apply Hno. by right.
Qed.

Lemma keepFirst_seen_equiv (seen seen' : list jsstring) l :
  (∀ i, i ∈ seen ↔ i ∈ seen') → keepFirst seen l = keepFirst seen' l.
Proof.
  revert seen seen'. induction l as [|m l IH]; intros seen seen' Heq; simpl; [done|].
  destruct (decide (id m ∈ seen)) as [Hin|Hin], (decide (id m ∈ seen')) as [Hin'|Hin'];
    try (by apply Heq in Hin); try (by apply Heq in Hin').
  - by apply IH.
  - f_equal. apply IH. intros i. rewrite !elem_of_app. by rewrite Heq.
Qed.

(** The filter of [bubbleItems] keeps, of the messages of equal identifier,
    the first. *)
Lemma uniqueById_from (pre l : list Message) :
  Demo.filterFrom
    (λ msg index,
       bool_decide (Demo.findIndex (λ m, bool_decide (id m = id msg)) (pre ++ l)
                    = Z.of_nat index))
    (length pre) l
  = keepFirst (id <$> pre) l.
Proof.
  revert pre. induction l as [|m l IH]; intros pre; simpl; [done|].
  assert (Hnext : pre ++ m :: l = (pre ++ [m]) ++ l) by by rewrite <- app_assoc.
  specialize (IH (pre ++ [m])). rewrite <- Hnext, length_app, fmap_app in IH.
  simpl in IH. rewrite Nat.add_1_r in IH.
  pose proof (findIndexFrom_first (λ m0, bool_decide (id m0 = id m)) pre l m 0) as Hfirst.
  simpl in Hfirst. specialize (Hfirst (bool_decide_eq_true_2 _ eq_refl)).
  unfold Demo.findIndex in *. destruct Hfirst as [Hfirst1 Hfirst2].
  destruct (decide (id m ∈ id <$> pre)) as [Hin|Hin].
  - rewrite bool_decide_eq_false_2.
    { rewrite IH. apply keepFirst_seen_equiv. intros i. rewrite elem_of_app.
      split; [intros [?|Hi]; [done|]; by apply list_elem_of_singleton in Hi as -> | by left]. }
    intros Heq. pose proof (Hfirst1 Heq) as Hno.
    apply list_elem_of_fmap in Hin as (y & Hid & Hy).
    specialize (Hno y Hy). by apply bool_decide_eq_false in Hno.
  - rewrite bool_decide_eq_true_2; [by rewrite IH|].
    apply Hfirst2.
    intros y Hy. apply bool_decide_eq_false. intros Hid. apply Hin.
    apply list_elem_of_fmap. by exists y.
Qed.

Lemma uniqueById_keepFirst l : Demo.uniqueById l = keepFirst [] l.
Proof. apply (uniqueById_from [] l). Qed.


Lemma keepFirst_fresh (seen : list jsstring) l m :
  m ∈ keepFirst seen l → (id m ∉ seen) ∧ m ∈ l.
Proof.
  revert seen. induction l as [|m0 l IH]; intros seen; simpl.
  - by intros ?%elem_of_nil.
  - destruct (decide (id m0 ∈ seen)) as [Hin|Hin].
    + intros [? ?]%IH. split; [done | by right].
    + intros [->|[Hn ?]%IH]%elem_of_cons; [split; [done | by left]|].
      split; [|by right]. intros ?. apply Hn, elem_of_app. by left.
Qed.

Lemma keepFirst_NoDup (seen : list jsstring) l : NoDup (id <$> keepFirst seen l).
Proof.
  revert seen. induction l as [|m0 l IH]; intros seen; simpl; [apply NoDup_nil_2|].
  destruct (decide (id m0 ∈ seen)); [apply IH|].
  rewrite fmap_cons. apply NoDup_cons. split; [|apply IH].
  intros (m & Hid & [Hn _]%keepFirst_fresh)%list_elem_of_fmap.
  apply Hn, elem_of_app. right. rewrite Hid. by left.
Qed.

(** A message is kept exactly when it is the first of its identifier. *)
Lemma keepFirst_first (seen : list jsstring) l m :
  m ∈ keepFirst seen l
  ↔ (id m ∉ seen)
    ∧ ∃ i, l !! i = Some m
           ∧ ∀ j m', (j < i)%nat → l !! j = Some m' → id m' ≠ id m.
Proof.
  revert seen. induction l as [|m0 l IH]; intros seen; simpl.
  - split; [by intros ?%elem_of_nil | by intros (_ & i & ? & _)].
  - destruct (decide (id m0 ∈ seen)) as [Hin|Hin].
    + rewrite IH. split.
      * intros (Hn & i & Hi & Hfirst). split; [done|]. exists (S i). split; [done|].
        intros [|j] m' Hj; simpl; [intros [= <-]; congruence|].
        intros Hm'. apply (Hfirst j); [lia | done].
      * intros (Hn & [|i] & Hi & Hfirst); simpl in Hi; [congruence|].
        split; [done|]. exists i. split; [done|].
        intros j m' Hj Hm'. apply (Hfirst (S j)); [lia | done].
    + rewrite elem_of_cons, IH. split.
      * intros [->|(Hn & i & Hi & Hfirst)].
        -- split; [done|]. exists 0%nat. split; [done|]. intros j m' Hj. lia.
        -- rewrite elem_of_app, list_elem_of_singleton in Hn.
           split; [tauto|]. exists (S i). split; [done|].
           intros [|j] m' Hj; simpl; [intros [= <-]; intros Heq; apply Hn; by right|].
           intros Hm'. apply (Hfirst j); [lia | done].
      * intros (Hn & [|i] & Hi & Hfirst); simpl in Hi; [left; congruence|].
        right. split.
        -- rewrite elem_of_app, list_elem_of_singleton. intros [?|Heq]; [done|].
           by apply (Hfirst 0%nat m0); [lia | done |].
        -- exists i. split; [done|].
           intros j m' Hj Hm'. apply (Hfirst (S j)); [lia | done].
Qed.

Lemma sortByTimestamp_Sorted l :
  Sorted (λ a b, timestamp a ≤ timestamp b) (Demo.sortByTimestamp l).
Proof.
  eapply Sorted_weaken; [|apply Array_sort_Sorted].
  - unfold inOrder. intros a b. lia.
  - intros a b. lia.
Qed.

Lemma sortByTimestamp_Permutation l : Demo.sortByTimestamp l ≡ₚ l.
Proof. apply Array_sort_Permutation. Qed.

(** On array objects: the chain allocates the array it sorts, so the array
    it was given is not written to. *)
Lemma showMessages_heap (h : gmap nat (list Message)) (r : nat) l :
  h !! r = Some l →
  (Demo.showMessages h r).2 !! r = Some l
  ∧ (Demo.showMessages h r).2 !! (Demo.showMessages h r).1 = Some (Demo.shownMessages l)
  ∧ (∀ other : nat, other ≠ (Demo.showMessages h r).1 →
       (Demo.showMessages h r).2 !! other = h !! other)
  ∧ h !! (Demo.showMessages h r).1 = None.
Proof.
  intros Hr. unfold Demo.showMessages, Demo.Array_filter_new, Demo.Array_sort_in_place.
  cbn [fst snd]. rewrite Hr, lookup_insert_eq. cbn [default from_option Datatypes.id].
  assert (Hfresh : h !! fresh (dom h) = None).
  { apply not_elem_of_dom. apply is_fresh. }
  assert (Hne : r ≠ fresh (dom h)) by (intros ->; congruence).
  split; [by rewrite !lookup_insert_ne|]. split; [by rewrite lookup_insert_eq|].
  split; [|done]. intros other Hother. by rewrite !lookup_insert_ne.
Qed.


(** C6 (as stated, on [getConversationHistory]): after two texts were sent
    to the conversation ["1"] within one millisecond, the sequence
    [getConversationHistory] returns has two entries of one identifier; so it
    has on the demo page after a text was submitted, answered and followed
    by another.  And for the key ["constructor"], of which the store holds
    nothing, the function of the API module returns no sequence but the
    member of [Object.prototype]. *)
Lemma getConversationHistory_returns_equal_identifiers :
  let st :=
    store (sys_state (exec ApiModule stoppedClock
                        [Send (js "a") (js "1"); Send (js "b") (js "1")])) in
  let page :=
    Demo.run stoppedClock
      [Demo.DoSubmit (js "a"); Demo.DoSettle 0 (FetchRejected []); Demo.DoSubmit (js "b")] in
  (∃ l, Api.getConversationHistory (js "1") st = Array l
        ∧ (λ m, (id m, content m)) <$> l
          = [(js "system-init-1", Api.greeting); (js "user-1700000000000", js "a");
             (js "user-1700000000000", js "b")])
  ∧ (λ m, (id m, content m))
      <$> Demo.getConversationHistory (Demo.DEFAULT_CONVERSATION_ID stoppedClock)
            (store (Demo.state page))
    = [(js "system-init-0b7e2c5a", Demo.greeting); (js "user-1700000000000", js "a");
       (js "system-error-1700000000000", fallbackReply);
       (js "user-1700000000000", js "b")]
  ∧ mockConversations st !! js "constructor" = None
  ∧ Api.getConversationHistory (js "constructor") st = Member (js "constructor").
Proof. split; [eexists; split; [by vm_compute | by vm_compute] | by vm_compute]. Qed.

(** C6 (amended).  [getConversationHistory] of the API module returns what
    the key reads: the stored history as it is, the empty sequence for a key
    that is not in the store and names no member of [Object.prototype], and
    for a key that is not in the store and names such a member, the member.
    Where it returns a sequence, the copy of the demo page returns the same;
    and the history as the page shows it, that is the filter and the sort of
    [bubbleItems] applied to it, is sorted by timestamp, earliest first; no
    two of its entries have the same identifier; it holds, of the stored
    messages of equal identifier, exactly the first; and producing it leaves
    the stored array, handed out by reference, as it was. *)
Theorem shown_history_sorted_distinct_and_fresh st cid (stored : list Message)
    (h : gmap nat (list Message)) (r : nat) :
  Api.getConversationHistory cid st = Array stored →
  h !! r = Some stored →
  let shown := Demo.shownMessages stored in
  Sorted (λ a b, timestamp a ≤ timestamp b) shown
  ∧ NoDup (id <$> shown)
  ∧ shown ≡ₚ keepFirst [] stored
  ∧ (∀ m, m ∈ shown ↔
       ∃ i, stored !! i = Some m
            ∧ ∀ j m', (j < i)%nat → stored !! j = Some m' → id m' ≠ id m)
  ∧ (Demo.showMessages h r).2 !! (Demo.showMessages h r).1 = Some shown
  ∧ (Demo.showMessages h r).2 !! r = Some stored
  ∧ Demo.bubbleItems false stored
    = (λ msg, Demo.Bubble (id msg) (content msg) (isUser msg) (loading msg)) <$> shown
  ∧ Demo.getConversationHistory cid st = stored
  ∧ (∀ l, mockConversations st !! cid = Some l → stored = l)
  ∧ (mockConversations st !! cid = None → stored = [] ∧ cid ∉ Object_prototype)
  ∧ (∀ (key : jsstring) st',
       Api.getConversationHistory key st'
       = match mockConversations st' !! key with
         | Some l => Array l
         | None => if bool_decide (key ∈ Object_prototype) then Member key else Array []
         end).
Proof.
  intros Hget Hr shown.
  assert (Hall : ∀ (key : jsstring) st',
            Api.getConversationHistory key st'
            = match mockConversations st' !! key with
              | Some l => Array l
              | None => if bool_decide (key ∈ Object_prototype) then Member key
                        else Array []
              end).
  { intros key st'. unfold Api.getConversationHistory, read, inheritedKey.
    destruct (mockConversations st' !! key); [done|]. by case_bool_decide. }
  assert (Hperm : shown ≡ₚ keepFirst [] stored).
  { unfold shown, Demo.shownMessages.
    by rewrite sortByTimestamp_Permutation, uniqueById_keepFirst. }
  destruct (showMessages_heap h r stored Hr) as (Hsame & Hnew & _).
  split; [apply sortByTimestamp_Sorted|]. split; [|split; [done|split]].
  - rewrite Hperm. apply keepFirst_NoDup.
  - intros m. rewrite Hperm, keepFirst_first. split.
    + by intros [_ ?].
    + intros ?. split; [apply not_elem_of_nil | done].
  - split; [done|]. split; [done|]. split; [done|].
    rewrite Hall in Hget. unfold Demo.getConversationHistory.
    destruct (mockConversations st !! cid) as [l|].
    + injection Hget as ->. split; [done|]. split; [by intros ? [= ->] | done].
    + case_bool_decide as Hin; [done|]. injection Hget as <-.
      split; [done|]. split; [done|]. by split.
Qed.

(** C6 at a history stored out of order and with a repeated identifier. *)
Lemma shown_history_of_shuffled_store :
  let late := mkMessage (js "user-2") (js "b") true 2000 None in
  let early := mkMessage (js "user-1") (js "a") true 1000 None in
  let again := mkMessage (js "user-2") (js "c") true 500 None in
  let st := mkStore {[ js "1" := [late; early; again] ]} ∅ in
  let h : gmap nat (list Message) := {[ 0%nat := [late; early; again] ]} in
  let stored := [late; early; again] in
  let shown := Demo.shownMessages stored in
  shown = [early; late]
  ∧ Sorted (λ a b, timestamp a ≤ timestamp b) shown
  ∧ NoDup (id <$> shown)
  ∧ shown ≡ₚ keepFirst [] stored
  ∧ (∀ m, m ∈ shown ↔
       ∃ i, stored !! i = Some m
            ∧ ∀ j m', (j < i)%nat → stored !! j = Some m' → id m' ≠ id m)
  ∧ (Demo.showMessages h 0).2 !! (Demo.showMessages h 0).1 = Some shown
  ∧ (Demo.showMessages h 0).2 !! 0%nat = Some stored
  ∧ Demo.bubbleItems false stored
    = (λ msg, Demo.Bubble (id msg) (content msg) (isUser msg) (loading msg)) <$> shown
  ∧ Demo.getConversationHistory (js "1") st = stored
  ∧ (∀ l, mockConversations st !! js "1" = Some l → stored = l)
  ∧ (mockConversations st !! js "1" = None → stored = [] ∧ js "1" ∉ Object_prototype)
  ∧ (∀ (key : jsstring) st',
       Api.getConversationHistory key st'
       = match mockConversations st' !! key with
         | Some l => Array l
         | None => if bool_decide (key ∈ Object_prototype) then Member key else Array []
         end).
Proof.
  intros late early again st h stored shown. split; [by vm_compute|].
  apply (shown_history_sorted_distinct_and_fresh st (js "1") stored h 0%nat).
  - reflexivity.
  - reflexivity.
Defined.


(** ** Sessions, send after send *)

Lemma returnedSession_failure o (why : jsstring) : Failure o why → returnedSession o = None.
Proof.
  intros [why'|status bd Hst|status why' Hst]; simpl; [done| |done].
  destruct bd as [|data_reply [sid|]]; try done.
  destruct (response_ok status) eqn:Hok; [|done]. by apply response_ok_spec in Hok.
Qed.

Lemma afterFetch_sessions E c o s :
  sessionIdMap (store (afterFetch E c o s).2)
  = updateSession c (returnedSession o) (sessionIdMap (store s)).
Proof.
  destruct (outcome_cases o) as [[why Hf]|(status & data_reply & sid & Hst & ->)].
  - rewrite (afterFetch_failure _ _ _ _ _ Hf), (returnedSession_failure _ _ Hf).
    unfold onError. by destruct (push _ _ _).
  - assert (Hret : updateSession c
                     (returnedSession (FetchResponse status (BodyJson data_reply sid)))
                     (sessionIdMap (store s))
                   = updateSession c sid (sessionIdMap (store s))).
    { unfold returnedSession. rewrite (proj2 (response_ok_spec status) Hst).
      destruct sid as [sid|]; [|done]. unfold updateSession.
      destruct (truthy sid) eqn:Ht; cbn [andb]; by rewrite ?Ht. }
    rewrite Hret.
    destruct (mockConversations (store s) !! call_conversationId c) as [l|] eqn:Hl.
    + by rewrite (afterFetch_success _ _ _ _ _ _ _ Hst Hl).
    + apply response_ok_spec in Hst. unfold afterFetch, push. rewrite Hst, Hl.
      cbn [negb]. by rewrite onError_absent.
Qed.

Lemma updateSession_other c (data_session_id : option jsstring) sessions (other : jsstring) :
  other ≠ call_conversationId c →
  updateSession c data_session_id sessions !! other = sessions !! other.
Proof.
  intros Hne. unfold updateSession. destruct data_session_id as [sid|]; [|done].
  destruct (truthy sid && negb (bool_decide (sid = call_sessionId c))); [|done].
  by rewrite lookup_insert_ne.
Qed.

Lemma returnedSession_truthy o sid : returnedSession o = Some sid → truthy sid = true.
Proof.
  destruct o as [why|status [why|data_reply [sid'|]]]; simpl; try done.
  destruct (response_ok status); simpl; [|done].
  destruct (truthy sid') eqn:Ht; [|done]. by intros [= <-].
Qed.


(** The state either send function leaves at its [await], with the session
    it has resolved. *)
Lemma request_session v E message cid s :
  ∃ req sid k' (added : list Message),
    request v E message cid s
    = (req, mkCall message cid sid,
       mkState (mkStore (<[cid := history cid s ++ added]> (mockConversations (store s)))
                        (<[cid := sid]> (sessionIdMap (store s))))
               k')
    ∧ field (js "session_id") (body req) = Some sid
    ∧ truthy sid = true
    ∧ (∀ bound : jsstring,
         sessionIdMap (store s) !! cid = Some bound → bound ≠ [] → sid = bound)
    ∧ (added = [] ∧ history cid s ≠ [] ∨ added = [userMessageOf E message (tick s)]).
Proof.
  destruct (request_spec v E message cid s) as (req & k1 & k' & added & -> & Hf & Ha & _).
  destruct (resolveSession_spec E cid (sessionIdMap (store s)) k1) as (sid & k2 & Hr & Ht & _).
  exists req, (resolveSession E cid (sessionIdMap (store s)) k1).1.1, k', added.
  split; [by rewrite Hr|]. split; [done|]. split; [by rewrite Hr|]. split; [|done].
  intros bound Hb Hne%truthy_spec. by rewrite (resolveSession_bound _ _ _ _ _ Hb Hne).
Qed.


(** ** What a send leaves alone *)

(** X4.  A send touches its own conversation only: the history and the
    session binding of every other conversation are what they were, whether
    the send runs to its [await], from its [await] on, in whatever state the
    fetch settles, or from start to finish. *)
Theorem send_leaves_other_conversations v E message cid o s :
  (∀ other : jsstring, other ≠ cid →
     history other (request v E message cid s).2 = history other s
     ∧ sessionIdMap (store (request v E message cid s).2) !! other
       = sessionIdMap (store s) !! other)
  ∧ (∀ c (other : jsstring), other ≠ call_conversationId c →
       history other (afterFetch E c o s).2 = history other s
       ∧ sessionIdMap (store (afterFetch E c o s).2) !! other
         = sessionIdMap (store s) !! other)
  ∧ (∀ other : jsstring, other ≠ cid →
       history other (send v E message cid o s).2 = history other s
       ∧ sessionIdMap (store (send v E message cid o s).2) !! other
         = sessionIdMap (store s) !! other).
Proof.
  assert (Hreq : ∀ other : jsstring, other ≠ cid →
     history other (request v E message cid s).2 = history other s
     ∧ sessionIdMap (store (request v E message cid s).2) !! other
       = sessionIdMap (store s) !! other).
  { intros other Hne.
    destruct (request_session v E message cid s) as (req & sid & k' & added & -> & _).
    unfold history. simpl. by rewrite !lookup_insert_ne. }
  assert (Hafter : ∀ c s0 (other : jsstring), other ≠ call_conversationId c →
       history other (afterFetch E c o s0).2 = history other s0
       ∧ sessionIdMap (store (afterFetch E c o s0).2) !! other
         = sessionIdMap (store s0) !! other).
  { intros c s0 other Hne. split.
    - destruct (afterFetch_convs E c o s0) as (m & _ & Hconvs). unfold history.
      rewrite Hconvs.
      destruct (mockConversations (store s0) !! call_conversationId c); [|done].
      by rewrite lookup_insert_ne.
    - rewrite afterFetch_sessions. by apply updateSession_other. }
  split; [done|]. split; [intros c; apply Hafter|].
  intros other Hne. rewrite send_unfold.
  destruct (Hafter (request v E message cid s).1.2 (request v E message cid s).2 other)
    as [-> ->]; [|by apply Hreq].
  destruct (request_session v E message cid s) as (req & sid & k' & added & -> & _).
  done.
Qed.


(** ** What the calls do to the store, with the clock *)

Lemma request_tick v E message cid s :
  (S (S (tick s)) < tick (request v E message cid s).2)%nat.
Proof.
  destruct v; simpl.
  - unfold Api.sendMessage_request. rewrite push_ensure.
    destruct (resolveSession_spec E cid (sessionIdMap (store s)) (S (S (tick s))))
      as (sid & k' & -> & _ & Hk). simpl. lia.
  - destruct (Demo_request_spec E message cid s) as (req & sid & k' & -> & _ & _ & Hk).
    pose proof (hasDuplicateMessage_tick E message (history cid s) (S (S (tick s)))).
    simpl. lia.
Qed.

Lemma request_change v E message cid s : Change E s (request v E message cid s).2.
Proof.
  pose proof (request_tick v E message cid s) as Hk.
  destruct (request_spec v E message cid s)
    as (req & k1 & k' & added & Heq & _ & [[-> Hne] | ->] & _);
    rewrite Heq in Hk |- *; simpl in Hk |- *.
  - apply change_none; simpl; [|lia]. rewrite app_nil_r. unfold history in *.
    destruct (mockConversations (store s) !! cid) eqn:Hl; [|done]. by apply insert_id.
  - eapply (change_push _ _ _ cid); simpl; [done|constructor|lia].
Qed.

Lemma afterFetch_tick E c o s : (S (tick s) < tick (afterFetch E c o s).2)%nat.
Proof.
  destruct (mockConversations (store s) !! call_conversationId c) as [l|] eqn:Hl.
  - destruct (afterFetch_present E c o s l Hl) as (r & m & sessions' & -> & _). simpl. lia.
  - destruct (outcome_cases o) as [[why Hf]|(status & r & sid' & Hst & ->)].
    + rewrite (afterFetch_failure _ _ _ _ _ Hf), (onError_absent _ _ _ _ Hl). simpl. lia.
    + apply response_ok_spec in Hst. unfold afterFetch, push. rewrite Hst, Hl.
      cbn [negb]. rewrite onError_absent by done. simpl. lia.
Qed.

Lemma afterFetch_change E c o s : Change E s (afterFetch E c o s).2.
Proof.
  pose proof (afterFetch_tick E c o s) as Hk.
  destruct (mockConversations (store s) !! call_conversationId c) as [l|] eqn:Hl.
  - destruct (afterFetch_present E c o s l Hl) as (r & m & sessions' & Heq & _ & _ & Hm).
    rewrite Heq in Hk |- *.
    eapply (change_push _ _ _ (call_conversationId c) m); simpl.
    + unfold history. by rewrite Hl.
    + destruct Hm as [[-> _]|[-> _]]; constructor.
    + done.
  - destruct (afterFetch_convs E c o s) as (m & _ & Hconvs). rewrite Hl in Hconvs.
    apply change_none; [done | lia].
Qed.

Lemma createNewConversation_change E s :
  Change E s (Api.createNewConversation E s).2
  ∧ Change E s (Demo.createNewConversation E s).2.
Proof.
  split; eapply change_create; simpl; try done; try lia; apply built_greeting.
Qed.

Lemma step_change v E sys op : Change E (sys_state sys) (sys_state (step v E sys op)).
Proof.
  destruct op as [message cid|i o| |cid]; simpl.
  - destruct (readsInherited cid (store (sys_state sys)));
      [apply change_none; simpl; [done | lia]|].
    pose proof (request_change v E message cid (sys_state sys)) as Hc.
    by destruct (request v E message cid (sys_state sys)) as [[req c] s1].
  - destruct (pending sys !! i) as [c|]; [apply afterFetch_change | by apply change_none].
  - destruct v; apply createNewConversation_change.
  - destruct v; simpl; [|by apply change_none].
    unfold Api.deleteConversation.
    destruct (read cid (mockConversations (store (sys_state sys)))); simpl.
    + by eapply change_delete.
    + by apply change_none.
Qed.

(** ** The shape of the stored messages *)

Lemma builtAt_wellFormed E k m : builtAt E k m → wellFormed m.
Proof.
  intros [text|text| |x text]; (split; [done|]); simpl.
  - split; [|done]. intros _. by eexists.
  - split; [done|]. intros [t Ht]. js_literals. discriminate.
  - split; [done|]. intros [t Ht]. js_literals. discriminate.
  - split; [done|]. intros [t Ht]. js_literals. discriminate.
Qed.

Lemma Change_storeAll (P : Message → Prop) E s s' :
  (∀ k m, builtAt E k m → P m) →
  Change E s s' → storeAll P (store s) → storeAll P (store s').
Proof.
  intros HP [Hsame _|cid m Hpush Hm _|newId m Hnew Hm _|cid Hdel _] Hinv cid' l;
    unfold storeAll in Hinv.
  - rewrite Hsame. apply Hinv.
  - rewrite Hpush. destruct (decide (cid' = cid)) as [->|Hne].
    + rewrite lookup_insert_eq. intros [= <-]. apply Forall_app. split.
      * unfold history. destruct (mockConversations (store s) !! cid) eqn:Hl; [|constructor].
        by apply (Hinv cid).
      * apply Forall_singleton. by eapply HP.
    + rewrite lookup_insert_ne by done. apply Hinv.
  - rewrite Hnew. destruct (decide (cid' = newId)) as [->|Hne].
    + rewrite lookup_insert_eq. intros [= <-]. apply Forall_singleton. by eapply HP.
    + rewrite lookup_insert_ne by done. apply Hinv.
  - rewrite Hdel. destruct (decide (cid' = cid)) as [->|Hne].
    + by rewrite lookup_delete_eq.
    + rewrite lookup_delete_ne by done. apply Hinv.
Qed.

Lemma boot_wellFormed v E : storeAll wellFormed (store (sys_state (boot v E))).
Proof.
  intros cid l. destruct v; simpl; intros [_ <-]%lookup_singleton_Some;
    apply Forall_singleton; (split; [done|]); simpl;
    (split; [done|]); intros [t Ht]; js_literals; discriminate.
Qed.

(** X5.  In every state either store can be brought to, by any sequence of
    sends, settled fetches, creations and deletions, no stored message
    carries the [loading] flag, and a stored message is a user message
    exactly when its identifier is [user-] followed by a number. *)
Theorem stored_messages_well_formed v E (ops : list Op) :
  storeAll wellFormed (store (sys_state (exec v E ops))).
Proof.
  induction ops as [|op ops IH] using rev_ind; [apply boot_wellFormed|].
  rewrite exec_snoc. eapply Change_storeAll; [|apply step_change|done].
  intros k m. apply builtAt_wellFormed.
Qed.


(** ** Histories in the order of time *)

Lemma builtAt_timestamp E k m : builtAt E k m → timestamp m = Date_now E (S k).
Proof. by intros [text|text| |x text]. Qed.

Lemma chronological_snoc l m :
  chronological l → Forall (λ m', timestamp m' ≤ timestamp m) l → chronological (l ++ [m]).
Proof.
  unfold chronological. induction 1 as [|x l Hs IH Hhd]; intros Hall; simpl.
  - repeat constructor.
  - apply Forall_cons in Hall as [Hx Hall]. constructor; [by apply IH|].
    destruct Hhd; simpl; by constructor.
Qed.

Lemma boot_chronological v E : chronologicalStore E (sys_state (boot v E)).
Proof.
  intros cid l. destruct v; simpl; intros [_ <-]%lookup_singleton_Some;
    (split; [repeat constructor|]); apply Forall_singleton; simpl.
  - exists 0%nat. split; lia.
  - exists 1%nat. split; lia.
Qed.

Lemma Change_chronological E s s' :
  monotoneClock E → Change E s s' → chronologicalStore E s → chronologicalStore E s'.
Proof.
  intros Hmono Hch Hinv.
  assert (Hlater : ∀ l, (tick s ≤ tick s')%nat →
            Forall (λ m, ∃ j : nat, (j < tick s)%nat ∧ timestamp m ≤ Date_now E j) l →
            Forall (λ m, ∃ j : nat, (j < tick s')%nat ∧ timestamp m ≤ Date_now E j) l).
  { intros l Hk Hl. eapply Forall_impl; [exact Hl|].
    intros m (j & Hj & Hm). exists j. split; [lia | done]. }
  assert (Hnew : ∀ m, builtAt E (tick s) m → (S (tick s) < tick s')%nat →
            ∃ j : nat, (j < tick s')%nat ∧ timestamp m ≤ Date_now E j).
  { intros m Hm Hk. exists (S (tick s)). split; [done|].
    rewrite (builtAt_timestamp _ _ _ Hm). lia. }
  destruct Hch as [Hsame Hk|cid m Hpush Hm Hk|newId m Hnew' Hm Hk|cid Hdel Hk];
    intros cid' l; unfold chronologicalStore in Hinv.
  - rewrite Hsame. intros [? ?]%Hinv. split; [done | by apply Hlater].
  - rewrite Hpush. destruct (decide (cid' = cid)) as [->|Hne].
    + rewrite lookup_insert_eq. intros [= <-].
      assert (Hold : chronological (history cid s)
                     ∧ Forall (λ m, ∃ j : nat, (j < tick s)%nat ∧ timestamp m ≤ Date_now E j)
                         (history cid s)).
      { unfold history. destruct (mockConversations (store s) !! cid) as [l|] eqn:Hl.
        - by apply (Hinv cid).
        - split; constructor. }
      destruct Hold as [Hsorted Hbelow]. split.
      * apply chronological_snoc; [done|].
        eapply Forall_impl; [exact Hbelow|]. intros m' (j & Hj & Hm').
        rewrite (builtAt_timestamp _ _ _ Hm).
        etransitivity; [exact Hm'|]. apply Hmono. lia.
      * apply Forall_app. split; [apply Hlater; [lia | done]|].
        apply Forall_singleton. by apply Hnew.
    + rewrite lookup_insert_ne by done. intros [? ?]%Hinv.
      split; [done | apply Hlater; [lia | done]].
  - rewrite Hnew'. destruct (decide (cid' = newId)) as [->|Hne].
    + rewrite lookup_insert_eq. intros [= <-].
      split; [repeat constructor|]. apply Forall_singleton. by apply Hnew.
    + rewrite lookup_insert_ne by done. intros [? ?]%Hinv.
      split; [done | apply Hlater; [lia | done]].
  - rewrite Hdel. destruct (decide (cid' = cid)) as [->|Hne].
    + by rewrite lookup_delete_eq.
    + rewrite lookup_delete_ne by done. intros [? ?]%Hinv.
      split; [done | by apply Hlater].
Qed.

Lemma exec_chronological v E (ops : list Op) :
  monotoneClock E → chronologicalStore E (sys_state (exec v E ops)).
Proof.
  intros Hmono. induction ops as [|op ops IH] using rev_ind; [apply boot_chronological|].
  rewrite exec_snoc. eapply Change_chronological; [done|apply step_change|done].
Qed.

(** X6.  Under a clock that never goes back, in every state either store
    can be brought to, by any sequence of sends, settled fetches, creations
    and deletions, every history is in the order of its timestamps: the order
    in which the messages were pushed is the order of time. *)
Theorem histories_chronological v E (ops : list Op) (cid : jsstring) :
  monotoneClock E → chronological (history cid (sys_state (exec v E ops))).
Proof.
  intros Hmono. unfold history.
  destruct (mockConversations (store (sys_state (exec v E ops))) !! cid) as [l|] eqn:Hl.
  - by apply (exec_chronological v E ops Hmono cid l).
  - constructor.
Qed.

Lemma strictClock_monotone E : strictClock E → monotoneClock E.
Proof.
  intros Hs i j Hij. destruct (decide (i = j)) as [->|Hne]; [done|].
  apply Z.lt_le_incl, Hs. lia.
Qed.

(** X6 at a send answered and followed by another, under a clock that moves
    on. *)
Lemma histories_chronological_under_advancing_clock :
  chronological
    (history (js "1")
       (sys_state
          (exec ApiModule advancingClock
             [Send (js "a") (js "1"); Settle 0 (FetchRejected []); Send (js "b") (js "1")]))).
Proof.
  apply (histories_chronological ApiModule advancingClock
           [Send (js "a") (js "1"); Settle 0 (FetchRejected []); Send (js "b") (js "1")]
           (js "1")).
  intros i j Hij. simpl. lia.
Defined.

(** ** The page shows the history as it is stored *)

Lemma Array_sort_sorted {A} (compareFn : A → A → Z) (l : list A) :
  Sorted (inOrder compareFn) l → Array_sort compareFn l = l.
Proof.
  induction 1 as [|x l Hs IH Hhd]; [done|].
  change (Array_sort compareFn (x :: l)) with (sort_insert compareFn x (Array_sort compareFn l)).
  rewrite IH. destruct Hhd as [|y l' Hxy]; [done|]. simpl.
  unfold inOrder in Hxy. by rewrite (proj2 (Z.leb_le _ _) Hxy).
Qed.

Lemma keepFirst_distinct (seen : list jsstring) l :
  NoDup (id <$> l) → (∀ m, m ∈ l → id m ∉ seen) → keepFirst seen l = l.
Proof.
  revert seen. induction l as [|m l IH]; intros seen Hnd Hseen; [done|].
  rewrite fmap_cons in Hnd. apply NoDup_cons in Hnd as [Hm Hnd]. simpl.
  rewrite decide_False by (apply Hseen; by left). f_equal. apply IH; [done|].
  intros m' Hm'. rewrite elem_of_app, list_elem_of_singleton. intros [Hin|Heq].
  - by apply (Hseen m'); [right|].
  - apply Hm. rewrite <- Heq. apply list_elem_of_fmap. by exists m'.
Qed.

Lemma sortByTimestamp_chronological l : chronological l → Demo.sortByTimestamp l = l.
Proof.
  intros Hl. apply Array_sort_sorted. eapply Sorted_weaken; [|exact Hl].
  unfold inOrder. intros a b. lia.
Qed.

(** X7.  The filter and the sort of [bubbleItems] leave a history alone
    that is in the order of its timestamps and has no two messages of one
    identifier; so they leave alone what they have produced. *)
Theorem shownMessages_of_chronological_history l :
  (chronological l → NoDup (id <$> l) → Demo.shownMessages l = l)
  ∧ Demo.shownMessages (Demo.shownMessages l) = Demo.shownMessages l.
Proof.
  assert (Hid : ∀ l0, chronological l0 → NoDup (id <$> l0) → Demo.shownMessages l0 = l0).
  { intros l0 Hs Hnd. unfold Demo.shownMessages.
    rewrite uniqueById_keepFirst, keepFirst_distinct; [|done|].
    - by apply sortByTimestamp_chronological.
    - intros m _. apply not_elem_of_nil. }
  split; [apply Hid|]. apply Hid.
  - apply sortByTimestamp_Sorted.
  - unfold Demo.shownMessages.
    rewrite sortByTimestamp_Permutation, uniqueById_keepFirst. apply keepFirst_NoDup.
Qed.

(** ** Clock readings that never repeat *)

Lemma step_minted v E sys op :
  (minted (step v E sys op) = minted sys
   ∧ (tick (sys_state sys) ≤ tick (sys_state (step v E sys op)))%nat)
  ∨ (∃ cid p : jsstring,
       minted (step v E sys op) = (cid, p, Date_now E (tick (sys_state sys))) :: minted sys
       ∧ (tick (sys_state sys) < tick (sys_state (step v E sys op)))%nat).
Proof.
  destruct op as [message cid|i o| |cid]; simpl.
  - destruct (readsInherited cid (store (sys_state sys)));
      [left; simpl; split; [done | lia]|].
    right. pose proof (request_tick v E message cid (sys_state sys)) as Hk.
    destruct (request v E message cid (sys_state sys)) as [[req c] s1]. simpl in *.
    eexists _, _. split; [done | lia].
  - destruct (pending sys !! i) as [c|]; [right|by left]. simpl.
    pose proof (afterFetch_tick E c o (sys_state sys)).
    eexists _, _. split; [done | lia].
  - left. split; [done|]. destruct v; simpl; lia.
  - left. destruct v; simpl; (split; [done | lia]).
Qed.

Lemma exec_minted_distinct v E (ops : list Op) :
  strictClock E →
  NoDup (minted (exec v E ops))
  ∧ Forall (λ stamp, ∃ j : nat, (j < tick (sys_state (exec v E ops)))%nat
                                ∧ stamp.2 = Date_now E j)
      (minted (exec v E ops)).
Proof.
  intros Hstrict. induction ops as [|op ops [Hnd Hbelow]] using rev_ind.
  { split; [apply NoDup_nil_2 | constructor]. }
  rewrite exec_snoc.
  destruct (step_minted v E (exec v E ops) op) as [[-> Hk]|(cid & p & -> & Hk)].
  - split; [done|]. eapply Forall_impl; [exact Hbelow|].
    intros stamp (j & Hj & Hs). exists j. split; [lia | done].
  - split.
    + apply NoDup_cons. split; [|done]. intros Hin.
      rewrite Forall_forall in Hbelow. destruct (Hbelow _ Hin) as (j & Hj & Heq).
      simpl in Heq. pose proof (Hstrict j _ Hj). lia.
    + apply Forall_cons. split; [by eexists|].
      eapply Forall_impl; [exact Hbelow|].
      intros stamp (j & Hj & Hs). exists j. split; [lia | done].
Qed.

(** X8.  Under a clock that has moved on at every reading, in every state
    either store can be brought to, the history of a conversation is shown
    as it is stored: the filter of [bubbleItems] drops no message and its
    sort moves none. *)
Theorem stored_history_shown_unchanged v E (ops : list Op) (cid : jsstring) :
  strictClock E →
  Demo.shownMessages (history cid (sys_state (exec v E ops)))
  = history cid (sys_state (exec v E ops))
  ∧ NoDup (id <$> history cid (sys_state (exec v E ops))).
Proof.
  intros Hstrict.
  assert (Hnd : NoDup (id <$> history cid (sys_state (exec v E ops)))).
  { unfold history.
    destruct (mockConversations (store (sys_state (exec v E ops))) !! cid) as [l|] eqn:Hl.
    - apply (exec_distinctIds v E ops (proj1 (exec_minted_distinct v E ops Hstrict)) cid l Hl).
    - apply NoDup_nil_2. }
  split; [|done].
  assert (Hch : chronological (history cid (sys_state (exec v E ops)))).
  { unfold history.
    destruct (mockConversations (store (sys_state (exec v E ops))) !! cid) as [l|] eqn:Hl.
    - by apply (exec_chronological v E ops (strictClock_monotone E Hstrict) cid l).
    - constructor. }
  unfold Demo.shownMessages.
  rewrite uniqueById_keepFirst, keepFirst_distinct; [|done|].
  - by apply sortByTimestamp_chronological.
  - intros m _. apply not_elem_of_nil.
Qed.

(** X8 on the demo page, at a send answered and followed by another. *)
Lemma stored_history_shown_unchanged_under_advancing_clock :
  let E := advancingClock in
  let l := history (Demo.DEFAULT_CONVERSATION_ID E)
             (sys_state
                (exec DemoPage E
                   [Send (js "a") (Demo.DEFAULT_CONVERSATION_ID E);
                    Settle 0 (FetchRejected []);
                    Send (js "b") (Demo.DEFAULT_CONVERSATION_ID E)])) in
  Demo.shownMessages l = l ∧ NoDup (id <$> l).
Proof.
  intros E l.
  apply (stored_history_shown_unchanged DemoPage E
           [Send (js "a") (Demo.DEFAULT_CONVERSATION_ID E); Settle 0 (FetchRejected []);
            Send (js "b") (Demo.DEFAULT_CONVERSATION_ID E)]
           (Demo.DEFAULT_CONVERSATION_ID E)).
  intros i j Hij. simpl. lia.
Defined.


(** ** Histories only grow *)

Lemma step_prefix v E sys op (cid : jsstring) :
  isMessaging op = true →
  history cid (sys_state sys) `prefix_of` history cid (sys_state (step v E sys op)).
Proof.
  assert (Hins : ∀ (key : jsstring) (added : list Message) convs,
            default [] (convs !! cid)
            `prefix_of` default [] (<[key := default [] (convs !! key) ++ added]> convs !! cid)).
  { intros key added convs. destruct (decide (cid = key)) as [->|Hne].
    - rewrite lookup_insert_eq. simpl. by apply prefix_app_r.
    - by rewrite lookup_insert_ne. }
  destruct op as [message cid'|i o| |cid']; simpl; try done; intros _.
  - destruct (readsInherited cid' (store (sys_state sys))); [done|].
    destruct (request_spec v E message cid' (sys_state sys))
      as (req & k1 & k' & added & -> & _). unfold history. simpl. apply Hins.
  - destruct (pending sys !! i) as [c|]; [|done]. simpl.
    destruct (afterFetch_convs E c o (sys_state sys)) as (m & _ & Hconvs).
    unfold history. rewrite Hconvs.
    destruct (mockConversations (store (sys_state sys)) !! call_conversationId c)
      as [l|] eqn:Hl; [|done].
    pose proof (Hins (call_conversationId c) [m] (mockConversations (store (sys_state sys))))
      as Hp. by rewrite Hl in Hp.
Qed.

(** X9.  Sends and settling fetches only append: whatever sends are made
    and whatever fetches settle, in whatever order and with whatever
    outcome, the history a conversation had is the beginning of the history
    it has afterwards.  No stored message is changed, moved or removed by
    them. *)
Theorem sends_only_append v E (ops more : list Op) (cid : jsstring) :
  Forall (λ op, isMessaging op = true) more →
  history cid (sys_state (exec v E ops))
  `prefix_of` history cid (sys_state (exec v E (ops ++ more))).
Proof.
  induction more as [|op more IH] using rev_ind; intros Hall.
  - by rewrite app_nil_r.
  - apply Forall_app in Hall as [Hmore Hop]. rewrite Forall_singleton in Hop.
    rewrite app_assoc, exec_snoc. etransitivity; [by apply IH|].
    apply step_prefix. exact Hop.
Qed.

(** X9 at a second send and a settling fetch after a first send. *)
Lemma sends_only_append_after_a :
  history (js "1") (sys_state (exec ApiModule stoppedClock [Send (js "a") (js "1")]))
  `prefix_of`
  history (js "1")
    (sys_state
       (exec ApiModule stoppedClock
          ([Send (js "a") (js "1")]
           ++ [Send (js "b") (js "1"); Settle 0 (FetchRejected [])]))).
Proof.
  apply (sends_only_append ApiModule stoppedClock [Send (js "a") (js "1")]
           [Send (js "b") (js "1"); Settle 0 (FetchRejected [])] (js "1")).
  apply Forall_cons. split; [reflexivity|]. apply Forall_singleton. reflexivity.
Defined.

(** ** The session bindings over time *)

Lemma step_sessions v E sys op :
  sessionIdMap (store (sys_state (step v E sys op))) = sessionIdMap (store (sys_state sys))
  ∨ ∃ cid sid : jsstring,
      sid ≠ []
      ∧ sessionIdMap (store (sys_state (step v E sys op)))
        = <[cid := sid]> (sessionIdMap (store (sys_state sys))).
Proof.
  destruct op as [message cid|i o| |cid]; simpl.
  - destruct (readsInherited cid (store (sys_state sys))); [by left|].
    right. destruct (request_session v E message cid (sys_state sys))
      as (req & sid & k' & added & -> & _ & Ht%truthy_spec & _). simpl. by exists cid, sid.
  - destruct (pending sys !! i) as [c|]; [|by left]. simpl.
    rewrite afterFetch_sessions.
    destruct (returnedSession o) as [sid|] eqn:Hr; [|by left].
    apply returnedSession_truthy in Hr. unfold updateSession. rewrite Hr. simpl.
    case_bool_decide; simpl; [by left|]. right. exists (call_conversationId c), sid.
    split; [by apply truthy_spec | done].
  - left. by destruct v.
  - left. destruct v; [|done]. simpl. unfold Api.deleteConversation.
    by destruct (read cid (mockConversations (store (sys_state sys)))).
Qed.

Lemma step_keeps_binding v E sys op (cid : jsstring) :
  is_Some (sessionIdMap (store (sys_state sys)) !! cid) →
  is_Some (sessionIdMap (store (sys_state (step v E sys op))) !! cid).
Proof.
  intros Hb. destruct (step_sessions v E sys op) as [->|(cid' & sid & _ & ->)]; [done|].
  destruct (decide (cid = cid')) as [->|Hne];
    [rewrite lookup_insert_eq; by eexists | by rewrite lookup_insert_ne].
Qed.

Lemma exec_pending_bound v E (ops : list Op) c :
  c ∈ pending (exec v E ops) →
  is_Some (sessionIdMap (store (sys_state (exec v E ops))) !! call_conversationId c).
Proof.
  induction ops as [|op ops IH] using rev_ind; [by intros ?%elem_of_nil|].
  rewrite exec_snoc. intros Hin.
  destruct (decide (c ∈ pending (exec v E ops))) as [Hold|Hnew].
  { by apply step_keeps_binding, IH. }
  destruct op as [message cid|i o| |cid]; simpl in Hin |- *.
  - destruct (readsInherited cid (store (sys_state (exec v E ops)))); [done|].
    destruct (request_session v E message cid (sys_state (exec v E ops)))
      as (req & sid & k' & added & Heq & _). rewrite Heq in Hin |- *. simpl in Hin |- *.
    apply elem_of_app in Hin as [?|Hc]; [done|].
    apply list_elem_of_singleton in Hc as ->. simpl.
    rewrite lookup_insert_eq. by eexists.
  - destruct (pending (exec v E ops) !! i) as [c'|] eqn:Hi; [|done].
    simpl in Hin. destruct Hnew. eapply elem_of_sublist; [done|]. apply sublist_delete.
  - done.
  - by destruct v.
Qed.

(** X10.  In every state either store can be brought to, by any sequence
    of sends, settled fetches, creations and deletions: no conversation is
    bound to the empty session identifier; the conversation of every send in
    flight is bound; and a conversation that is bound stays bound, whatever
    is called next, [deleteConversation] included. *)
Theorem session_bindings_never_empty_never_removed v E (ops : list Op) :
  map_Forall (λ _ sid, sid ≠ []) (sessionIdMap (store (sys_state (exec v E ops))))
  ∧ (∀ c, c ∈ pending (exec v E ops) →
          is_Some (sessionIdMap (store (sys_state (exec v E ops))) !! call_conversationId c))
  ∧ (∀ (more : list Op) (cid : jsstring),
       is_Some (sessionIdMap (store (sys_state (exec v E ops))) !! cid) →
       is_Some (sessionIdMap (store (sys_state (exec v E (ops ++ more)))) !! cid)).
Proof.
  split; [|split; [apply exec_pending_bound|]].
  - induction ops as [|op ops IH] using rev_ind.
    + destruct v; apply map_Forall_empty.
    + rewrite exec_snoc.
      destruct (step_sessions v E (exec v E ops) op) as [->|(cid & sid & Hne & ->)]; [done|].
      by apply map_Forall_insert_2.
  - intros more cid Hb. induction more as [|op more IH] using rev_ind.
    + by rewrite app_nil_r.
    + rewrite app_assoc, exec_snoc. by apply step_keeps_binding.
Qed.

(** ** The guard and time *)

Lemma hasDuplicateMessage_stale E message l k :
  (∀ msg (j : nat), msg ∈ l → isUser msg = true → content msg = message → (k ≤ j)%nat →
                    5000 ≤ Date_now E j - timestamp msg) →
  (Demo.hasDuplicateMessage E message l k).1 = false.
Proof.
  intros Hold. destruct (Demo.hasDuplicateMessage E message l k).1 eqn:Hd; [|done].
  apply hasDuplicateMessage_true in Hd as (msg & j & Hin & Hu & Hc & Hj & Hlt).
  pose proof (Hold msg j Hin Hu Hc Hj). lia.
Qed.

(** X11.  The guard of [apiSendMessage] is about time, and about user
    messages: a text is stored again when every user message of the same
    content in the history is stamped 5000 ms or more before the readings of
    the clock the guard takes, 5000 ms exactly included; messages that are
    not user messages do not count, whatever their content. *)
Theorem apiSendMessage_stores_again_after_5000ms E message cid o s :
  (∀ msg (j : nat), msg ∈ history cid s → isUser msg = true → content msg = message →
                    (S (S (tick s)) ≤ j)%nat → 5000 ≤ Date_now E j - timestamp msg) →
  ∃ reply_message : Message,
    history cid (Demo.apiSendMessage E message cid o s).2
    = history cid s ++ [userMessageOf E message (tick s); reply_message]
    ∧ isUser reply_message = false.
Proof.
  intros Hold.
  destruct (Demo_apiSendMessage_spec E message cid o s)
    as (r & rm & s' & Heq & Hh & _ & Hu & _).
  rewrite Heq. cbn [snd]. rewrite Hh, (hasDuplicateMessage_stale _ _ _ _ Hold).
  by exists rm.
Qed.

(** X11 at ["hi"] sent again 5000 ms after it was stored, next to a reply
    of the same content. *)
Lemma apiSendMessage_stores_again_at_5000ms :
  let E := mkEnv (λ _, 1700000005000) (λ _, 123456) (λ _, js "0b7e2c5a") (js "TypeError") in
  let s :=
    mkState
      (mkStore {[ js "1" := [mkMessage (js "user-1700000000000") (js "hi") true
                                       1700000000000 None;
                             mkMessage (js "system-1700000000001") (js "hi") false
                                       1700000004999 None] ]}
               ∅)
      0 in
  ∃ reply_message : Message,
    history (js "1") (Demo.apiSendMessage E (js "hi") (js "1") (FetchRejected []) s).2
    = history (js "1") s ++ [userMessageOf E (js "hi") (tick s); reply_message]
    ∧ isUser reply_message = false.
Proof.
  intros E s.
  apply (apiSendMessage_stores_again_after_5000ms E (js "hi") (js "1") (FetchRejected []) s).
  intros msg j Hin Hu _ _. unfold history, s in Hin. simpl in Hin.
  rewrite lookup_singleton_eq in Hin. simpl in Hin.
  apply elem_of_cons in Hin as [->|Hin].
  - simpl. lia.
  - apply list_elem_of_singleton in Hin as ->. discriminate.
Defined.


(** ** Creating a conversation *)

(** X12.  [createNewConversation] of the API module names the conversation
    after the reading of the clock: two calls return the same key exactly
    when their readings are equal.  Under the key the store then holds the
    greeting and nothing else, whatever it held there before; the other
    conversations and the session bindings are as they were.  The demo page
    does the same under the key [uuidv4] gives. *)
Theorem createNewConversation_resets_its_key E s :
  let key := (Api.createNewConversation E s).1 in
  let key' := (Demo.createNewConversation E s).1 in
  key = decimal (Date_now E (tick s))
  ∧ (∀ later : State,
       (Api.createNewConversation E later).1 = key
       ↔ Date_now E (tick later) = Date_now E (tick s))
  ∧ history key (Api.createNewConversation E s).2
    = [mkMessage (js "system-init-" ++ key) Api.newGreeting false
                 (Date_now E (S (tick s))) None]
  ∧ (∀ other : jsstring, other ≠ key →
       history other (Api.createNewConversation E s).2 = history other s)
  ∧ sessionIdMap (store (Api.createNewConversation E s).2) = sessionIdMap (store s)
  ∧ key' = uuidv4 E (tick s)
  ∧ history key' (Demo.createNewConversation E s).2
    = [mkMessage (js "system-init-" ++ key') Demo.newGreeting false
                 (Date_now E (S (tick s))) None]
  ∧ (∀ other : jsstring, other ≠ key' →
       history other (Demo.createNewConversation E s).2 = history other s)
  ∧ sessionIdMap (store (Demo.createNewConversation E s).2) = sessionIdMap (store s).
Proof.
  intros key key'. unfold key, key', history. cbn [Api.createNewConversation
    Demo.createNewConversation fst snd store mockConversations sessionIdMap].
  split; [done|]. split; [|split; [|split; [|split; [|split; [|split; [|split]]]]]].
  - intros later. split; [apply decimal_inj | by intros ->].
  - by rewrite lookup_insert_eq.
  - intros other Hne. by rewrite lookup_insert_ne.
  - done.
  - done.
  - by rewrite lookup_insert_eq.
  - intros other Hne. by rewrite lookup_insert_ne.
  - done.
Qed.

(** ** Listing the conversations: failure and lengths *)

Lemma summary_None (e : jsstring * list Message) : Api.summary e = None ↔ e.2 = [].
Proof.
  destruct e as [cid l]. unfold Api.summary. simpl.
  destruct (last l) eqn:Hlast.
  - split; [done|]. intros ->. done.
  - split; [|done]. intros _. by apply last_None.
Qed.


Lemma titleOf_length l (placeholder : jsstring) :
  (length (titleOf l placeholder) ≤ 23 `max` length placeholder)%nat.
Proof.
  unfold titleOf. destruct (filter (λ msg, isUser msg) l) as [|first rest]; [lia|].
  destruct (Nat.ltb_spec 20 (length (content first))).
  - unfold substring_to. rewrite length_app, length_take.
    change (length (js "...")) with 3%nat. lia.
  - lia.
Qed.

Lemma summary_lengths (e : jsstring * list Message) (item : Conversation.t) :
  Api.summary e = Some item →
  (length (Conversation.title item) ≤ 23)%nat
  ∧ (length (Conversation.lastMessage item) ≤ 33)%nat.
Proof.
  destruct e as [cid l]. intros Hs.
  assert (Hne : l ≠ []).
  { intros Hl. apply (summary_None (cid, l)) in Hl. congruence. }
  destruct (summary_nonempty cid l Hne) as (lastm & _ & Hs').
  assert (Hitem : item
                  = Conversation.mk cid
                      (derivedTitle l (Api.titlePrefix ++ substring_from_end 4 cid))
                      (snippet (content lastm)) (timestamp lastm)) by congruence.
  rewrite Hitem. cbn [Conversation.title Conversation.lastMessage]. split.
  - rewrite <- titleOf_derivedTitle.
    pose proof (titleOf_length l (Api.titlePrefix ++ substring_from_end 4 cid)) as Ht.
    assert (Hp : (length (Api.titlePrefix ++ substring_from_end 4 cid) ≤ 12)%nat).
    { rewrite length_app. unfold substring_from_end. rewrite length_drop.
      change (length Api.titlePrefix) with 8%nat. lia. }
    lia.
  - unfold snippet. rewrite length_app, length_take.
    pose proof (Nat.le_min_l 30 (length (content lastm))).
    case_decide;
      [change (length (js "...")) with 3%nat | change (length (@nil N)) with 0%nat]; lia.
Qed.

(** X14.  The summaries [getAllConversations] returns are short: a title
    has at most 23 characters, the text of the last message at most 33,
    however long the messages are.  The title [getTitleFromMessages] derives
    has at most 23 characters, or the length of its placeholder. *)
Theorem summaries_are_short (es : list (jsstring * list Message)) (cs : list Conversation.t) :
  Api.getAllConversations es = Some cs →
  Forall (λ item, (length (Conversation.title item) ≤ 23)%nat
                  ∧ (length (Conversation.lastMessage item) ≤ 33)%nat) cs
  ∧ (∀ l (key : jsstring),
       (length (Demo.getTitleFromMessages l key) ≤ 23 `max` (10 + length key))%nat).
Proof.
  intros Hcs. split.
  - unfold Api.getAllConversations in Hcs. apply fmap_Some in Hcs as (cs0 & Hcs0 & ->).
    apply mapM_Some in Hcs0. rewrite Array_sort_Permutation.
    apply Forall_forall. intros item Hin.
    destruct (Forall2_elem_of_right _ _ _ _ Hcs0 Hin) as (e & _ & He).
    by apply (summary_lengths e).
  - intros l key. pose proof (titleOf_length l (js "Native AI " ++ key)) as Ht.
    rewrite length_app in Ht. by change (length (js "Native AI ")) with 10%nat in Ht.
Qed.

(** X14 at a conversation whose only user message has 26 characters. *)
Lemma summaries_are_short_at_alphabet :
  let es := [(js "1", [mkMessage (js "user-1") (js "abcdefghijklmnopqrstuvwxyz") true 1000 None])] in
  let cs := [Conversation.mk (js "1") (js "abcdefghijklmnopqrst...")
               (js "abcdefghijklmnopqrstuvwxyz") 1000] in
  Forall (λ item, (length (Conversation.title item) ≤ 23)%nat
                  ∧ (length (Conversation.lastMessage item) ≤ 33)%nat) cs
  ∧ (∀ l (key : jsstring),
       (length (Demo.getTitleFromMessages l key) ≤ 23 `max` (10 + length key))%nat).
Proof.
  intros es cs. apply (summaries_are_short es cs). reflexivity.
Defined.

(** ** A send after the conversation was deleted *)

(** X15.  A send to a conversation that [deleteConversation] has removed
    starts the history of the conversation anew, with the user message and
    the reply, and carries on the session the conversation was bound to
    before it was deleted. *)
Theorem send_after_delete_continues_session E message cid o st k (bound : jsstring) :
  sessionIdMap st !! cid = Some bound → bound ≠ [] →
  let s := mkState (Api.deleteConversation cid st).2 k in
  history cid s = []
  ∧ field (js "session_id") (body (Api.sendMessage_request E message cid s).1.1)
    = Some bound
  ∧ ∃ reply_message : Message,
      history cid (Api.sendMessage E message cid o s).2
      = [userMessageOf E message k; reply_message]
      ∧ isUser reply_message = false.
Proof.
  intros Hb Hne s.
  assert (Hnil : history cid s = []).
  { unfold history, s, Api.deleteConversation. simpl.
    destruct (read cid (mockConversations st)) eqn:Hr; simpl;
      [by rewrite lookup_delete_eq|].
    destruct (mockConversations st !! cid) eqn:Hl; [|done].
    by rewrite (read_own _ _ _ Hl) in Hr. }
  assert (Hs : sessionIdMap (store s) !! cid = Some bound).
  { unfold s, Api.deleteConversation. simpl.
    by destruct (read cid (mockConversations st)). }
  split; [done|]. split.
  - destruct (Api_request_spec E message cid s) as (req & sid & k' & -> & Hf & Hr & _).
    simpl. rewrite Hf. f_equal. rewrite <- Hr.
    apply truthy_spec in Hne. by rewrite (resolveSession_bound _ _ _ _ _ Hs Hne).
  - destruct (Api_sendMessage_spec E message cid o s)
      as (r & rm & s' & -> & Hh & _ & Hu & _).
    exists rm. cbn [snd]. by rewrite Hh, Hnil.
Qed.

(** X15 at the conversation ["1"], deleted after ["hi"] was sent to it. *)
Lemma send_after_delete_continues_session_at_hi :
  let E := stoppedClock in
  let st := store (Api.sendMessage E (js "hi") (js "1") (FetchRejected []) (Api.initial E)).2 in
  let s := mkState (Api.deleteConversation (js "1") st).2 7 in
  history (js "1") s = []
  ∧ field (js "session_id") (body (Api.sendMessage_request E (js "again") (js "1") s).1.1)
    = Some (js "session-1700000000000-123456")
  ∧ ∃ reply_message : Message,
      history (js "1") (Api.sendMessage E (js "again") (js "1") (FetchRejected []) s).2
      = [userMessageOf E (js "again") 7; reply_message]
      ∧ isUser reply_message = false.
Proof.
  intros E st.
  apply (send_after_delete_continues_session E (js "again") (js "1") (FetchRejected []) st 7
           (js "session-1700000000000-123456")).
  - by vm_compute.
  - discriminate.
Defined.


(** ** Blank input *)

Lemma trimStart_blank (u : jsstring) : blank (trimStart u) ↔ blank u.
Proof.
  unfold blank. induction u as [|c u IH]; [done|]. simpl.
  destruct (isWhiteSpace c) eqn:Hc; [|done].
  rewrite IH, Forall_cons. tauto.
Qed.

Lemma trimStart_nil (u : jsstring) : trimStart u = [] ↔ blank u.
Proof.
  unfold blank. induction u as [|c u IH]; [done|]. simpl.
  destruct (isWhiteSpace c) eqn:Hc.
  - rewrite IH, Forall_cons. tauto.
  - split; [done|]. intros [Hc' _]%Forall_cons. congruence.
Qed.

Lemma trim_blank (u : jsstring) : truthy (trim u) = false ↔ blank u.
Proof.
  unfold truthy, trim. rewrite negb_false_iff, bool_decide_eq_true.
  rewrite <- (trimStart_blank u). split.
  - intros Hnil. apply (f_equal reverse) in Hnil. rewrite reverse_involutive in Hnil.
    apply trimStart_nil in Hnil. unfold blank in *. by rewrite Forall_reverse in Hnil.
  - intros Hb. assert (Hr : blank (reverse (trimStart u))).
    { unfold blank in *. by rewrite Forall_reverse. }
    apply trimStart_nil in Hr. by rewrite Hr.
Qed.

Lemma Demo_request_question E message cid s :
  field (js "question") (body (Demo.apiSendMessage_request E message cid s).1.1)
  = Some message
  ∧ call_conversationId (Demo.apiSendMessage_request E message cid s).1.2 = cid.
Proof.
  unfold Demo.apiSendMessage_request.
  destruct (Demo.hasDuplicateMessage _ _ _ _) as [dup k1].
  destruct (resolveSession _ _ _ _) as [[sid sessions'] k2].
  cbn [fst snd body call_conversationId field]. by rewrite bool_decide_eq_true_2.
Qed.

(** X16.  [onSubmit] does nothing exactly when the text is blank, that is
    made of characters [trim] removes, or a reply is awaited.  Otherwise it
    starts one send, for the active conversation, whose request carries the
    text as it was typed, not trimmed; it sets [isLoading], clears
    [isNewConversation], and leaves the active conversation and the list of
    the conversations as they are. *)
Theorem onSubmit_ignores_blank_text_and_overlap E text (a : Demo.App) :
  (Demo.onSubmit E text a = a ↔ blank text ∨ Demo.isLoading a = true)
  ∧ (¬ blank text → Demo.isLoading a = false →
     ∃ p : Demo.Submit,
       Demo.inFlight (Demo.onSubmit E text a) = Demo.inFlight a ++ [p]
       ∧ field (js "question") (body (Demo.submit_request p)) = Some text
       ∧ Demo.nextContent p = text
       ∧ call_conversationId (Demo.submit_call p) = Demo.activeKey a
       ∧ Demo.submit_activeKey p = Demo.activeKey a
       ∧ Demo.isLoading (Demo.onSubmit E text a) = true
       ∧ Demo.isNewConversation (Demo.onSubmit E text a) = false
       ∧ Demo.activeKey (Demo.onSubmit E text a) = Demo.activeKey a
       ∧ Demo.conversationsItems (Demo.onSubmit E text a) = Demo.conversationsItems a).
Proof.
  unfold Demo.onSubmit.
  destruct (truthy (trim text)) eqn:Ht; cbn [negb].
  - assert (Hnb : ¬ blank text).
    { intros Hb%trim_blank. congruence. }
    destruct (Demo.isLoading a) eqn:Hl.
    + split; [split; [by right | done] | done].
    + pose proof (Demo_request_question E text (Demo.activeKey a)
                    (mkState (store (Demo.state a)) (S (S (S (S (tick (Demo.state a))))))))
        as [Hq Hc].
      destruct (Demo.apiSendMessage_request _ _ _ _) as [[req c] s1].
      cbn [fst snd] in Hq, Hc. split.
      * split; [|intros [?|?]; done].
        intros Heq%(f_equal Demo.isLoading). simpl in Heq. congruence.
      * intros _ _. eexists.
        cbn [Demo.inFlight Demo.isLoading Demo.isNewConversation Demo.activeKey
             Demo.conversationsItems].
        split; [reflexivity|]. by repeat split.
  - apply trim_blank in Ht. split; [split; [by left | done] | done].
Qed.

(** ** The page, whatever its handlers have done *)

Lemma withoutPlaceholders_sub E (p : Demo.Submit) (prev : list Message) k m :
  m ∈ (Demo.withoutPlaceholders E p prev k).1 →
  m ∈ prev ∧ id m ≠ Demo.loadingMessageId p.
Proof.
  revert k. induction prev as [|msg rest IH]; intros k; simpl.
  - by intros ?%elem_of_nil.
  - case_bool_decide as Hid.
    + intros [? ?]%IH. split; [by right | done].
    + destruct (isUser msg && bool_decide (content msg = Demo.nextContent p)).
      * specialize (IH (S k)).
        destruct (Demo.withoutPlaceholders E p rest (S k)) as [kept k'].
        destruct ((Date_now E k - timestamp msg <? 3000)
                  && negb (bool_decide (id msg = Demo.userMessageId p))); simpl.
        -- intros [? ?]%IH. split; [by right | done].
        -- intros [->|[? ?]%IH]%elem_of_cons; [split; [by left | done]|].
           split; [by right | done].
      * specialize (IH k).
        destruct (Demo.withoutPlaceholders E p rest k) as [kept k']. simpl.
        intros [->|[? ?]%IH]%elem_of_cons; [split; [by left | done]|].
        split; [by right | done].
Qed.

Lemma placeholders_nil (l : list Message) :
  (∀ m, m ∈ l → loading m ≠ Some true) → placeholders l = [].
Proof.
  intros Hno. unfold placeholders. induction l as [|m l IH]; [done|].
  rewrite filter_cons, decide_False by (apply Hno; by left).
  apply IH. intros m' Hm'. apply Hno. by right.
Qed.

Lemma placeholders_of_stored (st : Store) (key : jsstring) :
  storeAll (λ m, loading m = None) st →
  ∀ m, m ∈ default [] (mockConversations st !! key) → loading m ≠ Some true.
Proof.
  intros Hst m Hin. destruct (mockConversations st !! key) as [l|] eqn:Hl; simpl in Hin.
  - specialize (Hst key l Hl). rewrite Forall_forall in Hst.
    rewrite (Hst m Hin). discriminate.
  - by apply elem_of_nil in Hin.
Qed.

(** A page that shows no placeholder and whose store, flag and sends in
    flight are as they should be. *)
Lemma pageInvariant_quiet (a : Demo.App) :
  loadingTracksFlight a →
  storeAll (λ m, loading m = None) (store (Demo.state a)) →
  flightsStored a →
  (∀ m, m ∈ Demo.messages a → loading m ≠ Some true) →
  pageInvariant a.
Proof.
  intros Hf Hst Hfs Hno. split; try done.
  - intros m Hm Hl. by destruct (Hno m Hm).
  - rewrite (placeholders_nil _ Hno). simpl. lia.
Qed.

Lemma showHistory_invariant (key : jsstring) (a : Demo.App) :
  pageInvariant a → pageInvariant (Demo.showHistory key a).
Proof.
  intros [Hf Hst Hp Hone Hfs]. apply pageInvariant_quiet; try done.
  by apply placeholders_of_stored.
Qed.

Lemma keeps_conversation (key newKey : jsstring) (l : list Message) convs :
  is_Some (convs !! key) → is_Some (<[newKey := l]> convs !! key).
Proof.
  intros Hk. destruct (decide (key = newKey)) as [->|Hne];
    [rewrite lookup_insert_eq; by eexists | by rewrite lookup_insert_ne].
Qed.

Lemma onSubmit_accepted E text (a : Demo.App) :
  Demo.onSubmit E text a = a
  ∨ (Demo.isLoading a = false
     ∧ ∃ s0 req c s1 (userMessage placeholder : Message) (uid : jsstring),
         s0 = mkState (store (Demo.state a)) (S (S (S (S (tick (Demo.state a))))))
         ∧ Demo.apiSendMessage_request E text (Demo.activeKey a) s0 = (req, c, s1)
         ∧ call_conversationId c = Demo.activeKey a
         ∧ loading userMessage = None
         ∧ loading placeholder = Some true
         ∧ Demo.onSubmit E text a
           = Demo.mkApp s1 true (Demo.activeKey a)
               (Demo.messages a ++ [userMessage; placeholder]) false
               (Demo.conversationsItems a)
               (Demo.inFlight a
                ++ [Demo.mkSubmit text (Demo.activeKey a) uid (id placeholder)
                      (Demo.conversationsItems a) req c])).
Proof.
  unfold Demo.onSubmit. destruct (negb (truthy (trim text))); [by left|].
  destruct (Demo.isLoading a) eqn:Hl; [by left|]. right. split; [done|].
  pose proof (Demo_request_question E text (Demo.activeKey a)
                (mkState (store (Demo.state a)) (S (S (S (S (tick (Demo.state a))))))))
    as [_ Hc].
  destruct (Demo.apiSendMessage_request _ _ _ _) as [[req c] s1] eqn:Hreq.
  cbn [fst snd] in Hc.
  exists (mkState (store (Demo.state a)) (S (S (S (S (tick (Demo.state a))))))), req, c, s1,
    (mkMessage (js "user-" ++ decimal (Date_now E (tick (Demo.state a)))) text true
               (Date_now E (S (tick (Demo.state a)))) None),
    (mkMessage (js "system-" ++ decimal (Date_now E (S (S (tick (Demo.state a)))))
                ++ js "-loading")
               [] false (Date_now E (S (S (S (tick (Demo.state a)))))) (Some true)),
    (js "user-" ++ decimal (Date_now E (tick (Demo.state a)))).
  by repeat split.
Qed.

Lemma onSubmit_invariant E text (a : Demo.App) :
  pageInvariant a → pageInvariant (Demo.onSubmit E text a).
Proof.
  intros Hinv.
  destruct (onSubmit_accepted E text a) as [->|Hacc]; [done|].
  destruct Hinv as [Hf Hst Hp Hone Hfs].
  destruct Hacc as (Hidle & s0 & req & c & s1 & um & pm & uid & Hs0 & Hreq & Hc & Hum & Hpm & ->).
  unfold loadingTracksFlight in Hf. rewrite Hidle in Hf.
  apply nil_length_inv in Hf.
  assert (Hquiet : ∀ m, m ∈ Demo.messages a → loading m ≠ Some true).
  { intros m Hm Hl. destruct (Hp m Hm Hl) as (p & Hp' & _). congruence. }
  split.
  - unfold loadingTracksFlight. simpl. by rewrite Hf.
  - simpl. pose proof (request_change DemoPage E text (Demo.activeKey a) s0) as Hch.
    simpl in Hch. rewrite Hreq in Hch. simpl in Hch.
    eapply (Change_storeAll _ E s0); [|exact Hch|by subst s0].
    intros k m [Hm _]%builtAt_wellFormed. exact Hm.
  - intros m. simpl. rewrite Hf. simpl.
    intros [Hm|[->| ->%list_elem_of_singleton]%elem_of_cons]%elem_of_app Hl.
    + by destruct (Hquiet m Hm).
    + congruence.
    + by eexists.
  - simpl. unfold placeholders. rewrite filter_app.
    fold (placeholders (Demo.messages a)). rewrite (placeholders_nil _ Hquiet).
    rewrite !filter_cons, filter_nil.
    rewrite decide_False by congruence. rewrite decide_True by done. simpl. lia.
  - intros p. simpl. rewrite Hf. simpl. intros ->%list_elem_of_singleton. simpl.
    split; [done|].
    destruct (request_spec DemoPage E text (Demo.activeKey a) s0)
      as (req' & k1 & k' & added & Heq' & _). simpl in Heq'. rewrite Hreq in Heq'.
    injection Heq' as _ _ ->. simpl. rewrite lookup_insert_eq. by eexists.
Qed.

Lemma onSubmit_settle_invariant E (p : Demo.Submit) o (a : Demo.App) :
  Demo.inFlight a = [] →
  storeAll (λ m, loading m = None) (store (Demo.state a)) →
  (∀ m, m ∈ Demo.messages a → loading m = Some true → id m = Demo.loadingMessageId p) →
  pageInvariant (Demo.onSubmit_settle E p o a).
Proof.
  intros Hnil Hst Hp.
  pose proof (afterFetch_change E (Demo.submit_call p) o (Demo.state a)) as Hch.
  assert (Hst' : storeAll (λ m, loading m = None)
                   (store (afterFetch E (Demo.submit_call p) o (Demo.state a)).2)).
  { eapply Change_storeAll; [|exact Hch|done].
    intros k m [Hm _]%builtAt_wellFormed. exact Hm. }
  unfold Demo.onSubmit_settle.
  destruct (afterFetch E (Demo.submit_call p) o (Demo.state a)) as [[r|why] s1].
  - pose proof (withoutPlaceholders_sub E p (Demo.messages a) (tick s1)) as Hsub.
    destruct (Demo.withoutPlaceholders E p (Demo.messages a) (tick s1)) as [kept k].
    simpl in Hsub.
    destruct (match message_id (metadata r) with
              | Some i => if truthy i then (i, k)
                          else (js "system-" ++ decimal (Date_now E k), S k)
              | None => (js "system-" ++ decimal (Date_now E k), S k)
              end) as [newId k2].
    apply pageInvariant_quiet.
    + unfold loadingTracksFlight. simpl. by rewrite Hnil.
    + exact Hst'.
    + intros q. simpl. rewrite Hnil. by intros ?%elem_of_nil.
    + intros m. simpl.
      intros [[Hm Hid]%Hsub| ->%list_elem_of_singleton]%elem_of_app Hl; [|done].
      by apply Hid, Hp.
  - apply pageInvariant_quiet.
    + unfold loadingTracksFlight. simpl. by rewrite Hnil.
    + exact Hst'.
    + intros q. simpl. rewrite Hnil. by intros ?%elem_of_nil.
    + intros m. simpl. intros [Hid Hm]%list_elem_of_filter Hl. by apply Hid, Hp.
Qed.

(** With the invariant, the submission that settles is the only one in
    flight. *)
Lemma pageInvariant_flight (a : Demo.App) (i : nat) (p : Demo.Submit) :
  pageInvariant a → Demo.inFlight a !! i = Some p →
  i = 0%nat ∧ Demo.inFlight a = [p] ∧ Demo.isLoading a = true.
Proof.
  intros [Hf _ _ _ _] Hi. unfold loadingTracksFlight in Hf.
  destruct (Demo.inFlight a) as [|q [|q' rest]]; simpl in *.
  - done.
  - destruct i; simpl in Hi; [|done]. injection Hi as ->.
    by destruct (Demo.isLoading a).
  - destruct (Demo.isLoading a); simpl in Hf; lia.
Qed.

Lemma act_invariant E (a : Demo.App) (ac : Demo.Action) :
  pageInvariant a → pageInvariant (Demo.act E a ac).
Proof.
  intros Hinv. destruct ac as [text|i o| |key]; simpl.
  - by apply onSubmit_invariant.
  - destruct (Demo.inFlight a !! i) as [p|] eqn:Hi; [|done].
    destruct (pageInvariant_flight a i p Hinv Hi) as (-> & Hone & _).
    destruct Hinv as [Hf Hst Hp Hnum Hfs].
    apply onSubmit_settle_invariant; simpl.
    + by rewrite Hone.
    + done.
    + intros m Hm Hl. destruct (Hp m Hm Hl) as (q & Hq & Hid). congruence.
  - destruct Hinv as [Hf Hst Hp Hnum Hfs].
    unfold Demo.onAddConversation, Demo.createNewConversation. lazy beta iota zeta.
    set (newId := uuidv4 E (tick (Demo.state a))).
    set (greetingMessage := mkMessage (js "system-init-" ++ newId) Demo.newGreeting false
                              (Date_now E (S (tick (Demo.state a)))) None).
    assert (Hst' : storeAll (λ m, loading m = None)
                     (mkStore (<[newId := [greetingMessage]]>
                                 (mockConversations (store (Demo.state a))))
                              (sessionIdMap (store (Demo.state a))))).
    { pose proof (proj2 (createNewConversation_change E (Demo.state a))) as Hch.
      eapply Change_storeAll in Hch; [exact Hch| |done].
      intros k m [Hm _]%builtAt_wellFormed. exact Hm. }
    match goal with
    | |- pageInvariant (if _ then ?a1 else _) => assert (Ha1 : pageInvariant a1)
    end.
    { apply pageInvariant_quiet; simpl.
      - done.
      - exact Hst'.
      - intros q Hq. destruct (Hfs q Hq) as [? ?]. split; [done|].
        by apply keeps_conversation.
      - by apply placeholders_of_stored. }
    case_bool_decide; [done | by apply showHistory_invariant].
  - unfold Demo.onConversationClick.
    case_bool_decide; [done | by apply showHistory_invariant].
Qed.

Lemma onPromptsItemClick_invariant E (key : jsstring) (description : option jsstring)
    (a : Demo.App) :
  pageInvariant a → pageInvariant (Demo.onPromptsItemClick E key description a).
Proof.
  intros Hinv. unfold Demo.onPromptsItemClick.
  destruct (Demo.isLoading a) eqn:Hl; [done|].
  destruct (if Demo.isNewConversation a then _ else None) as [module|].
  - destruct Hinv as [Hf Hst Hp Hnum Hfs].
    assert (Hset : ∀ text : jsstring,
      pageInvariant
        (Demo.mkApp (mkState (store (Demo.state a)) (S (S (tick (Demo.state a)))))
           false (Demo.activeKey a)
           [mkMessage (js "system-init-" ++ decimal (Date_now E (tick (Demo.state a))))
              text false (Date_now E (S (tick (Demo.state a)))) None]
           false (Demo.conversationsItems a) (Demo.inFlight a))).
    { intros text. apply pageInvariant_quiet; simpl; try done.
      - unfold loadingTracksFlight in *. simpl. by rewrite Hl in Hf.
      - by intros m ->%list_elem_of_singleton. }
    lazy zeta. repeat case_bool_decide; try apply Hset. by split.
  - destruct description as [d|]; [|done].
    destruct (truthy d); [by apply onSubmit_invariant | done].
Qed.

Lemma storeAll_impl (P Q : Message → Prop) st :
  (∀ m, P m → Q m) → storeAll P st → storeAll Q st.
Proof. intros HPQ Hst cid l Hl. eapply Forall_impl; [by apply (Hst cid)|done]. Qed.

Lemma runEvents_invariant E (evs : list Demo.Event) : pageInvariant (Demo.runEvents E evs).
Proof.
  induction evs as [|ev evs IH] using rev_ind.
  - apply showHistory_invariant. apply pageInvariant_quiet; simpl.
    + done.
    + apply (storeAll_impl wellFormed); [by intros m [? _]|].
      apply (boot_wellFormed DemoPage E).
    + by intros q ?%elem_of_nil.
    + by intros m ?%elem_of_nil.
  - unfold Demo.runEvents. rewrite foldl_snoc. fold (Demo.runEvents E evs).
    destruct ev as [ac|key description]; simpl;
      [by apply act_invariant | by apply onPromptsItemClick_invariant].
Qed.

(** X17.  In every state the page can be brought to, by any sequence of
    submissions, clicks on prompts, settled fetches, added conversations and
    clicks on conversations: a send is in flight exactly while [isLoading]
    is set, and then there is one; its conversation is the one that was
    active when the text was submitted, and that conversation is in the
    store. *)
Theorem page_has_one_send_in_flight_while_loading E (evs : list Demo.Event) :
  let a := Demo.runEvents E evs in
  length (Demo.inFlight a) = (if Demo.isLoading a then 1 else 0)%nat
  ∧ (∀ p : Demo.Submit, p ∈ Demo.inFlight a →
       call_conversationId (Demo.submit_call p) = Demo.submit_activeKey p
       ∧ is_Some (mockConversations (store (Demo.state a)) !! Demo.submit_activeKey p)).
Proof.
  intros a. destruct (runEvents_invariant E evs) as [Hf _ _ _ Hfs]. by split.
Qed.

(** X18.  In every such state the page shows at most one placeholder of a
    reply being awaited, and none once [isLoading] is cleared, however the
    send has settled; and no stored message carries the [loading] flag, so
    that a history read back from the store shows none. *)
Theorem placeholder_shown_only_while_loading E (evs : list Demo.Event) :
  let a := Demo.runEvents E evs in
  (length (placeholders (Demo.messages a)) ≤ 1)%nat
  ∧ (Demo.isLoading a = false → placeholders (Demo.messages a) = [])
  ∧ storeAll (λ m, loading m = None) (store (Demo.state a)).
Proof.
  intros a. destruct (runEvents_invariant E evs) as [Hf Hst Hp Hnum _].
  split; [done|]. split; [|done].
  intros Hidle. apply placeholders_nil. intros m Hm Hl.
  destruct (Hp m Hm Hl) as (p & Hfl & _).
  unfold loadingTracksFlight in Hf. fold a in Hf, Hfl. rewrite Hidle, Hfl in Hf. done.
Qed.


(** ** What a settling fetch does to the page *)

Lemma stamp_truthy (z : Z) : truthy (js "system-" ++ decimal z) = true.
Proof. apply truthy_spec. js_literals. discriminate. Qed.

(** The code of [onSubmit] after its [await], when the conversation of the
    send is in the store: [kept] are the messages the filter lets through,
    [shown] is the reply as the page shows it, [stored] the reply as the
    send function has stored it. *)
Lemma onSubmit_settle_resolved E (p : Demo.Submit) o (a : Demo.App) l :
  mockConversations (store (Demo.state a)) !! Demo.submit_activeKey p = Some l →
  call_conversationId (Demo.submit_call p) = Demo.submit_activeKey p →
  ∃ (stored shown : Message) (sessions' : gmap jsstring jsstring) (k' : nat),
    Demo.onSubmit_settle E p o a
    = Demo.mkApp
        (mkState
           (mkStore (<[Demo.submit_activeKey p := l ++ [stored]]>
                       (mockConversations (store (Demo.state a))))
                    sessions')
           k')
        false (Demo.activeKey a)
        ((Demo.withoutPlaceholders E p (Demo.messages a) (S (S (tick (Demo.state a))))).1
         ++ [shown])
        (Demo.isNewConversation a)
        ((λ item : jsstring * jsstring,
            if bool_decide (item.1 = Demo.submit_activeKey p)
            then (item.1,
                  Demo.getTitleFromMessages (l ++ [stored]) (Demo.submit_activeKey p))
            else item) <$> Demo.submit_conversationsItems p)
        (Demo.inFlight a)
    ∧ content shown = content stored
    ∧ isUser shown = false ∧ loading shown = None ∧ isUser stored = false
    ∧ ((∃ why : jsstring, Failure o why) ∨ id shown = id stored).
Proof.
  intros Hl Hkey. rewrite <- Hkey in Hl. unfold Demo.onSubmit_settle.
  destruct (outcome_cases o) as [[why Hf]|(status & data_reply & sid & Hst & ->)].
  - rewrite (afterFetch_failure _ _ _ _ _ Hf), (onError_present _ _ _ _ _ Hl).
    cbn [tick message_id metadata reply store mockConversations].
    destruct (Demo.withoutPlaceholders E p (Demo.messages a) (S (S (tick (Demo.state a)))))
      as [kept k]. rewrite Hkey, lookup_insert_eq. cbn [fst].
    eexists (errorMessageOf E (tick (Demo.state a))), _, _, _.
    split; [reflexivity|]. split; [done|]. split; [done|]. split; [done|].
    split; [done|]. left. by exists why.
  - rewrite (afterFetch_success _ _ _ _ _ _ _ Hst Hl).
    cbn [tick message_id metadata reply store mockConversations].
    destruct (Demo.withoutPlaceholders E p (Demo.messages a) (S (S (tick (Demo.state a)))))
      as [kept k]. rewrite stamp_truthy, Hkey, lookup_insert_eq. cbn [fst].
    eexists (systemMessageOf E data_reply (tick (Demo.state a))), _, _, _.
    split; [reflexivity|]. split; [done|]. split; [done|]. split; [done|].
    split; [done|]. by right.
Qed.

(** The submission that settles, in a state the page can be brought to. *)
Lemma runEvents_settle E (evs : list Demo.Event) (i : nat) (p : Demo.Submit) o :
  Demo.inFlight (Demo.runEvents E evs) !! i = Some p →
  ∃ l,
    mockConversations (store (Demo.state (Demo.runEvents E evs))) !! Demo.submit_activeKey p
    = Some l
    ∧ call_conversationId (Demo.submit_call p) = Demo.submit_activeKey p
    ∧ Demo.handle E (Demo.runEvents E evs) (Demo.Handler (Demo.DoSettle i o))
      = Demo.onSubmit_settle E p o
          (Demo.mkApp (Demo.state (Demo.runEvents E evs)) true
             (Demo.activeKey (Demo.runEvents E evs)) (Demo.messages (Demo.runEvents E evs))
             (Demo.isNewConversation (Demo.runEvents E evs))
             (Demo.conversationsItems (Demo.runEvents E evs)) []).
Proof.
  intros Hi. pose proof (runEvents_invariant E evs) as Hinv.
  destruct (pageInvariant_flight _ i p Hinv Hi) as (-> & Hone & Hload).
  destruct (page_flights_stored _ Hinv p) as [Hkey [l Hl]].
  { rewrite Hone. by left. }
  exists l. split; [done|]. split; [done|].
  cbn [Demo.handle Demo.act]. by rewrite Hi, Hload, Hone.
Qed.

(** X19.  When the fetch of a submission settles, the list of
    conversations becomes the list the submission captured when the text was
    submitted, with the label of its conversation set to the title derived
    from the stored history: the conversations listed are those that were
    listed then, whatever was added to the list since. *)
Theorem settling_restores_captured_conversation_list E (evs : list Demo.Event) (i : nat)
    (p : Demo.Submit) o :
  Demo.inFlight (Demo.runEvents E evs) !! i = Some p →
  let a' := Demo.handle E (Demo.runEvents E evs) (Demo.Handler (Demo.DoSettle i o)) in
  let key := Demo.submit_activeKey p in
  Demo.conversationsItems a'
  = (λ item : jsstring * jsstring,
       if bool_decide (item.1 = key)
       then (item.1, Demo.getTitleFromMessages (history key (Demo.state a')) key)
       else item) <$> Demo.submit_conversationsItems p
  ∧ (Demo.conversationsItems a').*1 = (Demo.submit_conversationsItems p).*1.
Proof.
  intros Hi a' key. destruct (runEvents_settle E evs i p o Hi) as (l & Hl & Hkey & Heq).
  destruct (onSubmit_settle_resolved E p o
              (Demo.mkApp (Demo.state (Demo.runEvents E evs)) true
                 (Demo.activeKey (Demo.runEvents E evs))
                 (Demo.messages (Demo.runEvents E evs))
                 (Demo.isNewConversation (Demo.runEvents E evs))
                 (Demo.conversationsItems (Demo.runEvents E evs)) [])
              l Hl Hkey)
    as (stored & shown & sessions' & k' & Hset & _).
  unfold a'. rewrite Heq. cbn [Demo.state Demo.conversationsItems] in Hset |- *.
  rewrite Hset. cbn [Demo.state Demo.conversationsItems]. unfold history.
  cbn [store mockConversations]. rewrite lookup_insert_eq. cbn [default from_option].
  split; [done|]. rewrite <- list_fmap_compose. apply list_fmap_ext.
  intros j item _. simpl. by case_bool_decide.
Qed.

(** X19 at a conversation added while the reply to ["hi"] is awaited: once
    the fetch has settled, the conversation that was added is the active
    one, and is not listed. *)
Lemma settling_drops_conversation_added_meanwhile :
  let E := mkEnv (λ _, 1700000000000) (λ _, 123456) (λ k, decimal (Z.of_nat k))
                 (js "TypeError") in
  let evs := [Demo.Handler (Demo.DoSubmit (js "hi")); Demo.Handler Demo.DoAddConversation] in
  let a' := Demo.handle E (Demo.runEvents E evs)
              (Demo.Handler (Demo.DoSettle 0 (FetchRejected []))) in
  (Demo.conversationsItems (Demo.runEvents E evs)).*1 = [js "0"; js "11"]
  ∧ Demo.activeKey a' = js "11"
  ∧ (Demo.conversationsItems a').*1 = [js "0"]
  ∧ ∃ p : Demo.Submit,
      Demo.conversationsItems a'
      = (λ item : jsstring * jsstring,
           if bool_decide (item.1 = Demo.submit_activeKey p)
           then (item.1,
                 Demo.getTitleFromMessages
                   (history (Demo.submit_activeKey p) (Demo.state a'))
                   (Demo.submit_activeKey p))
           else item) <$> Demo.submit_conversationsItems p
      ∧ (Demo.conversationsItems a').*1 = (Demo.submit_conversationsItems p).*1.
Proof.
  intros E evs a'.
  split; [by vm_compute|]. split; [by vm_compute|]. split; [by vm_compute|].
  assert (Hp : ∃ p, Demo.inFlight (Demo.runEvents E evs) !! 0%nat = Some p)
    by (vm_compute; by eexists).
  destruct Hp as [p Hp]. exists p.
  exact (settling_restores_captured_conversation_list E evs 0 p (FetchRejected []) Hp).
Defined.

(** X20.  When the fetch of a submission settles, the reply is the last
    of the messages the page shows, whichever conversation is active by
    then: it has the content of the reply the send function has stored last
    in the conversation of the submission, and its identifier when the
    fetch did not fail; it is no user message and no placeholder; the
    active conversation stays, [isLoading] is cleared and nothing is in
    flight. *)
Theorem settled_reply_is_appended_to_shown_messages E (evs : list Demo.Event) (i : nat)
    (p : Demo.Submit) o :
  Demo.inFlight (Demo.runEvents E evs) !! i = Some p →
  let a := Demo.runEvents E evs in
  let a' := Demo.handle E a (Demo.Handler (Demo.DoSettle i o)) in
  ∃ shown stored : Message,
    last (Demo.messages a') = Some shown
    ∧ last (history (Demo.submit_activeKey p) (Demo.state a')) = Some stored
    ∧ content shown = content stored
    ∧ isUser shown = false ∧ loading shown = None ∧ isUser stored = false
    ∧ ((∃ why : jsstring, Failure o why) ∨ id shown = id stored)
    ∧ Demo.activeKey a' = Demo.activeKey a
    ∧ Demo.isLoading a' = false
    ∧ Demo.inFlight a' = [].
Proof.
  intros Hi a a'. subst a'. subst a.
  destruct (runEvents_settle E evs i p o Hi) as (l & Hl & Hkey & Heq).
  destruct (onSubmit_settle_resolved E p o
              (Demo.mkApp (Demo.state (Demo.runEvents E evs)) true
                 (Demo.activeKey (Demo.runEvents E evs))
                 (Demo.messages (Demo.runEvents E evs))
                 (Demo.isNewConversation (Demo.runEvents E evs))
                 (Demo.conversationsItems (Demo.runEvents E evs)) [])
              l Hl Hkey)
    as (stored & shown & sessions' & k' & Hset & Hc & Hu & Hld & Hus & Hid).
  rewrite Heq. cbn [Demo.state Demo.activeKey Demo.messages] in Hset |- *.
  rewrite Hset. cbn [Demo.state Demo.messages Demo.activeKey Demo.isLoading Demo.inFlight].
  exists shown, stored. split; [apply last_snoc|]. split.
  { unfold history. cbn [store mockConversations]. rewrite lookup_insert_eq.
    cbn [default from_option]. apply last_snoc. }
  by repeat split.
Qed.

(** X20 at the same scenario: the reply to ["hi"], sent to the first
    conversation, is shown in the conversation added since. *)
Lemma settled_reply_is_shown_in_conversation_added_meanwhile :
  let E := mkEnv (λ _, 1700000000000) (λ _, 123456) (λ k, decimal (Z.of_nat k))
                 (js "TypeError") in
  let evs := [Demo.Handler (Demo.DoSubmit (js "hi")); Demo.Handler Demo.DoAddConversation] in
  let a := Demo.runEvents E evs in
  let a' := Demo.handle E a (Demo.Handler (Demo.DoSettle 0 (FetchRejected []))) in
  Demo.activeKey a' = js "11"
  ∧ content <$> last (Demo.messages a') = Some fallbackReply
  ∧ content <$> history (js "11") (Demo.state a') = [Demo.newGreeting]
  ∧ content <$> history (js "0") (Demo.state a') = [Demo.greeting; js "hi"; fallbackReply]
  ∧ ∃ (p : Demo.Submit) (shown stored : Message),
      last (Demo.messages a') = Some shown
      ∧ last (history (Demo.submit_activeKey p) (Demo.state a')) = Some stored
      ∧ content shown = content stored
      ∧ isUser shown = false ∧ loading shown = None ∧ isUser stored = false
      ∧ ((∃ why : jsstring, Failure (FetchRejected []) why) ∨ id shown = id stored)
      ∧ Demo.activeKey a' = Demo.activeKey a
      ∧ Demo.isLoading a' = false
      ∧ Demo.inFlight a' = [].
Proof.
  intros E evs a a'.
  split; [by vm_compute|]. split; [by vm_compute|]. split; [by vm_compute|].
  split; [by vm_compute|].
  assert (Hp : ∃ p, Demo.inFlight (Demo.runEvents E evs) !! 0%nat = Some p)
    by (vm_compute; by eexists).
  destruct Hp as [p Hp]. exists p.
  exact (settled_reply_is_appended_to_shown_messages E evs 0 p (FetchRejected []) Hp).
Defined.


(** ** The two copies of the send function *)

Lemma hasDuplicateMessage_unread E message l k :
  (∀ msg, msg ∈ l → isUser msg = true → content msg ≠ message) →
  Demo.hasDuplicateMessage E message l k = (false, k).
Proof.
  induction l as [|msg l IH]; intros Hno; [done|]. simpl.
  destruct (isUser msg) eqn:Hu; simpl.
  - rewrite bool_decide_eq_false_2 by (apply Hno; [by left | done]).
    apply IH. intros msg' Hin. apply Hno. by right.
  - apply IH. intros msg' Hin. apply Hno. by right.
Qed.

(** X21.  The two copies of the send function differ in their guard and in
    their request only.  For a text that no user message of the history
    has as its content, [apiSendMessage] of the demo page and [sendMessage]
    of the API module read the clock as often, leave the same store, bind
    the same session and settle alike; their requests carry the same
    session identifier, and the text under [question] for the one, under
    [content] for the other. *)
Theorem send_functions_agree_on_new_text E message cid o s :
  (∀ msg, msg ∈ history cid s → isUser msg = true → content msg ≠ message) →
  Demo.apiSendMessage E message cid o s = Api.sendMessage E message cid o s
  ∧ (Demo.apiSendMessage_request E message cid s).2
    = (Api.sendMessage_request E message cid s).2
  ∧ (Demo.apiSendMessage_request E message cid s).1.2
    = (Api.sendMessage_request E message cid s).1.2
  ∧ field (js "session_id") (body (Demo.apiSendMessage_request E message cid s).1.1)
    = field (js "session_id") (body (Api.sendMessage_request E message cid s).1.1)
  ∧ field (js "question") (body (Demo.apiSendMessage_request E message cid s).1.1)
    = Some message
  ∧ field (js "content") (body (Api.sendMessage_request E message cid s).1.1)
    = Some message.
Proof.
  intros Hno.
  assert (Hreq : ∃ (req req' : Request) c s1,
            Demo.apiSendMessage_request E message cid s = (req, c, s1)
            ∧ Api.sendMessage_request E message cid s = (req', c, s1)
            ∧ field (js "session_id") (body req) = field (js "session_id") (body req')
            ∧ field (js "question") (body req) = Some message
            ∧ field (js "content") (body req') = Some message).
  { unfold Demo.apiSendMessage_request, Api.sendMessage_request.
    rewrite ensure_lookup.
    change (default [] (Some (default [] (mockConversations (store s) !! cid))))
      with (history cid s).
    rewrite (hasDuplicateMessage_unread _ _ _ _ Hno). lazy beta iota zeta.
    destruct (resolveSession E cid (sessionIdMap (store s)) (S (S (tick s))))
      as [[sid sessions'] k'].
    eexists _, _, _, _. split; [reflexivity|]. split; [reflexivity|].
    cbn [body]. by vm_compute. }
  destruct Hreq as (req & req' & c & s1 & Hd & Ha & Hsid & Hq & Hc).
  unfold Demo.apiSendMessage, Api.sendMessage. rewrite Hd, Ha. by repeat split.
Qed.

(** X21 at ["hi"] sent to the conversation ["1"] of the initial store. *)
Lemma send_functions_agree_on_hi :
  let E := stoppedClock in
  let s := Api.initial E in
  let o := FetchResponse 200 (BodyJson (js "hello") (Some (js "s1"))) in
  Demo.apiSendMessage E (js "hi") (js "1") o s = Api.sendMessage E (js "hi") (js "1") o s
  ∧ (Demo.apiSendMessage_request E (js "hi") (js "1") s).2
    = (Api.sendMessage_request E (js "hi") (js "1") s).2
  ∧ (Demo.apiSendMessage_request E (js "hi") (js "1") s).1.2
    = (Api.sendMessage_request E (js "hi") (js "1") s).1.2
  ∧ field (js "session_id") (body (Demo.apiSendMessage_request E (js "hi") (js "1") s).1.1)
    = field (js "session_id") (body (Api.sendMessage_request E (js "hi") (js "1") s).1.1)
  ∧ field (js "question") (body (Demo.apiSendMessage_request E (js "hi") (js "1") s).1.1)
    = Some (js "hi")
  ∧ field (js "content") (body (Api.sendMessage_request E (js "hi") (js "1") s).1.1)
    = Some (js "hi").
Proof.
  intros E s o. apply (send_functions_agree_on_new_text E (js "hi") (js "1") o s).
  intros msg Hin Hu. unfold history, s in Hin. simpl in Hin.
  rewrite lookup_singleton_eq in Hin. simpl in Hin.
  apply list_elem_of_singleton in Hin as ->. discriminate.
Defined.


(** ** The store of the page *)

Lemma withoutPlaceholders_tick E (p : Demo.Submit) (prev : list Message) k :
  (k ≤ (Demo.withoutPlaceholders E p prev k).2)%nat.
Proof.
  revert k. induction prev as [|msg rest IH]; intros k; simpl; [lia|].
  case_bool_decide; [apply IH|].
  destruct (isUser msg && bool_decide (content msg = Demo.nextContent p)).
  - specialize (IH (S k)). destruct (Demo.withoutPlaceholders E p rest (S k)) as [kept k'].
    simpl in *. lia.
  - specialize (IH k). by destruct (Demo.withoutPlaceholders E p rest k) as [kept k'].
Qed.

Lemma Change_later E s (k : nat) : (tick s ≤ k)%nat → Change E s (mkState (store s) k).
Proof. intros Hk. by apply change_none. Qed.

(** What a handler does to the store is what the calls it makes do, one
    after the other. *)
Lemma handle_changes E (a : Demo.App) (ev : Demo.Event) :
  rtc (Change E) (Demo.state a) (Demo.state (Demo.handle E a ev)).
Proof.
  assert (Hsubmit : ∀ text, rtc (Change E) (Demo.state a) (Demo.state (Demo.onSubmit E text a))).
  { intros text. destruct (onSubmit_accepted E text a) as [->|Hacc]; [done|].
    destruct Hacc as (_ & s0 & req & c & s1 & um & pm & uid & -> & Hreq & _ & _ & _ & ->).
    simpl.
    apply (rtc_l _ _ (mkState (store (Demo.state a)) (S (S (S (S (tick (Demo.state a)))))))).
    { apply Change_later. lia. }
    apply rtc_once.
    pose proof (request_change DemoPage E text (Demo.activeKey a)
                  (mkState (store (Demo.state a)) (S (S (S (S (tick (Demo.state a))))))))
      as Hch. simpl in Hch. by rewrite Hreq in Hch. }
  destruct ev as [[text|i o| |key]|key description]; simpl.
  - apply Hsubmit.
  - destruct (Demo.inFlight a !! i) as [p|]; [|done].
    unfold Demo.onSubmit_settle. simpl.
    pose proof (afterFetch_change E (Demo.submit_call p) o (Demo.state a)) as Hch.
    destruct (afterFetch E (Demo.submit_call p) o (Demo.state a)) as [[r|why] s1];
      simpl in Hch; [|by apply rtc_once].
    pose proof (withoutPlaceholders_tick E p (Demo.messages a) (tick s1)) as Hk.
    destruct (Demo.withoutPlaceholders E p (Demo.messages a) (tick s1)) as [kept k].
    simpl in Hk.
    destruct (message_id (metadata r)) as [i0|]; [destruct (truthy i0)|]; simpl;
      (eapply rtc_l; [exact Hch|]); apply rtc_once, (Change_later E s1); lia.
  - unfold Demo.onAddConversation.
    pose proof (proj2 (createNewConversation_change E (Demo.state a))) as Hch.
    destruct (Demo.createNewConversation E (Demo.state a)) as [newId s1]. simpl in Hch.
    case_bool_decide; simpl; by apply rtc_once.
  - unfold Demo.onConversationClick. by case_bool_decide.
  - unfold Demo.onPromptsItemClick. destruct (Demo.isLoading a); [done|].
    destruct (if Demo.isNewConversation a then _ else None) as [module|].
    + lazy zeta. repeat case_bool_decide; simpl; try done;
        apply rtc_once, (Change_later E (Demo.state a)); lia.
    + destruct description as [d|]; [|done]. destruct (truthy d); [apply Hsubmit | done].
Qed.

Lemma Change_noEmptyHistory E s s' :
  Change E s s' → noEmptyHistory (store s) → noEmptyHistory (store s').
Proof.
  intros [Hsame _|cid m Hpush _ _|newId m Hnew _ _|cid Hdel _] Hinv cid' l;
    unfold noEmptyHistory in *.
  - rewrite Hsame. apply Hinv.
  - rewrite Hpush. destruct (decide (cid' = cid)) as [->|Hne].
    + rewrite lookup_insert_eq. intros [= <-]. by destruct (history cid s).
    + rewrite lookup_insert_ne by done. apply Hinv.
  - rewrite Hnew. destruct (decide (cid' = newId)) as [->|Hne].
    + rewrite lookup_insert_eq. by intros [= <-].
    + rewrite lookup_insert_ne by done. apply Hinv.
  - rewrite Hdel. destruct (decide (cid' = cid)) as [->|Hne].
    + by rewrite lookup_delete_eq.
    + rewrite lookup_delete_ne by done. apply Hinv.
Qed.

Lemma runEvents_changes E (evs : list Demo.Event) :
  rtc (Change E) (Demo.initial E) (Demo.state (Demo.runEvents E evs)).
Proof.
  induction evs as [|ev evs IH] using rev_ind; [done|].
  unfold Demo.runEvents. rewrite foldl_snoc. fold (Demo.runEvents E evs).
  etransitivity; [exact IH | apply handle_changes].
Qed.

(** X22.  What holds of the store under arbitrary callers holds of the
    store of the page, which reads the clock for its own messages between
    the calls: in every state the page can be brought to, no stored history
    is empty, every stored message is a user message exactly when its
    identifier is [user-] followed by a number, and, under a clock that
    never goes back, every stored history is in the order of its
    timestamps. *)
Theorem page_store_invariants E (evs : list Demo.Event) :
  let s := Demo.state (Demo.runEvents E evs) in
  noEmptyHistory (store s)
  ∧ storeAll wellFormed (store s)
  ∧ (monotoneClock E → chronologicalStore E s).
Proof.
  intros s. pose proof (runEvents_changes E evs) as Hrtc. fold s in Hrtc.
  assert (Hall : ∀ s0 s1, rtc (Change E) s0 s1 →
            noEmptyHistory (store s0) ∧ storeAll wellFormed (store s0)
            ∧ (monotoneClock E → chronologicalStore E s0) →
            noEmptyHistory (store s1) ∧ storeAll wellFormed (store s1)
            ∧ (monotoneClock E → chronologicalStore E s1)).
  { induction 1 as [|s0 s1 s2 Hch _ IH]; [done|].
    intros (Hne & Hwf & Hchr). apply IH. split; [|split].
    - by eapply Change_noEmptyHistory.
    - eapply Change_storeAll; [|exact Hch|done]. intros k m. apply builtAt_wellFormed.
    - intros Hmono. eapply Change_chronological; [done|exact Hch|by apply Hchr]. }
  apply (Hall _ _ Hrtc). split; [|split].
  - apply (boot_noEmptyHistory DemoPage E).
  - apply (boot_wellFormed DemoPage E).
  - intros _. apply (boot_chronological DemoPage E).
Qed.
